(** * LexiClear: segmentation, retrieval and citation verification

    A shallow embedding of the pipeline of the legal-document simplifier:
    - [server/lib/mcp.js]: [estimateTokens], [splitIntoSentences], [chunkText],
      [makeBundleId], [createBundleForText], [loadBundle], [getChunkById],
      [deleteBundle];
    - [server/lib/embeddings.js]: [withRetry], [batchGetEmbeddings],
      [cosineSimilarity];
    - [server/routes/ask.js]: [cosineSimilarity], [safeSnippet],
      [ensureBundleEmbeddings], [retrieveTopK], [checkForCitations];
    - [server/lib/verifier.js]: [normalizeText], [extractChunkIds],
      [mapChunksById], [extractQuotedSnippets], [doesSnippetMatchChunk],
      [verifyResponseAgainstBundle], [verifyQAAnswer].

    Conventions of the embedding.
    - A JavaScript string is the list of its code units; the development
      covers strings whose code units are below 256, one [ascii] each.
    - Lengths, offsets and token counts are natural numbers.
    - JavaScript numbers that carry similarity scores are IEEE 754 doubles:
      Rocq's primitive floats, whose sums, products, quotients, square roots
      and comparisons are those of the machine, with rounding, infinities
      and NaN.
    - The embedding service is a function of the number of requests already
      issued and of the request's texts; a call either throws or answers.
    - Objects mutated in place (the chunks of a bundle, the [lastIndex] of a
      global regular expression) are threaded as explicit state.
    - [Array.prototype.sort] is the stable insertion sort that the
      comparator drives, a NaN of the comparator counting as 0.  Where the
      comparator gives NaN it is not consistent and ECMAScript leaves the
      order to the implementation: the properties of the order are stated
      for the lists on which the comparator gives no NaN.
    - The storage directory is a finite map from file paths to the bundles
      written under them; a bundle is read back as it was written.
      [path.join] on the directory is a parameter, any function from file
      names to paths. *)

From Stdlib Require Import Ascii String QArith Qminmax.
From Stdlib Require Import PrimFloat SpecFloat FloatOps FloatAxioms.
From Stdlib Require Import Arith PeanoNat Lia Bool List Sorted Permutation.
From Stdlib Require Import DecimalString DecimalNat.
Import ListNotations.
Close Scope Q_scope.

Set Implicit Arguments.

(** ** JavaScript strings and regular expressions *)

Module JS.

Definition jsstring := list ascii.

Definition lit (s : string) : jsstring := list_ascii_of_string s.

Definition code (c : ascii) : nat := nat_of_ascii c.

Definition in_range (lo hi : nat) (c : ascii) : bool :=
  (lo <=? code c) && (code c <=? hi).

Definition is_char (n : nat) (c : ascii) : bool := code c =? n.

Definition is_digit : ascii -> bool := in_range 48 57.
Definition is_upper : ascii -> bool := in_range 65 90.
Definition is_lower : ascii -> bool := in_range 97 122.

(** [\w] *)
Definition is_word (c : ascii) : bool :=
  is_upper c || is_lower c || is_digit c || is_char 95 c.

(** [\s], also the characters removed by [trim]: TAB, LF, VT, FF, CR,
    space and the no-break space. *)
Definition is_space (c : ascii) : bool :=
  in_range 9 13 c || is_char 32 c || is_char 160 c.

Definition quote_dbl : ascii := ascii_of_nat 34.
Definition quote_sgl : ascii := ascii_of_nat 39.
Definition LF : ascii := ascii_of_nat 10.
Definition CR : ascii := ascii_of_nat 13.
Definition SP : ascii := ascii_of_nat 32.

(** [String.prototype.toLowerCase] on code units below 256. *)
Definition lower_char (c : ascii) : ascii :=
  if is_upper c || in_range 192 214 c || in_range 216 222 c
  then ascii_of_nat (code c + 32) else c.

Definition toLowerCase (s : jsstring) : jsstring := map lower_char s.

Fixpoint trimStart (s : jsstring) : jsstring :=
  match s with
  | c :: s' => if is_space c then trimStart s' else s
  | [] => []
  end.

Definition trimEnd (s : jsstring) : jsstring := rev (trimStart (rev s)).

Definition trim (s : jsstring) : jsstring := trimEnd (trimStart s).

(** Truthiness of a string: [Boolean(s)], [!s] is its negation. *)
Definition truthy (s : jsstring) : bool :=
  match s with [] => false | _ => true end.

Fixpoint str_eqb (s t : jsstring) : bool :=
  match s, t with
  | [], [] => true
  | a :: s', b :: t' => Ascii.eqb a b && str_eqb s' t'
  | _, _ => false
  end.

Fixpoint startsWith (p s : jsstring) : bool :=
  match p, s with
  | [], _ => true
  | a :: p', b :: s' => Ascii.eqb a b && startsWith p' s'
  | _ :: _, [] => false
  end.

Fixpoint indexOf_go (p s : jsstring) (i : nat) : option nat :=
  if startsWith p s then Some i
  else match s with
       | [] => None
       | _ :: s' => indexOf_go p s' (S i)
       end.

(** [s.indexOf(p, from)]; [None] stands for [-1]. *)
Definition indexOf (s p : jsstring) (from : nat) : option nat :=
  let from := Nat.min from (length s) in
  indexOf_go p (skipn from s) from.

Definition includes (s p : jsstring) : bool :=
  match indexOf s p 0 with Some _ => true | None => false end.

(** [s.slice(0, n)] *)
Definition slice0 (s : jsstring) (n : nat) : jsstring := firstn n s.

(** [s.slice(i, j)] for [i <= j] *)
Definition substring (s : jsstring) (i j : nat) : jsstring :=
  firstn (j - i) (skipn i s).

(** [parts.join(sep)] *)
Fixpoint join (sep : jsstring) (parts : list jsstring) : jsstring :=
  match parts with
  | [] => []
  | [p] => p
  | p :: rest => p ++ sep ++ join sep rest
  end.

(** *** A backtracking matcher for the patterns the sources use

    Quantifiers are greedy and range over one character class, which is all
    the sources need.  A cursor is a position in the subject: the characters
    before it, nearest first, and the characters after it. *)

Inductive regex : Type :=
| Eps
| Class (p : ascii -> bool)
| Lit (s : jsstring)
| Seq (r1 r2 : regex)
| Alt (r1 r2 : regex)
| Rep (p : ascii -> bool) (lo : nat) (hi : option nat)
| WordB
| Behind (ps : list (ascii -> bool))
| Ahead (r : regex)
| EndOfInput.

Record cursor : Type := Cursor { before : list ascii; after : list ascii }.

Definition pos (c : cursor) : nat := length (before c).

Definition start_of (s : jsstring) (i : nat) : cursor :=
  Cursor (rev (firstn i s)) (skipn i s).

Fixpoint advance (n : nat) (c : cursor) : cursor :=
  match n with
  | 0 => c
  | S n' => match after c with
            | x :: a => advance n' (Cursor (x :: before c) a)
            | [] => c
            end
  end.

(** Length of the longest run of [p] at the head of [a], at most [hi]. *)
Fixpoint run_length (p : ascii -> bool) (hi : option nat) (a : list ascii)
  : nat :=
  match hi, a with
  | Some 0, _ => 0
  | _, [] => 0
  | _, x :: a' =>
      if p x then S (run_length p (option_map Nat.pred hi) a') else 0
  end.

(** Greedy choice: the longest run first, then shorter ones, not below [lo]. *)
Fixpoint try_down (A : Type) (n lo : nat) (c : cursor)
  (k : cursor -> option A) : option A :=
  if n <? lo then None
  else match k (advance n c) with
       | Some e => Some e
       | None => match n with
                 | 0 => None
                 | S n' => try_down n' lo c k
                 end
       end.

Definition is_word_opt (o : option ascii) : bool :=
  match o with Some x => is_word x | None => false end.

Fixpoint all_classes (ps : list (ascii -> bool)) (s : list ascii) : bool :=
  match ps, s with
  | [], _ => true
  | p :: ps', x :: s' => p x && all_classes ps' s'
  | _ :: _, [] => false
  end.

Fixpoint run (A : Type) (r : regex) (c : cursor) (k : cursor -> option A)
  : option A :=
  match r with
  | Eps => k c
  | Class p =>
      match after c with
      | x :: a => if p x then k (Cursor (x :: before c) a) else None
      | [] => None
      end
  | Lit s =>
      if startsWith s (after c) then k (advance (length s) c) else None
  | Seq r1 r2 => run r1 c (fun c' => run r2 c' k)
  | Alt r1 r2 =>
      match run r1 c k with
      | Some e => Some e
      | None => run r2 c k
      end
  | Rep p lo hi => try_down (run_length p hi (after c)) lo c k
  | WordB =>
      if xorb (is_word_opt (hd_error (before c)))
              (is_word_opt (hd_error (after c)))
      then k c else None
  | Behind ps => if all_classes (rev ps) (before c) then k c else None
  | Ahead r' =>
      match run r' c (fun e => Some e) with
      | Some _ => k c
      | None => None
      end
  | EndOfInput => match after c with [] => k c | _ :: _ => None end
  end.

(** The match that starts at the cursor, as the position where it ends. *)
Definition match_at (r : regex) (c : cursor) : option nat :=
  run r c (fun e => Some (pos e)).

(** Leftmost match at or after the cursor: start and end. *)
Fixpoint search_go (r : regex) (b a : list ascii) : option (nat * nat) :=
  match match_at r (Cursor b a) with
  | Some e => Some (length b, e)
  | None => match a with
            | x :: a' => search_go r (x :: b) a'
            | [] => None
            end
  end.

(** [re.exec(s)] / [re.test(s)] of a regular expression with the [g] flag:
    the search starts at [lastIndex]; the new [lastIndex] is the end of the
    match, or 0 when there is none. *)
Definition exec (r : regex) (s : jsstring) (lastIndex : nat)
  : option (nat * nat) * nat :=
  if length s <? lastIndex then (None, 0)
  else match search_go r (before (start_of s lastIndex))
                         (after (start_of s lastIndex)) with
       | Some (i, e) => (Some (i, e), e)
       | None => (None, 0)
       end.

Definition test (r : regex) (s : jsstring) (lastIndex : nat) : bool * nat :=
  match exec r s lastIndex with
  | (Some _, l) => (true, l)
  | (None, l) => (false, l)
  end.

(** One left-to-right pass that cuts the subject at the successive matches:
    text, match, text, ..., text.  [cur] is the text gathered since the last
    match (reversed), [skip] counts the characters of the current match that
    are still to be passed over.  The patterns of the sources never match the
    empty string; an empty match is passed over as no match. *)
Inductive token : Type :=
| Text (s : jsstring)
| Hit (start stop : nat).

Fixpoint scan (r : regex) (b a : list ascii) (cur : list ascii) (skip : nat)
  : list token :=
  match a with
  | [] => [Text (rev cur)]
  | x :: a' =>
      match skip with
      | S n => scan r (x :: b) a' cur n
      | 0 =>
          match match_at r (Cursor b a) with
          | Some e =>
              if length b <? e
              then Text (rev cur) :: Hit (length b) e
                     :: scan r (x :: b) a' [] (e - length b - 1)
              else scan r (x :: b) a' (x :: cur) 0
          | None => scan r (x :: b) a' (x :: cur) 0
          end
      end
  end.

Definition texts (ts : list token) : list jsstring :=
  flat_map (fun t => match t with Text s => [s] | Hit _ _ => [] end) ts.

Definition hits (ts : list token) : list (nat * nat) :=
  flat_map (fun t => match t with Text _ => [] | Hit i e => [(i, e)] end) ts.

(** [s.split(re)] *)
Definition split (r : regex) (s : jsstring) : list jsstring :=
  texts (scan r [] s [] 0).

(** [s.replace(re, by)] with the [g] flag *)
Definition replaceAll (r : regex) (s by_ : jsstring) : jsstring :=
  concat (map (fun t => match t with Text u => u | Hit _ _ => by_ end)
              (scan r [] s [] 0)).

(** The matches collected by [while ((m = re.exec(s)) !== null)] for a
    global [re] whose [lastIndex] is [lastIndex] on entry. *)
Definition execAll (r : regex) (s : jsstring) (lastIndex : nat)
  : list (nat * nat) :=
  if length s <? lastIndex then []
  else hits (scan r (before (start_of s lastIndex))
                    (after (start_of s lastIndex)) [] 0).

End JS.

(** ** server/lib/mcp.js: the segmenter *)

Module Mcp.
Import JS.

Definition DEFAULT_CHUNK_TOKENS : nat := 500.
Definition DEFAULT_CHUNK_OVERLAP : nat := 50.

(** [Math.max(1, Math.ceil(text.length / 4))], 0 for the empty string. *)
Definition estimateTokens (text : jsstring) : nat :=
  if truthy text then Nat.max 1 ((length text + 3) / 4) else 0.

(** [/\r\n/g] *)
Definition crlf : regex := Lit [CR; LF].

(** [/\s+/g] *)
Definition spaces : regex := Rep is_space 1 None.

Definition is_ender (c : ascii) : bool :=
  is_char 46 c || is_char 33 c || is_char 63 c.

(** The class after the boundary: an upper-case letter, a digit, the double
    quote or the opening bracket.  The two curly quotes of the source class
    have code units above 255 and do not occur in the strings covered. *)
Definition sentence_start (c : ascii) : bool :=
  is_upper c || is_digit c || is_char 34 c || is_char 91 c.

(** [/(?<=\S[.!?])\s+(?=C|$)/g], [C] the class [sentence_start] *)
Definition sentence_pattern : regex :=
  Seq (Behind [fun c => negb (is_space c); is_ender])
      (Seq (Rep is_space 1 None)
           (Ahead (Alt (Class sentence_start) EndOfInput))).

Definition splitIntoSentences (text : jsstring) : list jsstring :=
  let normalized := trim (replaceAll spaces (replaceAll crlf text [LF]) [SP]) in
  if negb (truthy normalized) then []
  else
    let raw := split sentence_pattern normalized in
    match raw with
    | [] => [normalized]
    | _ :: _ => filter truthy (map trim raw)
    end.

Record chunk : Type :=
  Chunk { text : jsstring; start_char : nat; end_char : nat }.

(** The [options] argument; an absent field is [None]. *)
Record options : Type :=
  Options { targetTokens : option nat; overlapTokens : option nat }.

(** [o || d] on an optional count: absent and 0 give the default. *)
Definition or_default (o : option nat) (d : nat) : nat :=
  match o with
  | Some (S n) => S n
  | _ => d
  end.

(** The variables of the loops of [chunkText]. *)
Record state : Type := State {
  chunks : list chunk;
  globalCharIndex : nat;
  currentChunkSentences : list jsstring;
  currentChunkStart : option nat;
  currentChunkTokens : nat
}.

Definition is_nil (A : Type) (l : list A) : bool :=
  match l with [] => true | _ :: _ => false end.

(** The loop of [flushChunk] that walks the sentences of the chunk from the
    last one backwards and keeps a tail of about [overlapTokens] tokens. *)
Fixpoint keep_loop (overlap : nat) (backwards keep : list jsstring)
  (keepTokens : nat) : list jsstring * nat :=
  match backwards with
  | [] => (keep, keepTokens)
  | s :: rest =>
      let t := estimateTokens s in
      if (overlap <? keepTokens + t) && negb (is_nil keep)
      then (keep, keepTokens)
      else keep_loop overlap rest (s :: keep) (keepTokens + t)
  end.

Definition flushChunk (overlap : nat) (finalizeOverlap : bool) (st : state)
  : state :=
  match currentChunkSentences st with
  | [] => st
  | _ :: _ =>
      let chunkText := trim (join [SP] (currentChunkSentences st)) in
      let startChar :=
        match currentChunkStart st with Some n => n | None => 0 end in
      let endChar := startChar + length chunkText in
      let chunks' := chunks st ++ [Chunk chunkText startChar endChar] in
      if finalizeOverlap && (0 <? overlap)
      then
        let (keep, keepTokens) :=
          keep_loop overlap (rev (currentChunkSentences st)) [] 0 in
        let keepText := join [SP] keep in
        State chunks' (globalCharIndex st) keep
              (Some (match indexOf chunkText keepText 0 with
                     | Some keepIndexInChunk => startChar + keepIndexInChunk
                     | None => endChar
                     end))
              keepTokens
      else State chunks' (globalCharIndex st) [] None 0
  end.

(** [chunks[chunks.length - 1].end_char] *)
Definition last_end_char (cs : list chunk) : nat :=
  match rev cs with c :: _ => end_char c | [] => 0 end.

Definition with_globalCharIndex (g : nat) (st : state) : state :=
  State (chunks st) g (currentChunkSentences st) (currentChunkStart st)
        (currentChunkTokens st).

(** One turn of the loop over the sentences of a paragraph. *)
Definition sentence_step (doc : jsstring) (target overlap : nat)
  (st : state) (sent : jsstring) : state :=
  let sentTokens := estimateTokens sent in
  let absoluteSentenceIndex :=
    match indexOf doc sent (globalCharIndex st) with
    | Some i => i
    | None => match indexOf doc sent 0 with
              | Some i => i
              | None => globalCharIndex st
              end
    end in
  let start :=
    if is_nil (currentChunkSentences st) then Some absoluteSentenceIndex
    else currentChunkStart st in
  let st1 := State (chunks st) (globalCharIndex st)
                   (currentChunkSentences st ++ [sent]) start
                   (currentChunkTokens st + sentTokens) in
  if target <=? currentChunkTokens st1
  then let st2 := flushChunk overlap true st1 in
       with_globalCharIndex (last_end_char (chunks st2)) st2
  else with_globalCharIndex (absoluteSentenceIndex + length sent) st1.

(** One turn of the loop over the paragraphs. *)
Definition paragraph_step (doc : jsstring) (target overlap : nat)
  (st : state) (para : jsstring) : state :=
  let st0 := State (chunks st) (globalCharIndex st) [] None 0 in
  let st1 := fold_left (sentence_step doc target overlap)
                       (splitIntoSentences para) st0 in
  match currentChunkSentences st1 with
  | [] => st1
  | _ :: _ =>
      let st2 := flushChunk overlap false st1 in
      with_globalCharIndex (last_end_char (chunks st2)) st2
  end.

(** [Math.max(50, Math.floor(DEFAULT_CHUNK_TOKENS / 5))] *)
Definition merge_threshold : nat := Nat.max 50 (DEFAULT_CHUNK_TOKENS / 5).

Definition append_to_last (merged : list chunk) (c : chunk) : list chunk :=
  match rev merged with
  | [] => merged
  | m :: front =>
      rev front ++ [Chunk (text m ++ [SP] ++ text c) (start_char m) (end_char c)]
  end.

(** One turn of the final loop that merges small chunks into the previous. *)
Definition merge_step (merged : list chunk) (c : chunk) : list chunk :=
  let t := estimateTokens (text c) in
  if (t <? merge_threshold) && negb (is_nil merged)
  then append_to_last merged c
  else merged ++ [c].

(** [/\n\s*\n/] *)
Definition paragraph_break : regex :=
  Seq (Lit [LF]) (Seq (Rep is_space 0 None) (Lit [LF])).

(** The chunks gathered by the loop over the paragraphs, before the final
    loop merges the small ones. *)
Definition assembled (doc : jsstring) (target overlap : nat) : list chunk :=
  let normalized := replaceAll crlf doc [LF] in
  let paragraphs :=
    filter truthy (map trim (split paragraph_break normalized)) in
  chunks (fold_left (paragraph_step doc target overlap) paragraphs
                    (State [] 0 [] None 0)).

Definition chunkText (doc : jsstring) (opts : options) : list chunk :=
  let target := or_default (targetTokens opts) DEFAULT_CHUNK_TOKENS in
  let overlap := or_default (overlapTokens opts) DEFAULT_CHUNK_OVERLAP in
  if negb (truthy doc) || negb (truthy (trim doc)) then []
  else fold_left merge_step (assembled doc target overlap) [].

End Mcp.

(** ** Exceptions *)

Inductive exn : Type :=
| Error (message : string)
| TypeError.

Inductive result (A : Type) : Type :=
| Ok (a : A)
| Throw (e : exn).

Arguments Ok {A} a.
Arguments Throw {A} e.

(** A vector of numbers. *)
Definition vec : Type := list float.

(** ** server/lib/embeddings.js *)

Module Embeddings.

Definition MAX_RETRIES : nat := 3.
Definition RETRY_BACKOFF_MS : nat := 500.

(** [withRetry(fn, retries)].  [fn n] is the outcome of the call of [fn]
    made after [n] failed ones, so [attempt] is also the index of the next
    call.  [remaining] is [retries - attempt]: the test [attempt > retries]
    after the increment holds when no retry remains.  The function returns
    the outcome and the waits, in milliseconds, in the order they were made. *)
Fixpoint withRetry_from (A : Type) (fn : nat -> result A)
  (remaining attempt : nat) (waits : list nat) : result A * list nat :=
  match fn attempt with
  | Ok a => (Ok a, waits)
  | Throw err =>
      match remaining with
      | 0 => (Throw err, waits)
      | S r =>
          withRetry_from fn r (S attempt)
                         (waits ++ [RETRY_BACKOFF_MS * 2 ^ attempt])
      end
  end.

Definition withRetry (A : Type) (fn : nat -> result A) (retries : nat)
  : result A * list nat :=
  withRetry_from fn retries 0 [].

(** The three accumulators of the loop of [cosineSimilarity]. *)
Record sums : Type := Sums { dot : float; norma : float; normb : float }.

Definition cosine_body (a b : vec) (s : sums) (i : nat) : sums :=
  Sums (dot s + nth i a 0 * nth i b 0)%float
       (norma s + nth i a 0 * nth i a 0)%float
       (normb s + nth i b 0 * nth i b 0)%float.

Definition cosineSimilarity (a b : vec) : float :=
  let min := Nat.min (length a) (length b) in
  let a' := if length a =? length b then a else firstn min a in
  let b' := if length a =? length b then b else firstn min b in
  let s :=
    fold_left (cosine_body a' b') (seq 0 (length a')) (Sums 0 0 0)%float in
  if (norma s =? 0)%float || (normb s =? 0)%float then 0%float
  else (dot s / (sqrt (norma s) * sqrt (normb s)))%float.

(** The body of a response whose status is ok: the entries of its [data]
    array, an entry without vector being [None]; or a body without a
    [data] array, as [JSON.stringify] prints it. *)
Inductive body : Type :=
| Data (items : list (option vec))
| NoData (printed : string).

(** What the process has done so far: the number of requests it has
    issued and the waits it has made, in milliseconds. *)
Record world : Type := World { issued : nat; waited : list nat }.

(** The loop of [batchGetEmbeddings] from the value [i] on.  [service n b]
    is the outcome of the request for the batch [b] issued after [n] others:
    [Throw] for a failed request or a status that is not ok.  [fuel] bounds
    the number of turns: the source loop need not end. *)
Fixpoint batch_from (service : nat -> list JS.jsstring -> result body)
  (fuel : nat) (texts : list JS.jsstring) (batchSize i : nat)
  (embeddings : list (option vec)) (w : world)
  : option (result (list (option vec)) * world) :=
  if length texts <=? i then Some (Ok embeddings, w)
  else
    match fuel with
    | 0 => None
    | S fuel' =>
        let batch := firstn batchSize (skipn i texts) in
        let tried :=
          withRetry (fun attempt => service (issued w + attempt) batch)
                    MAX_RETRIES in
        let w1 := World (issued w + length (snd tried) + 1)
                        (waited w ++ snd tried) in
        match fst tried with
        | Throw e => Some (Throw e, w1)
        | Ok (NoData printed) =>
            Some (Throw (Error (String.append
                                  "Unexpected batch embeddings response: "
                                  printed)), w1)
        | Ok (Data items) =>
            batch_from service fuel' texts batchSize (i + batchSize)
                       (embeddings ++ items)
                       (World (issued w1) (waited w1 ++ [100]))
        end
    end.

Definition batchGetEmbeddings
  (service : nat -> list JS.jsstring -> result body) (fuel : nat)
  (texts : list JS.jsstring) (batchSize : nat) (w : world)
  : option (result (list (option vec)) * world) :=
  batch_from service fuel texts batchSize 0 [] w.

End Embeddings.

(** ** server/routes/ask.js: the retriever *)

Module Ask.
Import JS.

Record sums : Type := Sums { dot : float; na : float; nb : float }.

(** [x || 0] on a number: the falsy numbers, which are 0, -0 and NaN, give
    0. *)
Definition or_zero (x : float) : float :=
  if (x =? 0)%float || is_nan x then 0%float else x.

(** One turn of the loop: [a[i] || 0] and [b[i] || 0]; an index past the
    end of [b] reads [undefined], which [|| 0] turns into 0. *)
Definition cosine_body (a b : vec) (s : sums) (i : nat) : sums :=
  let ai := or_zero (nth i a 0%float) in
  let bi := or_zero (nth i b 0%float) in
  Sums (dot s + ai * bi)%float (na s + ai * ai)%float (nb s + bi * bi)%float.

Definition cosine_sums (a b : vec) : sums :=
  fold_left (cosine_body a b) (seq 0 (length a)) (Sums 0 0 0)%float.

Definition cosineSimilarity (a b : vec) : float :=
  let s := cosine_sums a b in
  if (na s =? 0)%float || (nb s =? 0)%float then 0%float
  else (dot s / (sqrt (na s) * sqrt (nb s)))%float.

Record chunk : Type := Chunk {
  chunk_id : jsstring;
  text : jsstring;
  embedding : option vec;
  embedding_id : option jsstring
}.

Record bundle : Type := Bundle { bundle_id : jsstring; chunks : list chunk }.

(** What the process has done to the outside: the embedding requests it has
    issued and the bundles it has written to disk, oldest first. *)
Record world : Type := World {
  requests : list (list jsstring);
  saved : list bundle
}.

Definition safeSnippet (text : jsstring) (maxLength : nat) : jsstring :=
  if negb (truthy text) then []
  else if length text <=? maxLength then text
  else slice0 text maxLength ++ lit "...".

Definition BATCH : nat := 16.

(** [for (let i = 0; i < n; i += BATCH)]: the values taken by [i]. *)
Definition batch_starts (n : nat) : list nat :=
  map (fun q => q * BATCH) (seq 0 ((n + (BATCH - 1)) / BATCH)).

Fixpoint update (A : Type) (i : nat) (f : A -> A) (l : list A) : list A :=
  match l, i with
  | [], _ => []
  | x :: l', 0 => f x :: l'
  | x :: l', S i' => x :: update i' f l'
  end.

(** The positions in [cs] of the chunks for which [!c.embedding] holds.
    The chunks are objects shared with the bundle: a chunk of
    [chunksWithoutEmb] is named by its position in [bundle.chunks]. *)
Definition without_embedding (cs : list chunk) : list nat :=
  filter (fun i => match nth_error cs i with
                   | Some c => match embedding c with
                               | None => true
                               | Some _ => false
                               end
                   | None => false
                   end)
         (seq 0 (length cs)).

Definition saveBundle (b : bundle) (w : world) : world :=
  World (requests w) (saved w ++ [b]).

Section Service.

(** The embeddings endpoint: the answer to a request, given how many
    requests were issued before it.  An entry of the answer may lack its
    vector. *)
Variable endpoint : nat -> list jsstring -> result (list (option vec)).

(** The first 12 hexadecimal digits of the SHA-1 of a text. *)
Variable sha1_12 : jsstring -> jsstring.

Definition callOpenAIEmbeddings (texts : list jsstring) (w : world)
  : result (list (option vec)) * world :=
  (endpoint (length (requests w)) texts,
   World (requests w ++ [texts]) (saved w)).

(** [embs[j]] *)
Definition entry (embs : list (option vec)) (j : nat) : option vec :=
  match nth_error embs j with
  | Some (Some v) => Some v
  | _ => None
  end.

(** The two assignments to the chunk [batch[j]]. *)
Definition assign (embs : list (option vec)) (j : nat) (c : chunk) : chunk :=
  Chunk (chunk_id c) (text c) (entry embs j)
        (match embedding_id c with
         | Some (x :: s) => Some (x :: s)
         | _ => Some (lit "emb-" ++ sha1_12 (text c))
         end).

(** The inner loop over [j]: [batch] lists the positions of its chunks. *)
Definition attach (embs : list (option vec)) (batch : list nat)
  (cs : list chunk) : list chunk :=
  fold_left (fun cs' ji => update (snd ji) (assign embs (fst ji)) cs')
            (combine (seq 0 (length batch)) batch) cs.

Definition text_at (cs : list chunk) (i : nat) : jsstring :=
  match nth_error cs i with Some c => text c | None => [] end.

(** The outer loop, over the values [starts] still to be taken by [i].
    The bundle object is changed in place, so its state is returned also
    when a request throws. *)
Fixpoint embed_batches (starts chunksWithoutEmb : list nat)
  (b : bundle) (w : world) : result unit * bundle * world :=
  match starts with
  | [] => (Ok tt, b, w)
  | i :: rest =>
      let batch := firstn BATCH (skipn i chunksWithoutEmb) in
      let texts := map (text_at (chunks b)) batch in
      match callOpenAIEmbeddings texts w with
      | (Throw e, w') => (Throw e, b, w')
      | (Ok embs, w') =>
          embed_batches rest chunksWithoutEmb
            (Bundle (bundle_id b) (attach embs batch (chunks b))) w'
      end
  end.

Definition ensureBundleEmbeddings (b : bundle) (w : world)
  : result unit * bundle * world :=
  let chunksWithoutEmb := without_embedding (chunks b) in
  match chunksWithoutEmb with
  | [] => (Ok tt, b, w)
  | _ :: _ =>
      match embed_batches (batch_starts (length chunksWithoutEmb))
                          chunksWithoutEmb b w with
      | (Ok _, b', w') => (Ok tt, b', saveBundle b' w')
      | (Throw e, b', w') => (Throw e, b', w')
      end
  end.

Record scored : Type := Scored { chunk_of : chunk; score : float }.

Record retrieved : Type :=
  Retrieved { r_chunk : chunk; r_score : float; snippet : jsstring }.

(** [c.embedding ? cosineSimilarity(qEmb, c.embedding) : 0]; reading
    [a.length] of an absent [qEmb] throws. *)
Definition score_chunk (qEmb : option vec) (c : chunk) : result scored :=
  match embedding c with
  | None => Ok (Scored c 0%float)
  | Some e =>
      match qEmb with
      | Some q => Ok (Scored c (cosineSimilarity q e))
      | None => Throw TypeError
      end
  end.

(** [cs.map(f)] for an [f] that may throw. *)
Fixpoint map_result (A B : Type) (f : A -> result B) (l : list A)
  : result (list B) :=
  match l with
  | [] => Ok []
  | x :: l' =>
      match f x with
      | Throw e => Throw e
      | Ok y => match map_result f l' with
                | Throw e => Throw e
                | Ok ys => Ok (y :: ys)
                end
      end
  end.

(** [(a, b) => b.score - a.score] *)
Definition by_score_desc (a b : scored) : float := (score b - score a)%float.

(** [Array.prototype.sort(cmp)], a stable sort: [x], which stood before the
    elements of [l], moves behind [y] only when [cmp(x, y) > 0]; a result
    of [cmp] that is NaN counts as 0.  For a comparator that is consistent
    on the elements every stable sort gives this order; for one that is
    not, the order is left to the engine, and this is the order of an
    insertion from the right. *)
Fixpoint insert (A : Type) (cmp : A -> A -> float) (x : A) (l : list A)
  : list A :=
  match l with
  | [] => [x]
  | y :: l' =>
      if (0 <? cmp x y)%float then y :: insert cmp x l' else x :: y :: l'
  end.

Definition sort (A : Type) (cmp : A -> A -> float) (l : list A) : list A :=
  fold_right (insert cmp) [] l.

Definition rank (k : nat) (l : list scored) : list retrieved :=
  map (fun s => Retrieved (chunk_of s) (score s)
                          (safeSnippet (text (chunk_of s)) 600))
      (firstn k (sort by_score_desc l)).

Definition retrieveTopK (b : bundle) (question : jsstring) (k : nat)
  (w : world) : result (option vec * list retrieved) * bundle * world :=
  match ensureBundleEmbeddings b w with
  | (Throw e, b1, w1) => (Throw e, b1, w1)
  | (Ok _, b1, w1) =>
      match callOpenAIEmbeddings [question] w1 with
      | (Throw e, w2) => (Throw e, b1, w2)
      | (Ok qEmbArr, w2) =>
          let qEmb := entry qEmbArr 0 in
          match map_result (score_chunk qEmb) (chunks b1) with
          | Throw e => (Throw e, b1, w2)
          | Ok l => (Ok (qEmb, rank k l), b1, w2)
          end
      end
  end.

End Service.

Record citation_check : Type :=
  CitationCheck { cited : bool; cited_ids : list jsstring }.

(** The loop of [checkForCitations] over the identifiers [rest] still to
    be tried; [ids] are all of them. *)
Fixpoint citation_loop (answerText : jsstring) (ids rest : list jsstring)
  : citation_check :=
  match rest with
  | [] => CitationCheck false []
  | id :: rest' =>
      if includes answerText id
      then CitationCheck true (filter (includes answerText) ids)
      else citation_loop answerText ids rest'
  end.

Definition checkForCitations (answerText : jsstring)
  (retrieved_ : list retrieved) : citation_check :=
  let ids := map (fun r => chunk_id (r_chunk r)) retrieved_ in
  citation_loop answerText ids ids.

End Ask.

(** ** server/lib/verifier.js: the verifier *)

Module Verifier.
Import JS.

Record options : Type := Options {
  normalizedMatchMinLen : nat;
  sentenceSplitterRegex : regex;
  legalKeywords : list jsstring;
  failOnUnknownChunkId : bool
}.

Definition after_char (n : nat) : regex :=
  Seq (Behind [is_char n]) (Rep is_space 1 None).

(** [/(?<=\.)\s+|(?<=\?)\s+|(?<=\!)\s+/] *)
Definition DEFAULT_SPLITTER : regex :=
  Alt (after_char 46) (Alt (after_char 63) (after_char 33)).

Definition DEFAULT_KEYWORDS : list jsstring :=
  map lit
    ["terminate"; "termination"; "notice"; "indemnify"; "indemnity"; "waive";
     "warranty"; "liability"; "liable"; "penalty"; "breach"; "breaches";
     "governing law"; "jurisdiction"; "confidential"; "confidentiality";
     "obligation"; "rights"; "termination"; "renewal"; "notice period";
     "non-compete"; "severability"; "assignment"; "arbitration"]%string.

Definition DEFAULT_OPTIONS : options :=
  Options 30 DEFAULT_SPLITTER DEFAULT_KEYWORDS false.

(** [[A-Za-z0-9._:-]] *)
Definition id_char (c : ascii) : bool :=
  is_upper c || is_lower c || is_digit c
  || is_char 46 c || is_char 95 c || is_char 58 c || is_char 45 c.

(** [/\b(bundle-[A-Za-z0-9._:-]+-chunk-\d+)\b/g].  The expression is one
    object for the whole module: its [lastIndex] outlives every call. *)
Definition CHUNK_ID_REGEX : regex :=
  Seq WordB
   (Seq (Lit (lit "bundle-"))
    (Seq (Rep id_char 1 None)
     (Seq (Lit (lit "-chunk-"))
      (Seq (Rep is_digit 1 None) WordB)))).

Definition normalizeText (s : jsstring) : jsstring :=
  toLowerCase (trim (replaceAll (Rep is_space 1 None) s [SP])).

(** [new Set(...)] followed by [Array.from]: first occurrences, in order. *)
Fixpoint distinct (seen l : list jsstring) : list jsstring :=
  match l with
  | [] => []
  | x :: l' =>
      if existsb (str_eqb x) seen then distinct seen l'
      else x :: distinct (x :: seen) l'
  end.

(** [extractChunkIds(text)] with the [lastIndex] of [CHUNK_ID_REGEX] on
    entry; the result comes with the [lastIndex] on exit. *)
Definition extractChunkIds (text : jsstring) (lastIndex : nat)
  : list jsstring * nat :=
  if negb (truthy text) then ([], lastIndex)
  else
    (distinct []
       (map (fun m => substring text (fst m) (snd m))
            (execAll CHUNK_ID_REGEX text lastIndex)),
     0).

(** The [Map] of [mapChunksById]: [set] replaces the value of a key that is
    present and adds a key that is not. *)
Definition Map : Type := list (jsstring * Ask.chunk).

Fixpoint map_set (k : jsstring) (v : Ask.chunk) (m : Map) : Map :=
  match m with
  | [] => [(k, v)]
  | (k', v') :: m' =>
      if str_eqb k k' then (k, v) :: m' else (k', v') :: map_set k v m'
  end.

Fixpoint map_get (k : jsstring) (m : Map) : option Ask.chunk :=
  match m with
  | [] => None
  | (k', v') :: m' => if str_eqb k k' then Some v' else map_get k m'
  end.

Definition map_has (k : jsstring) (m : Map) : bool :=
  match map_get k m with Some _ => true | None => false end.

(** The bundle argument: [None] is a value that is no object or has no
    [chunks] array. *)
Definition mapChunksById (bundle : option Ask.bundle) : Map :=
  match bundle with
  | None => []
  | Some b =>
      fold_left (fun m c => if truthy (Ask.chunk_id c)
                            then map_set (Ask.chunk_id c) c m else m)
                (Ask.chunks b) []
  end.

(** A quote, 5 to 500 characters other than the quote, the quote. *)
Definition quoted (q : ascii) : regex :=
  Seq (Lit [q])
      (Seq (Rep (fun c => negb (Ascii.eqb c q)) 5 (Some 500)) (Lit [q])).

Definition extractQuotedSnippets (text : jsstring) : list jsstring :=
  if negb (truthy text) then []
  else
    let group1 := fun m : nat * nat => substring text (S (fst m)) (snd m - 1) in
    map group1 (execAll (quoted quote_dbl) text 0)
    ++ map group1 (execAll (quoted quote_sgl) text 0).

Inductive match_type : Type :=
| exact | normalized | prefix | chunk_prefix | none.

Definition doesSnippetMatchChunk (snippet chunkText : jsstring)
  (opts : options) : bool * match_type :=
  if negb (truthy snippet) || negb (truthy chunkText) then (false, none)
  else if includes chunkText snippet then (true, exact)
  else
    let nSnippet := normalizeText snippet in
    let nChunk := normalizeText chunkText in
    let minLen := match normalizedMatchMinLen opts with
                  | 0 => normalizedMatchMinLen DEFAULT_OPTIONS
                  | S n => S n
                  end in
    if (minLen <=? length nSnippet) && includes nChunk nSnippet
    then (true, normalized)
    else
      let prefixLen := Nat.min 40 (length nSnippet) in
      if (12 <=? prefixLen) && includes nChunk (slice0 nSnippet prefixLen)
      then (true, prefix)
      else (false, none).

Record snippet_match : Type := SnippetMatch {
  sm_chunk_id : jsstring;
  sm_snippet : option jsstring;
  matched : bool;
  sm_match_type : match_type
}.

Record hallucination : Type :=
  Hallucination { sentence : jsstring; reason : jsstring }.

Record stats : Type := Stats {
  num_chunks_in_bundle : nat;
  num_cited_chunks : nat;
  citation_coverage : Q
}.

Record VerificationResult : Type := Result {
  ok : bool;
  error : option string;
  cited_chunks : list jsstring;
  unknown_chunk_ids : list jsstring;
  matched_snippets : list snippet_match;
  missing_snippet_matches : list jsstring;
  potential_hallucinations : list hallucination;
  stats_of : stats
}.

(** The first quoted snippet that matches the chunk, with the kind of match. *)
Fixpoint first_match (quotedSnippets : list jsstring) (chunkText : jsstring)
  (opts : options) : option (jsstring * match_type) :=
  match quotedSnippets with
  | [] => None
  | snippet :: rest =>
      let check := doesSnippetMatchChunk snippet chunkText opts in
      if fst check then Some (snippet, snd check)
      else first_match rest chunkText opts
  end.

(** The test on the beginning of the chunk, common to both functions. *)
Definition probe_found (chunkText answer : jsstring) : bool :=
  let probe := slice0 (normalizeText chunkText) 120 in
  (12 <=? length probe) && includes (normalizeText answer) probe.

(** Step 4, one cited identifier: the entries pushed on [matched_snippets]
    and on [missing_snippet_matches]. *)
Definition citation_step (chunkMap : Map) (quotedSnippets : list jsstring)
  (responseText : jsstring) (opts : options)
  (acc : list snippet_match * list jsstring) (chunkId : jsstring)
  : list snippet_match * list jsstring :=
  match map_get chunkId chunkMap with
  | None => (fst acc ++ [SnippetMatch chunkId None false none], snd acc)
  | Some chunk =>
      match first_match quotedSnippets (Ask.text chunk) opts with
      | Some (snippet, mt) =>
          (fst acc ++ [SnippetMatch chunkId (Some snippet) true mt], snd acc)
      | None =>
          if probe_found (Ask.text chunk) responseText
          then (fst acc
                ++ [SnippetMatch chunkId
                      (Some (slice0 (Ask.text chunk)
                               (Nat.min 200 (length (Ask.text chunk)))))
                      true chunk_prefix],
                snd acc)
          else (fst acc ++ [SnippetMatch chunkId None false none],
                snd acc ++ [chunkId])
      end
  end.

Definition reason_for (kw : jsstring) : jsstring :=
  lit "contains legal keyword " ++ [quote_dbl] ++ kw ++ [quote_dbl]
  ++ lit " but no chunk_id cited".

(** Step 5, one sentence: the sentences flagged so far and the [lastIndex]
    of [CHUNK_ID_REGEX], before and after. *)
Definition sentence_step (opts : options)
  (acc : list hallucination * nat) (sent : jsstring)
  : list hallucination * nat :=
  let low := toLowerCase sent in
  let t := test CHUNK_ID_REGEX sent (snd acc) in
  if fst t then (fst acc, snd t)
  else
    match find (fun kw => includes low kw) (legalKeywords opts) with
    | Some kw => (fst acc ++ [Hallucination sent (reason_for kw)], snd t)
    | None => (fst acc, snd t)
    end.

Definition sentences_of (responseText : jsstring) (opts : options)
  : list jsstring :=
  filter truthy (map trim (split (sentenceSplitterRegex opts) responseText)).

Definition coverage (cited chunks : nat) : Q :=
  match cited with
  | 0 => 0%Q
  | S _ => Qmin 1 (Z.of_nat cited # Pos.of_nat (Nat.max 1 chunks))
  end.

Definition nonempty (A : Type) (l : list A) : bool :=
  match l with [] => false | _ :: _ => true end.

(** [verifyResponseAgainstBundle(bundle, responseText, opts)], with the
    [lastIndex] of [CHUNK_ID_REGEX] on entry and on exit. *)
Definition verifyResponseAgainstBundle (bundle : option Ask.bundle)
  (responseText : jsstring) (opts : options) (lastIndex : nat)
  : VerificationResult * nat :=
  match bundle with
  | None =>
      (Result false (Some "Invalid bundle: no chunks"%string) [] [] [] [] []
              (Stats 0 0 0), lastIndex)
  | Some b =>
      let num := length (Ask.chunks b) in
      let chunkMap := mapChunksById bundle in
      let (cited, l1) := extractChunkIds responseText lastIndex in
      let unknown := filter (fun id => negb (map_has id chunkMap)) cited in
      if failOnUnknownChunkId opts && nonempty unknown
      then (Result false None cited unknown [] [] []
                   (Stats num (length cited) 0), l1)
      else
        let quotedSnippets := extractQuotedSnippets responseText in
        let (matched_, missing) :=
          fold_left (citation_step chunkMap quotedSnippets responseText opts)
                    cited ([], []) in
        let (flagged, l2) :=
          fold_left (sentence_step opts) (sentences_of responseText opts)
                    ([], l1) in
        let ok_ :=
          if nonempty unknown || nonempty missing || nonempty flagged
          then false else true in
        (Result ok_ None cited unknown matched_ missing flagged
                (Stats num (length cited) (coverage (length cited) num)), l2)
  end.

Record retrieved_match : Type := RetrievedMatch {
  rm_chunk_id : jsstring;
  rm_snippet : jsstring;
  rm_match_type : match_type
}.

Record QAResult : Type := QA {
  base : VerificationResult;
  retrieved_chunk_ids : list jsstring;
  cited_retrieved_intersection : list jsstring;
  cites_retrieved : bool;
  matched_from_retrieved : option (list retrieved_match)
}.

(** One turn of the loop over the retrieved identifiers. *)
Definition retrieved_step (chunkMap : Map) (answerText : jsstring)
  (opts : options) (acc : list retrieved_match) (rid : jsstring)
  : list retrieved_match :=
  match map_get rid chunkMap with
  | None => acc
  | Some chunk =>
      match first_match (extractQuotedSnippets answerText)
                        (Ask.text chunk) opts with
      | Some (snippet, mt) => acc ++ [RetrievedMatch rid snippet mt]
      | None =>
          if probe_found (Ask.text chunk) answerText
          then acc ++ [RetrievedMatch rid (slice0 (Ask.text chunk) 120)
                                      chunk_prefix]
          else acc
      end
  end.

Definition with_ok (v : bool) (r : VerificationResult) : VerificationResult :=
  Result v (error r) (cited_chunks r) (unknown_chunk_ids r)
         (matched_snippets r) (missing_snippet_matches r)
         (potential_hallucinations r) (stats_of r).

(** [verifyQAAnswer(bundle, answerText, retrievedChunkIds, opts)]; [base]
    is the result object of the first step with its final [ok]. *)
Definition verifyQAAnswer (bundle : option Ask.bundle) (answerText : jsstring)
  (retrievedChunkIds : list jsstring) (opts : options) (lastIndex : nat)
  : QAResult * nat :=
  let (baseResult, l) :=
    verifyResponseAgainstBundle bundle answerText opts lastIndex in
  let citedSet := distinct [] (cited_chunks baseResult) in
  let retrievedSet := distinct [] retrievedChunkIds in
  let intersection :=
    filter (fun x => existsb (str_eqb x) retrievedSet) citedSet in
  let cites := nonempty intersection in
  let matchedFromRetrieved :=
    if negb cites && (0 <? length retrievedChunkIds)
    then fold_left (retrieved_step (mapChunksById bundle) answerText opts)
                   retrievedChunkIds []
    else [] in
  let cites' := if nonempty matchedFromRetrieved then true else cites in
  (QA (with_ok (ok baseResult && cites') baseResult)
      retrievedChunkIds intersection cites'
      (if nonempty matchedFromRetrieved then Some matchedFromRetrieved
       else None),
   l).

End Verifier.

(** ** server/lib/mcp.js: the bundles *)

Module Bundles.
Import JS.

(** [String(n)] for a natural number. *)
Definition decimal (n : nat) : jsstring :=
  lit (NilZero.string_of_uint (Nat.to_uint n)).

(** [s.padStart(n, '0')] *)
Definition padStart0 (s : jsstring) (n : nat) : jsstring :=
  repeat (ascii_of_nat 48) (n - length s) ++ s.

(** [makeBundleId], from the value of [Date.now()] and the first group of
    the UUID drawn. *)
Definition makeBundleId (timestamp : nat) (short : jsstring) : jsstring :=
  lit "bundle-" ++ decimal timestamp ++ lit "-" ++ short.

Record chunk : Type := Chunk {
  chunk_id : jsstring;
  start_char : nat;
  end_char : nat;
  text : jsstring;
  tokens : nat;
  embedding_id : option jsstring
}.

(** The fields of a bundle that the chunks, the names and the lengths
    decide; the others are metadata copied from the options and from the
    environment. *)
Record bundle : Type := Bundle {
  bundle_id : jsstring;
  doc_title : jsstring;
  created_at : jsstring;
  uploader_id : jsstring;
  chunks : list chunk;
  original_text_length : nat
}.

Record opts : Type := Opts {
  title : option jsstring;
  uploader : option jsstring;
  chunkOptions : option Mcp.options
}.

(** [o || d] on an optional string: absent and empty give the default. *)
Definition or_text (o : option jsstring) (d : jsstring) : jsstring :=
  match o with
  | Some (c :: s) => c :: s
  | _ => d
  end.

(** The storage directory: the bundle written under each path.  A write
    that the file system refuses is outside this reading. *)
Definition store : Type := list (jsstring * bundle).

Fixpoint writeFile (name : jsstring) (b : bundle) (disk : store) : store :=
  match disk with
  | [] => [(name, b)]
  | (name', b') :: disk' =>
      if str_eqb name name' then (name, b) :: disk'
      else (name', b') :: writeFile name b disk'
  end.

Fixpoint readFile (name : jsstring) (disk : store) : option bundle :=
  match disk with
  | [] => None
  | (name', b') :: disk' =>
      if str_eqb name name' then Some b' else readFile name disk'
  end.

Definition unlink (name : jsstring) (disk : store) : store :=
  filter (fun f => negb (str_eqb name (fst f))) disk.

(** The chunk object built for the raw chunk [c] at index [idx]. *)
Definition chunk_object (bundleId : jsstring) (idx : nat) (c : Mcp.chunk)
  : chunk :=
  Chunk (bundleId ++ lit "-chunk-" ++ padStart0 (decimal (idx + 1)) 3)
        (Mcp.start_char c) (Mcp.end_char c) (Mcp.text c)
        (Mcp.estimateTokens (Mcp.text c)) None.

(** [rawChunks.map((c, idx) => ...)] *)
Definition chunk_objects (bundleId : jsstring) (rawChunks : list Mcp.chunk)
  : list chunk :=
  map (fun ic => chunk_object bundleId (fst ic) (snd ic))
      (combine (seq 0 (length rawChunks)) rawChunks).

Section Storage.

(** [path.join(STORAGE_DIR, name)]: the path of a file name in the storage
    directory.  The path is normalised, so two names can give one path. *)
Variable join : jsstring -> jsstring.

Definition file_of (bundleId : jsstring) : jsstring :=
  join (bundleId ++ lit ".json").

Definition createBundleForText (timestamp : nat) (short createdAt : jsstring)
  (text : jsstring) (o : opts) (disk : store) : result bundle * store :=
  if negb (truthy text) || negb (truthy (trim text))
  then (Throw (Error "Text must be provided to create a bundle."), disk)
  else
    let bundleId := makeBundleId timestamp short in
    let rawChunks :=
      Mcp.chunkText text (match chunkOptions o with
                          | Some c => c
                          | None => Mcp.Options None None
                          end) in
    let bundle :=
      Bundle bundleId (or_text (title o) (lit "uploaded_doc")) createdAt
             (or_text (uploader o) (lit "anonymous"))
             (chunk_objects bundleId rawChunks) (length text) in
    (Ok bundle, writeFile (file_of bundleId) bundle disk).

(** [null] is [None]. *)
Definition loadBundle (bundleId : jsstring) (disk : store)
  : result (option bundle) :=
  if negb (truthy bundleId) then Throw (Error "bundleId required")
  else Ok (readFile (file_of bundleId) disk).

Definition getChunkById (bundleId chunkId : jsstring) (disk : store)
  : result (option chunk) :=
  match loadBundle bundleId disk with
  | Throw e => Throw e
  | Ok None => Ok None
  | Ok (Some b) => Ok (find (fun c => str_eqb (chunk_id c) chunkId) (chunks b))
  end.

Definition deleteBundle (bundleId : jsstring) (disk : store) : bool * store :=
  match readFile (file_of bundleId) disk with
  | Some _ => (true, unlink (file_of bundleId) disk)
  | None => (false, disk)
  end.

End Storage.

End Bundles.


(** * Vocabulary of the properties *)

Import JS.

(** [c.embedding] is truthy. *)
Definition embedded (c : Ask.chunk) : bool :=
  match Ask.embedding c with Some _ => true | None => false end.

(** The waits made after the failed calls [from], ..., [from + n - 1]. *)
Definition backoff (from n : nat) : list nat :=
  map (fun i => Embeddings.RETRY_BACKOFF_MS * 2 ^ i) (seq from n).

(** The texts of the batch that starts at position [i] of the chunks
    without embedding. *)
Definition batch_texts (cs : list Ask.chunk) (without : list nat) (i : nat)
  : list jsstring :=
  map (Ask.text_at cs) (firstn Ask.BATCH (skipn i without)).

(** The requests that [ensureBundleEmbeddings] has to issue for a bundle,
    one for each batch, in order. *)
Definition batches (b : Ask.bundle) : list (list jsstring) :=
  map (batch_texts (Ask.chunks b) (Ask.without_embedding (Ask.chunks b)))
      (Ask.batch_starts (length (Ask.without_embedding (Ask.chunks b)))).

(** The products of two vectors over their common positions, added to
    [acc] one after the other in the order of the positions. *)
Fixpoint sum_products (acc : float) (a b : vec) : float :=
  match a, b with
  | x :: a', y :: b' => sum_products (acc + x * y)%float a' b'
  | _, _ => acc
  end.

(** The formula of the specification in doubles: the dot product over the
    common positions, each norm over the whole of its vector. *)
Definition dot_product (a b : vec) : float := sum_products 0 a b.

Definition norm (a : vec) : float := sqrt (dot_product a a).

Definition cosine_full (a b : vec) : float :=
  (dot_product a b / (norm a * norm b))%float.

(** The formula behind the guard of the code: 0 when a sum of squares
    equals zero. *)
Definition cosine_guarded (a b : vec) : float :=
  if (dot_product a a =? 0)%float || (dot_product b b =? 0)%float
  then 0%float
  else cosine_full a b.

(** The second vector as the loop of [ask.js] reads it against a first
    vector of [n] entries: cut after [n] entries, or continued with zeros. *)
Fixpoint read_to (n : nat) (b : vec) : vec :=
  match n with
  | 0 => []
  | S n' =>
      match b with
      | [] => 0%float :: read_to n' []
      | y :: b' => y :: read_to n' b'
      end
  end.

(** The comparator of [retrieveTopK] gives NaN for no two entries of [l]:
    no difference of two scores, or of a score and itself, is NaN. *)
Definition comparable (l : list Ask.scored) : bool :=
  forallb
    (fun x => forallb (fun y => negb (is_nan (Ask.by_score_desc x y))) l)
    l.


Definition is_prefix (A : Type) (p l : list A) : Prop :=
  exists rest, l = p ++ rest.


(** A retrieved entry without its snippet. *)
Definition entry_of (x : Ask.retrieved) : Ask.scored :=
  Ask.Scored (Ask.r_chunk x) (Ask.r_score x).


(** ** Sample documents, bundles and services *)

(** A first line that reappears later with its line break as a space. *)
Definition doc_reused_sentence : jsstring :=
  lit "a" ++ [LF] ++ lit "b. X a b.".

(** Two paragraphs of 240 characters, 60 tokens each. *)
Definition doc_two_paragraphs : jsstring :=
  repeat "a"%char 240 ++ [LF; LF] ++ repeat "b"%char 240.

Definition bundle_x : Ask.bundle :=
  Ask.Bundle (lit "bundle-x")
    [Ask.Chunk (lit "bundle-x-chunk-1") (lit "The term is two years.")
               None None].

Definition answer_cited_twice : jsstring :=
  lit "Per bundle-x-chunk-1. bundle-x-chunk-1 has notice.".

(** A bundle whose only chunk carries its embedding. *)
Definition bundle_embedded : Ask.bundle :=
  Ask.Bundle (lit "bundle-y")
    [Ask.Chunk (lit "bundle-y-chunk-001") (lit "Either party may assign.")
               (Some [1%float; 0%float]) (Some (lit "emb-0123456789ab"))].

(** A service that is down. *)
Definition endpoint_down (n : nat) (texts : list jsstring)
  : result (list (option vec)) := Throw (Error "unreachable").

(** A service that rejects the first request it receives and answers every
    later one. *)
Definition endpoint_flaky (n : nat) (texts : list jsstring)
  : result (list (option vec)) :=
  if n =? 0 then Throw (Error "503")
  else Ok (map (fun _ => Some [1%float]) texts).

(** A function that throws three times and then returns. *)
Definition fails_thrice (n : nat) : result nat :=
  if n <? 3 then Throw (Error "503") else Ok n.

(** A bundle whose first chunk has no embedding and whose second chunk has
    one that points away from the query; a service that answers the batch
    request with an entry that lacks its vector and the query with [1]. *)
Definition chunk_unembedded : Ask.chunk :=
  Ask.Chunk (lit "bundle-z-chunk-001") (lit "No vector yet.") None None.

Definition chunk_opposite : Ask.chunk :=
  Ask.Chunk (lit "bundle-z-chunk-002") (lit "Opposite direction.")
            (Some [(-1)%float]) (Some (lit "emb-aaaaaaaaaaaa")).

Definition bundle_mixed : Ask.bundle :=
  Ask.Bundle (lit "bundle-z") [chunk_unembedded; chunk_opposite].

Definition endpoint_partial (n : nat) (texts : list jsstring)
  : result (list (option vec)) :=
  if n =? 0 then Ok [None] else Ok [Some [1%float]].

Definition fingerprint (t : jsstring) : jsstring := lit "0123456789ab".

(** [chunk_unembedded] after [ensureBundleEmbeddings]: still no vector. *)
Definition chunk_unembedded' : Ask.chunk :=
  Ask.Chunk (lit "bundle-z-chunk-001") (lit "No vector yet.") None
            (Some (lit "emb-0123456789ab")).

(** A bundle of four chunks, the second without embedding, and a service
    that leaves that chunk without vector and gives the query [1; 0]: the
    scores are 0, 0, 1 and -1. *)
Definition chunk_across : Ask.chunk :=
  Ask.Chunk (lit "bundle-r-chunk-001") (lit "Across.")
            (Some [0%float; 1%float]) (Some (lit "emb-000000000001")).

Definition chunk_pending : Ask.chunk :=
  Ask.Chunk (lit "bundle-r-chunk-002") (lit "Pending.") None None.

Definition chunk_along : Ask.chunk :=
  Ask.Chunk (lit "bundle-r-chunk-003") (lit "Along.")
            (Some [1%float; 0%float]) (Some (lit "emb-000000000003")).

Definition chunk_against : Ask.chunk :=
  Ask.Chunk (lit "bundle-r-chunk-004") (lit "Against.")
            (Some [(-1)%float; 0%float]) (Some (lit "emb-000000000004")).

Definition bundle_ranked : Ask.bundle :=
  Ask.Bundle (lit "bundle-r")
    [chunk_across; chunk_pending; chunk_along; chunk_against].

Definition endpoint_query (n : nat) (texts : list jsstring)
  : result (list (option vec)) :=
  if n =? 0 then Ok [None] else Ok [Some [1%float; 0%float]].

(** [chunk_pending] after [ensureBundleEmbeddings]: still no vector. *)
Definition chunk_pending' : Ask.chunk :=
  Ask.Chunk (lit "bundle-r-chunk-002") (lit "Pending.") None
            (Some (lit "emb-0123456789ab")).






(** Two chunks whose embeddings point the same way, [1; 1] and [3; 3], and
    a service that gives the query [1; 1]. *)
Definition chunk_same : Ask.chunk :=
  Ask.Chunk (lit "bundle-d-chunk-001") (lit "The same vector.")
            (Some [1%float; 1%float]) (Some (lit "emb-00000000000c")).

Definition chunk_longer : Ask.chunk :=
  Ask.Chunk (lit "bundle-d-chunk-002") (lit "Three times as long.")
            (Some [3%float; 3%float]) (Some (lit "emb-00000000000d")).

Definition bundle_diagonal : Ask.bundle :=
  Ask.Bundle (lit "bundle-d") [chunk_same; chunk_longer].

Definition endpoint_diagonal (n : nat) (texts : list jsstring)
  : result (list (option vec)) := Ok [Some [1%float; 1%float]].

(** ** Vocabulary of the further properties *)

(** A string that begins with a character that is no white space. *)
Definition solid_start (s : jsstring) : Prop :=
  match s with c :: _ => is_space c = false | [] => False end.

(** A chunk as the loop over the paragraphs builds it: its text is not
    empty and begins with a character that is no white space, and its end
    offset is its start offset plus the length of its text. *)
Definition well_formed (c : Mcp.chunk) : Prop :=
  Mcp.end_char c = Mcp.start_char c + length (Mcp.text c)
  /\ solid_start (Mcp.text c).

(** The invariant of the loops of [chunkText]. *)
Definition state_ok (st : Mcp.state) : Prop :=
  Forall well_formed (Mcp.chunks st)
  /\ Forall solid_start (Mcp.currentChunkSentences st).

(** The least number of characters that a match of a pattern spans. *)
Fixpoint min_width (r : regex) : nat :=
  match r with
  | Class _ => 1
  | Lit s => length s
  | Seq r1 r2 => min_width r1 + min_width r2
  | Alt r1 r2 => Nat.min (min_width r1) (min_width r2)
  | Rep _ lo _ => lo
  | Eps | WordB | Behind _ | Ahead _ | EndOfInput => 0
  end.

(** The chunks behind the first one. *)
Definition behind_first (A : Type) (l : list A) : list A := tl l.

(** A service that answers every request, with one vector for each text. *)
Definition answers_fully
  (endpoint : nat -> list jsstring -> result (list (option vec))) : Prop :=
  forall n texts,
  exists embs,
    endpoint n texts = Ok embs
    /\ length embs = length texts
    /\ Forall (fun e => e <> None) embs.

(** The number that a string of decimal digits denotes. *)
Definition digits_value (s : jsstring) : nat :=
  fold_left (fun acc c => 10 * acc + (code c - 48)) s 0.

(** A bundle of [mcp.js] as [ask.js] and the verifier read it. *)
Definition as_read (b : Bundles.bundle) : Ask.bundle :=
  Ask.Bundle (Bundles.bundle_id b)
    (map (fun c => Ask.Chunk (Bundles.chunk_id c) (Bundles.text c) None
                             (Bundles.embedding_id c))
         (Bundles.chunks b)).

(** A timestamp and the first group of a UUID. *)
Definition sample_timestamp : nat := 1700.
Definition sample_short : jsstring := lit "9f8e7d6c".

(** The number of batches of [bs] texts that [n] texts make. *)
Definition batch_count (n bs : nat) : nat := (n + (bs - 1)) / bs.

(** A service that gives every text the vector [1], and one that answers
    its first two requests with an error. *)
Definition embed_one (t : jsstring) : option vec := Some [1%float].

Definition service_ones (n : nat) (batch : list jsstring)
  : result Embeddings.body :=
  Ok (Embeddings.Data (map embed_one batch)).

Definition service_slow (n : nat) (batch : list jsstring)
  : result Embeddings.body :=
  if n <? 2 then Throw (Error "503") else service_ones n batch.

(** [!c.embedding] *)
Definition unembedded (c : Ask.chunk) : bool := negb (embedded c).

(** The answer supports the chunk stored under [id]: the chunk exists, and
    one of the quoted snippets of the answer matches its text or the
    normalised answer holds the beginning of its normalised text. *)
Definition supported (chunkMap : Verifier.Map) (answer : jsstring)
  (opts : Verifier.options) (id : jsstring) : bool :=
  match Verifier.map_get id chunkMap with
  | None => false
  | Some chunk =>
      existsb (fun snippet =>
                 fst (Verifier.doesSnippetMatchChunk snippet (Ask.text chunk)
                                                     opts))
              (Verifier.extractQuotedSnippets answer)
      || Verifier.probe_found (Ask.text chunk) answer
  end.

(** A service that answers every text with the vector [1]. *)
Definition endpoint_ones (n : nat) (texts : list jsstring)
  : result (list (option vec)) :=
  Ok (map (fun _ => Some [1%float]) texts).

(** The cases of the comparisons of integers in a goal. *)
Ltac compare_cases :=
  repeat match goal with
    | H : context [Z.compare ?a ?b] |- _ =>
        destruct (Z.compare_spec a b); try discriminate
    | H : context [Pos.compare ?a ?b] |- _ =>
        destruct (Pos.compare_spec a b); try discriminate
    end;
  repeat match goal with
    | |- context [Z.compare ?a ?b] => destruct (Z.compare_spec a b)
    | |- context [Pos.compare ?a ?b] => destruct (Pos.compare_spec a b)
    end;
  cbn [CompOpp]; try reflexivity; try discriminate; try lia.

(** * Properties *)

(** ** The segmenter on two documents *)

(** C2, on [doc_reused_sentence] with the default options: the only chunk
    spans offsets 7 to 18 of a document of 11 characters, so [end_char]
    lies past the end of the document and the characters from [start_char]
    on are only the last 4 of the 11 of the chunk text. *)
Theorem chunk_offsets_past_end :
  Mcp.chunkText doc_reused_sentence (Mcp.Options None None)
  = [Mcp.Chunk (lit "a b. X a b.") 7 18]
  /\ length doc_reused_sentence = 11
  /\ substring doc_reused_sentence 7 18 = lit "a b.".
Proof. vm_compute. repeat split. Qed.

(** C7, on [doc_two_paragraphs] with [targetTokens = 100]: the loop over
    the paragraphs yields two chunks of 60 tokens; 60 is not below
    [max(50, 100 / 5) = 50], yet the final loop merges the second chunk into
    the first, because it compares with [merge_threshold = 100], which is
    computed from [DEFAULT_CHUNK_TOKENS]. *)
Theorem merge_ignores_targetTokens :
  map (fun c => Mcp.estimateTokens (Mcp.text c))
      (Mcp.assembled doc_two_paragraphs 100 Mcp.DEFAULT_CHUNK_OVERLAP)
  = [60; 60]
  /\ Nat.max 50 (100 / 5) = 50
  /\ Mcp.merge_threshold = 100
  /\ map (fun c => (Mcp.start_char c, Mcp.end_char c))
         (Mcp.chunkText doc_two_paragraphs (Mcp.Options (Some 100) None))
     = [(0, 482)].
Proof. vm_compute. repeat split. Qed.

(** The threshold of the final loop is the same number for every option
    set: a chunk is merged into the previous one exactly when its estimate
    is below 100. *)
Lemma merge_step_threshold (merged : list Mcp.chunk) (c d : Mcp.chunk) :
  Mcp.merge_step (merged ++ [d]) c
  = if Mcp.estimateTokens (Mcp.text c) <? 100
    then merged ++ [Mcp.Chunk (Mcp.text d ++ [SP] ++ Mcp.text c)
                              (Mcp.start_char d) (Mcp.end_char c)]
    else (merged ++ [d]) ++ [c].
Proof.
  unfold Mcp.merge_step, Mcp.append_to_last.
  change Mcp.merge_threshold with 100.
  assert (Hn : Mcp.is_nil (merged ++ [d]) = false) by now destruct merged.
  rewrite Hn, rev_app_distr. cbn [rev app negb andb].
  rewrite andb_true_r, rev_involutive. reflexivity.
Qed.

(** ** The verifier *)

Lemma nonempty_true (A : Type) (l : list A) :
  Verifier.nonempty l = true <-> l <> [].
Proof. destruct l; simpl; split; intro H; congruence. Qed.

(** C1: for a bundle with a chunks array, for every answer, every option
    set and every state of the global expression, the report's [ok] is
    [false] exactly when [unknown_chunk_ids], [missing_snippet_matches] or
    [potential_hallucinations] is not empty, and [true] otherwise. *)
Theorem verify_ok_iff_no_finding (b : Ask.bundle) (answer : jsstring)
  (opts : Verifier.options) (lastIndex : nat) :
  let r := fst (Verifier.verifyResponseAgainstBundle
                  (Some b) answer opts lastIndex) in
  (Verifier.ok r = false <->
     Verifier.unknown_chunk_ids r <> []
     \/ Verifier.missing_snippet_matches r <> []
     \/ Verifier.potential_hallucinations r <> [])
  /\ (Verifier.ok r = true <->
        Verifier.unknown_chunk_ids r = []
        /\ Verifier.missing_snippet_matches r = []
        /\ Verifier.potential_hallucinations r = []).
Proof.
  unfold Verifier.verifyResponseAgainstBundle.
  destruct (Verifier.extractChunkIds answer lastIndex) as [cited l1].
  set (unknown := filter _ cited).
  destruct (Verifier.failOnUnknownChunkId opts && Verifier.nonempty unknown)
    eqn:Hfail.
  - apply andb_true_iff in Hfail as [_ Hne].
    apply nonempty_true in Hne. simpl.
    split; split; intro H; try reflexivity; try discriminate; auto.
    destruct H as [H _]. contradiction.
  - destruct (fold_left (Verifier.citation_step _ _ _ _) cited ([], []))
      as [matched_ missing].
    destruct (fold_left (Verifier.sentence_step opts) _ ([], l1))
      as [flagged l2].
    simpl.
    destruct unknown as [|u us], missing as [|m ms], flagged as [|f fs];
      simpl; split; split; intro H;
      try reflexivity; try discriminate; try tauto;
      try (left; discriminate);
      try (right; left; discriminate);
      try (right; right; discriminate);
      try (destruct H as [H1 [H2 H3]]; discriminate).
Qed.

(** C4, on [answer_cited_twice] with the default options and a fresh
    expression ([lastIndex = 0]): the second sentence contains the chunk
    identifier, and it is recorded in [potential_hallucinations].  The test
    of the first sentence leaves [lastIndex] at 20, so the test of the second
    sentence starts behind its identifier. *)
Theorem cited_sentence_flagged :
  Verifier.sentences_of answer_cited_twice Verifier.DEFAULT_OPTIONS
  = [lit "Per bundle-x-chunk-1."; lit "bundle-x-chunk-1 has notice."]
  /\ fst (Verifier.extractChunkIds (lit "bundle-x-chunk-1 has notice.") 0)
     = [lit "bundle-x-chunk-1"]
  /\ test Verifier.CHUNK_ID_REGEX (lit "Per bundle-x-chunk-1.") 0 = (true, 20)
  /\ test Verifier.CHUNK_ID_REGEX (lit "bundle-x-chunk-1 has notice.") 20
     = (false, 0)
  /\ map Verifier.sentence
       (Verifier.potential_hallucinations
          (fst (Verifier.verifyResponseAgainstBundle
                  (Some bundle_x) answer_cited_twice
                  Verifier.DEFAULT_OPTIONS 0)))
     = [lit "bundle-x-chunk-1 has notice."].
Proof. vm_compute. repeat split. Qed.

(** What one turn of step 5 does, whatever the state of the expression: the
    sentence is flagged exactly when the test from the current [lastIndex]
    fails and one of the keywords occurs in its lower-case form. *)
Lemma sentence_step_flags (opts : Verifier.options)
  (found : list Verifier.hallucination) (lastIndex : nat) (sent : jsstring) :
  fst (Verifier.sentence_step opts (found, lastIndex) sent) <> found <->
  fst (test Verifier.CHUNK_ID_REGEX sent lastIndex) = false
  /\ existsb (fun kw => includes (toLowerCase sent) kw)
             (Verifier.legalKeywords opts) = true.
Proof.
  unfold Verifier.sentence_step. cbn [fst snd].
  destruct (fst (test Verifier.CHUNK_ID_REGEX sent lastIndex)).
  - cbn [fst]. split; [intro H; now contradiction H | intros [H _]; discriminate].
  - destruct (find _ (Verifier.legalKeywords opts)) as [kw|] eqn:Hf; cbn [fst].
    + split.
      * intros _. split; [reflexivity|].
        apply find_some in Hf as [Hin Hkw].
        apply existsb_exists. now exists kw.
      * intros _ H. apply (f_equal (@length _)) in H.
        rewrite length_app in H. simpl in H. lia.
    + split; [intro H; now contradiction H|].
      intros [_ H]. apply existsb_exists in H as (kw & Hin & Hkw).
      now rewrite (find_none _ _ Hf kw Hin) in Hkw.
Qed.

Lemma filter_nothing (A : Type) (l : list A) :
  filter (fun _ => false) l = [].
Proof. induction l; simpl; auto. Qed.

(** C10: with an empty list of retrieved identifiers, whatever the bundle,
    the answer, the options and the state of the global expression, the
    report has [cites_retrieved = false] and [ok = false]; the loop over the
    retrieved chunks is not entered, so [matched_from_retrieved] is absent. *)
Theorem qa_empty_retrieved_not_ok (bundle : option Ask.bundle)
  (answer : jsstring) (opts : Verifier.options) (lastIndex : nat) :
  let r := fst (Verifier.verifyQAAnswer bundle answer [] opts lastIndex) in
  Verifier.cites_retrieved r = false
  /\ Verifier.ok (Verifier.base r) = false
  /\ Verifier.matched_from_retrieved r = None.
Proof.
  unfold Verifier.verifyQAAnswer.
  destruct (Verifier.verifyResponseAgainstBundle bundle answer opts lastIndex)
    as [baseResult l].
  cbv zeta. cbn [Verifier.distinct existsb length Nat.ltb Nat.leb andb].
  rewrite filter_nothing. cbn.
  rewrite andb_false_r. auto.
Qed.

(** The base checks can all pass on an answer whose report is still not
    [ok] when nothing was retrieved. *)
Example qa_base_passes_alone :
  Verifier.ok (fst (Verifier.verifyResponseAgainstBundle (Some bundle_x)
                      (lit "The term is two years. [bundle-x-chunk-1]")
                      Verifier.DEFAULT_OPTIONS 0)) = true
  /\ Verifier.ok (Verifier.base
       (fst (Verifier.verifyQAAnswer (Some bundle_x)
               (lit "The term is two years. [bundle-x-chunk-1]") []
               Verifier.DEFAULT_OPTIONS 0))) = false.
Proof. vm_compute. split; reflexivity. Qed.

(** ** Embedding requests *)

Lemma filter_all_false (A : Type) (f : A -> bool) (l : list A) :
  (forall x, In x l -> f x = false) -> filter f l = [].
Proof.
  induction l as [|x l IH]; simpl; intro H; auto.
  rewrite (H x (or_introl eq_refl)). apply IH. intros y Hy. apply H. now right.
Qed.

Lemma without_embedding_none (cs : list Ask.chunk) :
  forallb embedded cs = true -> Ask.without_embedding cs = [].
Proof.
  intro H. unfold Ask.without_embedding.
  apply filter_all_false. intros i _.
  destruct (nth_error cs i) as [c|] eqn:Hi; auto.
  apply nth_error_In in Hi.
  rewrite forallb_forall in H. specialize (H c Hi).
  unfold embedded in H. now destruct (Ask.embedding c).
Qed.

(** C9: on a bundle in which every chunk has an embedding,
    [ensureBundleEmbeddings] answers with the bundle as it was and leaves
    the world as it was: no request is issued and nothing is saved; a second
    call on the outcome of the first does what the first did. *)
Theorem ensure_embeddings_idempotent
  (endpoint : nat -> list jsstring -> result (list (option vec)))
  (sha1_12 : jsstring -> jsstring) (b : Ask.bundle) (w : Ask.world) :
  forallb embedded (Ask.chunks b) = true ->
  Ask.ensureBundleEmbeddings endpoint sha1_12 b w = (Ok tt, b, w)
  /\ Ask.requests (snd (Ask.ensureBundleEmbeddings endpoint sha1_12 b w))
     = Ask.requests w
  /\ (let '(_, b1, w1) := Ask.ensureBundleEmbeddings endpoint sha1_12 b w in
      Ask.ensureBundleEmbeddings endpoint sha1_12 b1 w1
      = Ask.ensureBundleEmbeddings endpoint sha1_12 b w).
Proof.
  intro H.
  assert (E : Ask.ensureBundleEmbeddings endpoint sha1_12 b w = (Ok tt, b, w)).
  { unfold Ask.ensureBundleEmbeddings.
    now rewrite (without_embedding_none _ H). }
  rewrite E. simpl. rewrite E. auto.
Qed.

(** C9 on [bundle_embedded], with the service down: the call returns and
    asks nothing. *)
Lemma ensure_embeddings_idempotent_witness :
  forallb embedded (Ask.chunks bundle_embedded) = true
  /\ Ask.ensureBundleEmbeddings endpoint_down (fun _ => []) bundle_embedded
       (Ask.World [] [])
     = (Ok tt, bundle_embedded, Ask.World [] []).
Proof.
  split; [reflexivity|].
  apply (ensure_embeddings_idempotent endpoint_down (fun _ => [])
           bundle_embedded (Ask.World [] [])).
  reflexivity.
Defined.

(** *** Retrying *)

Lemma withRetry_from_outcome (A : Type) (fn : nat -> result A)
  (remaining : nat) :
  forall attempt waits,
  exists n,
    n <= remaining
    /\ Embeddings.withRetry_from fn remaining attempt waits
       = (fn (attempt + n), waits ++ backoff attempt n)
    /\ (forall i, i < n -> exists e, fn (attempt + i) = Throw e)
    /\ (n < remaining -> exists a, fn (attempt + n) = Ok a).
Proof.
  induction remaining as [|r IH]; intros attempt waits;
    cbn [Embeddings.withRetry_from].
  - exists 0. rewrite Nat.add_0_r, app_nil_r.
    repeat split; try lia. now destruct (fn attempt).
  - destruct (fn attempt) as [a|err] eqn:Hfn.
    + exists 0. rewrite Nat.add_0_r, app_nil_r, Hfn.
      repeat split; try lia. intros _. now exists a.
    + destruct (IH (S attempt)
                   (waits ++ [Embeddings.RETRY_BACKOFF_MS * 2 ^ attempt]))
        as (n & Hle & Hrun & Hfail & Hok).
      exists (S n). rewrite Hrun.
      replace (attempt + S n) with (S attempt + n) by lia.
      repeat split; try lia.
      * unfold backoff. simpl. now rewrite <- app_assoc.
      * intros i Hi. destruct i as [|i].
        -- rewrite Nat.add_0_r. now exists err.
        -- replace (attempt + S i) with (S attempt + i) by lia.
           apply Hfail. lia.
      * intros Hn. apply Hok. lia.
Qed.

Lemma batch_starts_nonempty (n : nat) :
  exists i rest, Ask.batch_starts (S n) = i :: rest.
Proof.
  unfold Ask.batch_starts.
  assert (H : 1 <= (S n + (Ask.BATCH - 1)) / Ask.BATCH).
  { apply Nat.div_le_lower_bound; unfold Ask.BATCH; simpl; lia. }
  destruct ((S n + (Ask.BATCH - 1)) / Ask.BATCH) as [|m]; [lia|].
  simpl. eexists. eexists. reflexivity.
Qed.

(** *** One request for each batch *)

Section Requests.

Variable endpoint : nat -> list jsstring -> result (list (option vec)).
Variable sha1_12 : jsstring -> jsstring.

Lemma update_texts (f : Ask.chunk -> Ask.chunk) (cs : list Ask.chunk) :
  (forall c, Ask.text (f c) = Ask.text c) ->
  forall i, map Ask.text (Ask.update i f cs) = map Ask.text cs.
Proof.
  intro Hf. induction cs as [|c cs IH]; intros [|i]; simpl; auto.
  - now rewrite Hf.
  - now rewrite IH.
Qed.

Lemma attach_texts (embs : list (option vec)) (batch : list nat)
  (cs : list Ask.chunk) :
  map Ask.text (Ask.attach sha1_12 embs batch cs) = map Ask.text cs.
Proof.
  unfold Ask.attach.
  generalize (combine (seq 0 (length batch)) batch). intro l.
  revert cs. induction l as [|[j idx] l IH]; intro cs; simpl; auto.
  rewrite IH. now apply update_texts.
Qed.

Lemma text_at_texts (cs cs' : list Ask.chunk) (i : nat) :
  map Ask.text cs = map Ask.text cs' -> Ask.text_at cs i = Ask.text_at cs' i.
Proof.
  intro H. unfold Ask.text_at.
  pose proof (nth_error_map Ask.text i cs) as H1.
  pose proof (nth_error_map Ask.text i cs') as H2.
  rewrite H, H2 in H1.
  destruct (nth_error cs i), (nth_error cs' i); simpl in H1;
    congruence.
Qed.

Lemma batch_texts_texts (cs cs' : list Ask.chunk) (without : list nat)
  (i : nat) :
  map Ask.text cs = map Ask.text cs' ->
  batch_texts cs without i = batch_texts cs' without i.
Proof.
  intro H. unfold batch_texts. apply map_ext. intro j.
  now apply text_at_texts.
Qed.

(** The outer loop issues the requests of its batches in order, one each,
    and stops at the first one that throws. *)
Lemma embed_batches_trace (without : list nat) (starts : list nat) :
  forall b w r b' w',
  Ask.embed_batches endpoint sha1_12 starts without b w = (r, b', w') ->
  exists n,
    n <= length starts
    /\ Ask.requests w'
       = Ask.requests w
         ++ firstn n (map (batch_texts (Ask.chunks b) without) starts)
    /\ Ask.saved w' = Ask.saved w
    /\ map Ask.text (Ask.chunks b') = map Ask.text (Ask.chunks b)
    /\ match r with
       | Ok _ => n = length starts
       | Throw e =>
           0 < n
           /\ endpoint (length (Ask.requests w) + (n - 1))
                (nth (n - 1)
                     (map (batch_texts (Ask.chunks b) without) starts) [])
              = Throw e
       end
    /\ (forall j,
          j < match r with Ok _ => n | Throw _ => n - 1 end ->
          exists embs,
            endpoint (length (Ask.requests w) + j)
              (nth j (map (batch_texts (Ask.chunks b) without) starts) [])
            = Ok embs).
Proof.
  induction starts as [|i rest IH]; intros b w r b' w' H;
    cbn [Ask.embed_batches] in H.
  - injection H as <- <- <-. exists 0. simpl. rewrite app_nil_r.
    repeat split; auto. intros j Hj. lia.
  - unfold Ask.callOpenAIEmbeddings in H.
    fold (batch_texts (Ask.chunks b) without i) in H.
    destruct (endpoint (length (Ask.requests w))
                       (batch_texts (Ask.chunks b) without i))
      as [embs|e] eqn:He.
    + apply IH in H as (n & Hn & Hreq & Hsaved & Htexts & Hr & Hans).
      cbn [Ask.requests Ask.saved Ask.chunks] in *.
      rewrite attach_texts in Htexts.
      assert (Hall : map (batch_texts
                            (Ask.attach sha1_12 embs
                               (firstn Ask.BATCH (skipn i without))
                               (Ask.chunks b)) without) rest
                     = map (batch_texts (Ask.chunks b) without) rest).
      { apply map_ext. intro j. apply batch_texts_texts, attach_texts. }
      rewrite Hall in *.
      exists (S n). cbn [length map firstn].
      split; [lia|]. split; [now rewrite Hreq, <- app_assoc|].
      split; [exact Hsaved|]. split; [exact Htexts|].
      rewrite length_app in Hr, Hans. cbn [length] in Hr, Hans.
      assert (Hbefore : forall j,
                j < S match r with Ok _ => n | Throw _ => n - 1 end ->
                exists embs',
                  endpoint (length (Ask.requests w) + j)
                    (nth j (batch_texts (Ask.chunks b) without i
                            :: map (batch_texts (Ask.chunks b) without) rest)
                         [])
                  = Ok embs').
      { intros [|j] Hj.
        - exists embs. now rewrite Nat.add_0_r.
        - cbn [nth].
          replace (length (Ask.requests w) + S j)
            with (length (Ask.requests w) + 1 + j) by lia.
          apply Hans. lia. }
      destruct r as [u|e].
      * split; [lia|]. exact Hbefore.
      * destruct Hr as [Hpos Hthrow]. split.
        -- split; [lia|].
           destruct n as [|n]; [lia|].
           replace (S (S n) - 1) with (S n) by lia.
           replace (S n - 1) with n in Hthrow by lia.
           cbn [nth].
           replace (length (Ask.requests w) + S n)
             with (length (Ask.requests w) + 1 + n) by lia.
           exact Hthrow.
        -- intros j Hj. apply Hbefore. lia.
    + injection H as <- <- <-. exists 1.
      replace (1 - 1) with 0 by lia.
      cbn [length map firstn nth Ask.requests Ask.saved].
      rewrite Nat.add_0_r. repeat split; auto; try lia.
Qed.

(** [ensureBundleEmbeddings] issues the requests of [batches] in order, one
    for each batch; it returns after the last one and saves the bundle, or
    throws the error of the first request that throws, right after it,
    without saving. *)
Lemma ensure_trace (b : Ask.bundle) (w : Ask.world) :
  forall r b' w',
  Ask.ensureBundleEmbeddings endpoint sha1_12 b w = (r, b', w') ->
  exists n,
    n <= length (batches b)
    /\ Ask.requests w' = Ask.requests w ++ firstn n (batches b)
    /\ match r with
       | Ok _ =>
           n = length (batches b)
           /\ Ask.saved w'
              = Ask.saved w
                ++ (if Mcp.is_nil (batches b) then [] else [b'])
       | Throw e =>
           0 < n
           /\ endpoint (length (Ask.requests w) + (n - 1))
                       (nth (n - 1) (batches b) []) = Throw e
           /\ Ask.saved w' = Ask.saved w
       end
    /\ (forall j,
          j < match r with Ok _ => n | Throw _ => n - 1 end ->
          exists embs,
            endpoint (length (Ask.requests w) + j) (nth j (batches b) [])
            = Ok embs).
Proof.
  intros r b' w' H. unfold Ask.ensureBundleEmbeddings in H.
  unfold batches.
  destruct (Ask.without_embedding (Ask.chunks b)) as [|i0 rest0] eqn:Hw.
  - injection H as <- <- <-. exists 0. simpl. rewrite !app_nil_r.
    repeat split; auto. intros j Hj. lia.
  - set (without := i0 :: rest0) in *.
    destruct (Ask.embed_batches endpoint sha1_12
                (Ask.batch_starts (length without)) without b w)
      as [[r1 b1] w1] eqn:He.
    apply embed_batches_trace in He
      as (n & Hn & Hreq & Hsaved & _ & Hr & Hans).
    rewrite length_map.
    exists n. split; [exact Hn|].
    destruct r1 as [u|e]; injection H as <- <- <-.
    + cbn [Ask.saveBundle Ask.requests Ask.saved].
      split; [exact Hreq|]. split; [|exact Hans]. split; [exact Hr|].
      rewrite Hsaved.
      destruct (batch_starts_nonempty (length rest0)) as (s0 & srest & Hs).
      subst without. cbn [length]. now rewrite Hs.
    + split; [exact Hreq|]. split; [|exact Hans].
      destruct Hr as [Hpos Hthrow]. auto.
Qed.

End Requests.

(** C8, as the code has it.  [ensureBundleEmbeddings] does not retry: it
    issues the requests of [batches] in order, at most one for each batch.
    The call returns exactly when every one of these requests is answered:
    then every batch was requested once and the bundle is saved.  It throws
    exactly when one of them throws: then the requests before the first
    one that throws were answered, the call throws the error of that one
    right after it and saves nothing, and the batches behind it are not
    requested.
    [withRetry], which [ensureBundleEmbeddings] does not use, calls its
    function at most [retries + 1] times: it returns the outcome of call
    [n] for some [n <= retries], every earlier call threw, call [n]
    succeeded if [n < retries], and the wait after the failed call [i] was
    [500 * 2 ^ i] milliseconds. *)
Theorem ensure_requests_once_and_withRetry_bounded
  (endpoint : nat -> list jsstring -> result (list (option vec)))
  (sha1_12 : jsstring -> jsstring) (b : Ask.bundle) (w : Ask.world)
  (A : Type) (fn : nat -> result A) (retries : nat) :
  (let '(r, b', w') := Ask.ensureBundleEmbeddings endpoint sha1_12 b w in
   exists n,
     n <= length (batches b)
     /\ Ask.requests w' = Ask.requests w ++ firstn n (batches b)
     /\ match r with
        | Ok _ =>
            n = length (batches b)
            /\ (forall j, j < length (batches b) ->
                  exists embs,
                    endpoint (length (Ask.requests w) + j)
                             (nth j (batches b) []) = Ok embs)
            /\ Ask.saved w'
               = Ask.saved w
                 ++ (if Mcp.is_nil (batches b) then [] else [b'])
        | Throw e =>
            0 < n
            /\ (forall j, j < n - 1 ->
                  exists embs,
                    endpoint (length (Ask.requests w) + j)
                             (nth j (batches b) []) = Ok embs)
            /\ endpoint (length (Ask.requests w) + (n - 1))
                        (nth (n - 1) (batches b) []) = Throw e
            /\ Ask.saved w' = Ask.saved w
        end)
  /\ exists n,
       n <= retries
       /\ Embeddings.withRetry fn retries = (fn n, backoff 0 n)
       /\ (forall i, i < n -> exists e', fn i = Throw e')
       /\ (n < retries -> exists a, fn n = Ok a).
Proof.
  split.
  - destruct (Ask.ensureBundleEmbeddings endpoint sha1_12 b w)
      as [[r b'] w'] eqn:H.
    apply (ensure_trace endpoint sha1_12 b w) in H
      as (n & Hn & Hreq & Hr & Hans).
    exists n. split; [exact Hn|]. split; [exact Hreq|].
    destruct r as [u|e].
    + destruct Hr as [-> Hsaved]. auto.
    + destruct Hr as (Hpos & Hthrow & Hsaved). auto.
  - destruct (withRetry_from_outcome fn retries 0 [])
      as (n & H1 & H2 & H3 & H4).
    exists n. simpl in *. repeat split; auto.
Qed.

(** C8 as stated fails: one rejected request makes [ensureBundleEmbeddings]
    throw at once, although the same request would have been answered on a
    second attempt; and [withRetry] with the default 3 retries reaches a
    fourth call. *)
Lemma ensure_does_not_retry :
  Ask.ensureBundleEmbeddings endpoint_flaky (fun _ => []) bundle_x
    (Ask.World [] [])
  = (Throw (Error "503"), bundle_x,
     Ask.World [[lit "The term is two years."]] [])
  /\ endpoint_flaky 1 [lit "The term is two years."] = Ok [Some [1%float]]
  /\ Embeddings.withRetry fails_thrice Embeddings.MAX_RETRIES
     = (Ok 3, [500; 1000; 2000]).
Proof. repeat split. Qed.

(** In a batch that is answered, an entry that lacks its vector leaves its
    chunk without embedding and the other chunk of the batch gets its
    vector. *)
Example partial_answer_attached :
  map embedded
      (Ask.chunks
         (snd (fst (Ask.ensureBundleEmbeddings
                      (fun _ _ => Ok [None; Some [1%float]]) fingerprint
                      (Ask.Bundle (lit "bundle-w")
                                  [chunk_unembedded; chunk_unembedded])
                      (Ask.World [] [])))))
  = [false; true].
Proof. reflexivity. Qed.

(** ** Doubles *)

Section Doubles.

Local Open Scope Z_scope.

(** The number of binary digits of a mantissa. *)
Lemma digits2_pos_bounds (m : positive) :
  2 ^ (Zpos (digits2_pos m) - 1) <= Zpos m < 2 ^ Zpos (digits2_pos m).
Proof.
  induction m as [m IH|m IH|]; cbn [digits2_pos].
  - rewrite Pos2Z.inj_succ.
    replace (Z.succ (Zpos (digits2_pos m)) - 1)
      with (Z.succ (Zpos (digits2_pos m) - 1)) by lia.
    rewrite !Z.pow_succ_r by lia. lia.
  - rewrite Pos2Z.inj_succ.
    replace (Z.succ (Zpos (digits2_pos m)) - 1)
      with (Z.succ (Zpos (digits2_pos m) - 1)) by lia.
    rewrite !Z.pow_succ_r by lia. lia.
  - cbn. lia.
Qed.

Lemma shr_1_digits (mrs : shr_record) (m : positive) :
  shr_m mrs = Zpos m -> 1 < Zpos (digits2_pos m) ->
  exists m',
    shr_m (shr_1 mrs) = Zpos m'
    /\ Zpos (digits2_pos m') = Zpos (digits2_pos m) - 1.
Proof.
  destruct mrs as [n r s]. cbn [shr_m]. intros -> H.
  destruct m as [p|p|]; cbn [shr_1 shr_m digits2_pos] in *.
  - exists p. split; [reflexivity | lia].
  - exists p. split; [reflexivity | lia].
  - lia.
Qed.

Lemma shr_iter_digits (k : positive) :
  forall (mrs : shr_record) (m : positive),
  shr_m mrs = Zpos m -> Zpos k < Zpos (digits2_pos m) ->
  exists m',
    shr_m (iter_pos shr_1 k mrs) = Zpos m'
    /\ Zpos (digits2_pos m') = Zpos (digits2_pos m) - Zpos k.
Proof.
  induction k as [k IH|k IH|]; intros mrs m Hm Hk; cbn [iter_pos].
  - destruct (@shr_1_digits mrs m Hm) as (m1 & H1 & D1); [lia|].
    destruct (IH _ _ H1) as (m2 & H2 & D2); [lia|].
    destruct (IH _ _ H2) as (m3 & H3 & D3); [lia|].
    exists m3. split; [exact H3 | lia].
  - destruct (IH _ _ Hm) as (m2 & H2 & D2); [lia|].
    destruct (IH _ _ H2) as (m3 & H3 & D3); [lia|].
    exists m3. split; [exact H3 | lia].
  - now apply shr_1_digits.
Qed.

Lemma shr_fexp_positive (m : positive) (e : Z) (l : location) :
  -1074 <= e ->
  exists mrs' e' m',
    shr_fexp prec emax (Zpos m) e l = (mrs', e')
    /\ shr_m mrs' = Zpos m' /\ -1074 <= e'.
Proof.
  intro He. unfold shr_fexp, shr, fexp, SpecFloat.emin, prec, emax.
  cbn [Zdigits2].
  assert (Hrec : shr_m (shr_record_of_loc (Zpos m) l) = Zpos m)
    by (destruct l as [|[| |]]; reflexivity).
  destruct (Z.max (Zpos (digits2_pos m) + e - 53) (3 - 1024 - 53) - e)
    as [|k|k] eqn:E.
  - now exists (shr_record_of_loc (Zpos m) l), e, m.
  - destruct (@shr_iter_digits k _ m Hrec) as (m' & H1 & _); [lia|].
    exists (iter_pos shr_1 k (shr_record_of_loc (Zpos m) l)), (e + Zpos k), m'.
    repeat split; [exact H1 | lia].
  - now exists (shr_record_of_loc (Zpos m) l), e, m.
Qed.

Lemma round_nearest_even_positive (m : positive) (l : location) :
  exists m', round_nearest_even (Zpos m) l = Zpos m'.
Proof.
  destruct l as [|[| |]]; cbn [round_nearest_even];
    try destruct (Z.even (Zpos m)); eexists; reflexivity.
Qed.

(** Rounding a mantissa that is not zero, at an exponent that is not
    below the least one, gives a number of the same sign that is not
    zero. *)
Lemma binary_round_aux_sign (s : bool) (m : positive) (e : Z)
  (l : location) :
  -1074 <= e ->
  (exists m' e',
     binary_round_aux prec emax s (Zpos m) e l = S754_finite s m' e')
  \/ binary_round_aux prec emax s (Zpos m) e l = S754_infinity s.
Proof.
  intro He. unfold binary_round_aux.
  destruct (shr_fexp_positive m l He) as (mrs1 & e1 & m1 & -> & Hm1 & He1).
  rewrite Hm1.
  destruct (round_nearest_even_positive m1 (loc_of_shr_record mrs1))
    as (m2 & ->).
  destruct (shr_fexp_positive m2 loc_Exact He1)
    as (mrs3 & e3 & m3 & -> & -> & He3).
  destruct (e3 <=? emax - prec); [left; now exists m3, e3 | now right].
Qed.

Lemma binary_round_sign (s : bool) (m : positive) (e : Z) :
  -1074 <= e ->
  (exists m' e', binary_round prec emax s m e = S754_finite s m' e')
  \/ binary_round prec emax s m e = S754_infinity s.
Proof.
  intro He. unfold binary_round, shl_align.
  destruct (fexp prec emax (Zpos (digits2_pos m) + e) - e) as [|k|k] eqn:E;
    apply binary_round_aux_sign; try exact He.
  unfold fexp, SpecFloat.emin, prec, emax in *. lia.
Qed.

Lemma binary_round_positive (m : positive) (e : Z) :
  -1074 <= e ->
  SFltb (S754_zero false) (binary_round prec emax false m e) = true.
Proof.
  intro He.
  now destruct (binary_round_sign false m He) as [(m' & e' & ->) | ->].
Qed.

Lemma binary_round_negative (m : positive) (e : Z) :
  -1074 <= e ->
  SFltb (S754_zero false) (binary_round prec emax true m e) = false.
Proof.
  intro He.
  now destruct (binary_round_sign true m He) as [(m' & e' & ->) | ->].
Qed.

Lemma iter_xO_value (m d : positive) :
  Zpos (Pos.iter xO m d) = Zpos m * 2 ^ Zpos d.
Proof.
  induction d as [|d IH] using Pos.peano_ind.
  - cbn. lia.
  - rewrite Pos.iter_succ, Pos2Z.inj_succ, Z.pow_succ_r by lia.
    rewrite Pos2Z.inj_xO, IH. lia.
Qed.

Lemma shl_align_value (m : positive) (e ez : Z) :
  ez <= e -> Zpos (fst (shl_align m e ez)) = Zpos m * 2 ^ (e - ez).
Proof.
  intro H. unfold shl_align. destruct (ez - e) as [|d|d] eqn:E; cbn [fst].
  - replace (e - ez) with 0 by lia. cbn. lia.
  - lia.
  - rewrite iter_xO_value. f_equal. f_equal. lia.
Qed.

(** A mantissa in canonical form has at most 53 digits, and exactly 53
    above the least exponent. *)
Lemma bounded_digits (m : positive) (e : Z) :
  bounded prec emax m e = true ->
  -1074 <= e
  /\ Zpos m < 2 ^ 53
  /\ (-1074 < e -> 2 ^ 52 <= Zpos m).
Proof.
  unfold bounded, canonical_mantissa, fexp, SpecFloat.emin, prec, emax.
  intro H. apply andb_true_iff in H as [H _]. apply Z.eqb_eq in H.
  pose proof (digits2_pos_bounds m) as [Hlo Hhi].
  split; [lia|]. split.
  - apply Z.lt_le_trans with (1 := Hhi).
    apply Z.pow_le_mono_r; lia.
  - intro He.
    replace 52 with (Zpos (digits2_pos m) - 1) by lia. exact Hlo.
Qed.

(** On mantissas in canonical form, comparing exponents and then
    mantissas compares the values. *)
Lemma aligned_compare (ma mb : positive) (ea eb : Z) :
  bounded prec emax ma ea = true -> bounded prec emax mb eb = true ->
  match ea ?= eb with
  | Lt => Lt
  | Gt => Gt
  | Eq => Pos.compare_cont Eq ma mb
  end
  = (Zpos (fst (shl_align ma ea (Z.min ea eb)))
     ?= Zpos (fst (shl_align mb eb (Z.min ea eb)))).
Proof.
  intros Ha Hb.
  destruct (bounded_digits _ _ Ha) as (Hea & Ha53 & Ha52).
  destruct (bounded_digits _ _ Hb) as (Heb & Hb53 & Hb52).
  rewrite !shl_align_value by lia.
  assert (H53 : 2 ^ 53 = 2 * 2 ^ 52) by reflexivity.
  destruct (Z.compare_spec ea eb) as [E|E|E].
  - subst eb. rewrite Z.min_id, Z.sub_diag. cbn [Z.pow].
    rewrite !Z.mul_1_r. reflexivity.
  - rewrite Z.min_l, Z.sub_diag by lia. cbn [Z.pow]. rewrite Z.mul_1_r.
    symmetry. apply Z.compare_lt_iff.
    assert (2 ^ 1 <= 2 ^ (eb - ea)) by (apply Z.pow_le_mono_r; lia).
    specialize (Hb52 ltac:(lia)). change (2 ^ 1) with 2 in *. nia.
  - rewrite Z.min_r, Z.sub_diag by lia. cbn [Z.pow]. rewrite Z.mul_1_r.
    symmetry. apply Z.compare_gt_iff.
    assert (2 ^ 1 <= 2 ^ (ea - eb)) by (apply Z.pow_le_mono_r; lia).
    specialize (Ha52 ltac:(lia)). change (2 ^ 1) with 2 in *. nia.
Qed.

(** The difference of two doubles, when it is no NaN, is above 0 exactly
    when the second is below the first. *)
Lemma SFsub_positive (a b : spec_float) :
  valid_binary a = true -> valid_binary b = true ->
  SFsub prec emax a b <> S754_nan ->
  SFltb (S754_zero false) (SFsub prec emax a b) = SFltb b a.
Proof.
  destruct a as [sa|sa| |sa ma ea], b as [sb|sb| |sb mb eb];
    cbn [valid_binary]; intros Ha Hb Hn;
    try (repeat match goal with s : bool |- _ => destruct s end;
         cbn in Hn |- *; first [reflexivity | congruence]).
  unfold SFsub in *.
  pose proof (aligned_compare _ _ _ _ Hb Ha) as Hcmp.
  rewrite (Z.min_comm eb ea) in Hcmp.
  destruct (bounded_digits _ _ Ha) as (Hea & _).
  destruct (bounded_digits _ _ Hb) as (Heb & _).
  set (A := Zpos (fst (shl_align ma ea (Z.min ea eb)))) in *.
  set (B := Zpos (fst (shl_align mb eb (Z.min ea eb)))) in *.
  assert (HA : 0 < A) by (unfold A; lia).
  assert (HB : 0 < B) by (unfold B; lia).
  assert (Hlt : SFltb (S754_finite sb mb eb) (S754_finite sa ma ea)
                = (0 <? cond_Zopp sa A - cond_Zopp sb B)).
  { unfold SFltb, SFcompare.
    destruct sa, sb; cbn [cond_Zopp].
    - destruct (eb ?= ea); cbn [CompOpp] in *;
        [|destruct (Z.compare_spec B A), (Z.ltb_spec 0 (- A - - B));
          try reflexivity; try discriminate; lia ..].
      destruct (Pos.compare_cont Eq mb ma); cbn [CompOpp];
        destruct (Z.compare_spec B A), (Z.ltb_spec 0 (- A - - B));
        try reflexivity; try discriminate; lia.
    - destruct (Z.ltb_spec 0 (- A - B)); [lia | reflexivity].
    - destruct (Z.ltb_spec 0 (A - - B)); [reflexivity | lia].
    - rewrite Hcmp.
      destruct (Z.compare_spec B A), (Z.ltb_spec 0 (A - B));
        try reflexivity; lia. }
  rewrite Hlt. unfold binary_normalize.
  destruct (cond_Zopp sa A - cond_Zopp sb B) as [|p|p].
  - reflexivity.
  - apply binary_round_positive. lia.
  - apply binary_round_negative. lia.
Qed.



(** The order of doubles: a key whose lexicographic order is the order
    that [SFcompare] computes. *)
Lemma SFcompare_key (x y : spec_float) :
  x <> S754_nan -> y <> S754_nan ->
  let key := fun f =>
    match f with
    | S754_zero _ | S754_nan => (0, 0, 0)
    | S754_infinity false => (2, 0, 0)
    | S754_infinity true => (-2, 0, 0)
    | S754_finite false m e => (1, e, Zpos m)
    | S754_finite true m e => (-1, - e, Zneg m)
    end in
  let lex := fun k k' : Z * Z * Z =>
    match fst (fst k) ?= fst (fst k') with
    | Eq => match snd (fst k) ?= snd (fst k') with
            | Eq => snd k ?= snd k'
            | r => r
            end
    | r => r
    end in
  SFcompare x y = Some (lex (key x) (key y)).
Proof.
  intros Hx Hy. cbv zeta.
  destruct x as [sx|[|]| |[|] mx ex], y as [sy|[|]| |[|] my ey];
    try congruence; try reflexivity; cbn [SFcompare fst snd].
  rewrite Z.compare_opp. cbn [Z.compare].
  rewrite (Z.compare_antisym ex ey). now destruct (ex ?= ey).
Qed.


Lemma SFltb_asym (x y : spec_float) :
  SFltb x y = true -> SFltb y x = false.
Proof.
  unfold SFltb.
  destruct (SFcompare x y) as [c|] eqn:Hxy; [|discriminate].
  assert (Hx : x <> S754_nan) by (intros ->; discriminate).
  assert (Hy : y <> S754_nan)
    by (intros ->; destruct x as [| | |]; discriminate).
  revert Hxy. rewrite !SFcompare_key by assumption.
  destruct x as [sx|[|]| |[|] mx ex]; try congruence;
    destruct y as [sy|[|]| |[|] my ey]; try congruence;
    cbn [fst snd]; intros Hxy H; injection Hxy as <-; compare_cases.
Qed.

Lemma SFltb_neg_trans (x y z : spec_float) :
  y <> S754_nan ->
  SFltb x y = false -> SFltb y z = false -> SFltb x z = false.
Proof.
  intro Hy. unfold SFltb.
  destruct (SFcompare x z) as [c|] eqn:Hxz; [|reflexivity].
  assert (Hx : x <> S754_nan) by (intros ->; discriminate).
  assert (Hz : z <> S754_nan)
    by (intros ->; destruct x as [| | |]; discriminate).
  revert Hxz. rewrite !SFcompare_key by assumption.
  destruct x as [sx|[|]| |[|] mx ex]; try congruence;
    destruct y as [sy|[|]| |[|] my ey]; try congruence;
    destruct z as [sz|[|]| |[|] mz ez]; try congruence;
    cbn [fst snd]; intros Hxz H1 H2; injection Hxz as <-; compare_cases.
Qed.



End Doubles.

(** The same facts on the doubles of the machine. *)
Lemma is_nan_spec (x : float) : is_nan x = false <-> Prim2SF x <> S754_nan.
Proof.
  unfold is_nan. rewrite FloatAxioms.eqb_spec. unfold SFeqb.
  destruct (Prim2SF x) as [s|s| |s m e] eqn:E; cbn [SFcompare].
  - split; [discriminate | reflexivity].
  - split; [discriminate | now destruct s].
  - split; [discriminate | congruence].
  - split; [discriminate|]. intros _.
    destruct s; rewrite Z.compare_refl, Pos.compare_cont_refl; reflexivity.
Qed.

Lemma float_sub_not_nan (x y : float) :
  is_nan (x - y) = false -> is_nan x = false /\ is_nan y = false.
Proof.
  rewrite !is_nan_spec, sub_spec. unfold SF64sub.
  destruct (Prim2SF x) as [| | |], (Prim2SF y) as [| | |]; cbn [SFsub];
    intro H; split; congruence.
Qed.

Lemma float_sub_positive (x y : float) :
  is_nan (y - x) = false -> (0 <? y - x)%float = (x <? y)%float.
Proof.
  intro H. apply is_nan_spec in H. rewrite sub_spec in H.
  rewrite !FloatAxioms.ltb_spec, sub_spec.
  change (Prim2SF 0) with (S754_zero false).
  apply SFsub_positive; [apply Prim2SF_valid | apply Prim2SF_valid | exact H].
Qed.

Lemma float_lt_asym (x y : float) :
  (x <? y)%float = true -> (y <? x)%float = false.
Proof. rewrite !FloatAxioms.ltb_spec. apply SFltb_asym. Qed.

Lemma float_not_lt_trans (x y z : float) :
  is_nan y = false ->
  (x <? y)%float = false -> (y <? z)%float = false -> (x <? z)%float = false.
Proof.
  rewrite is_nan_spec, !FloatAxioms.ltb_spec. apply SFltb_neg_trans.
Qed.






(** ** Cosine similarity *)

Lemma nth_tl (A : Type) (i : nat) (l : list A) (d : A) :
  nth (S i) l d = nth i (tl l) d.
Proof. destruct l; destruct i; reflexivity. Qed.

Lemma ask_loop_shift (a b : vec) (n : nat) :
  forall k s,
  fold_left (Ask.cosine_body a b) (seq (S k) n) s
  = fold_left (Ask.cosine_body (tl a) (tl b)) (seq k n) s.
Proof.
  induction n as [|n IH]; intros k s; [reflexivity|].
  cbn [seq fold_left]. rewrite IH. f_equal.
  unfold Ask.cosine_body. now rewrite !nth_tl.
Qed.

(** What the loop of [ask.js] accumulates: the sums over the positions of
    [a], with every entry passed through [|| 0] and with [b] cut at the
    length of [a] or continued with zeros. *)
Lemma ask_loop_sums (a : vec) :
  forall b s,
  fold_left (Ask.cosine_body a b) (seq 0 (length a)) s
  = Ask.Sums
      (sum_products (Ask.dot s) (map Ask.or_zero a)
                    (map Ask.or_zero (read_to (length a) b)))
      (sum_products (Ask.na s) (map Ask.or_zero a) (map Ask.or_zero a))
      (sum_products (Ask.nb s) (map Ask.or_zero (read_to (length a) b))
                    (map Ask.or_zero (read_to (length a) b))).
Proof.
  induction a as [|x a IH]; intros b s.
  - now destruct s.
  - cbn [length seq fold_left]. rewrite ask_loop_shift. cbn [tl].
    rewrite IH. unfold Ask.cosine_body.
    destruct b as [|y b]; reflexivity.
Qed.

Lemma ask_cosine_value (a b : vec) :
  Ask.cosineSimilarity a b
  = cosine_guarded (map Ask.or_zero a)
                   (map Ask.or_zero (read_to (length a) b)).
Proof.
  unfold Ask.cosineSimilarity, Ask.cosine_sums. cbv zeta.
  rewrite ask_loop_sums. reflexivity.
Qed.

Lemma embeddings_loop_shift (a b : vec) (n : nat) :
  forall k s,
  fold_left (Embeddings.cosine_body a b) (seq (S k) n) s
  = fold_left (Embeddings.cosine_body (tl a) (tl b)) (seq k n) s.
Proof.
  induction n as [|n IH]; intros k s; [reflexivity|].
  cbn [seq fold_left]. rewrite IH. f_equal.
  unfold Embeddings.cosine_body. now rewrite !nth_tl.
Qed.

(** What the loop of [embeddings.js] accumulates on two vectors of one
    length. *)
Lemma embeddings_loop_sums (a : vec) :
  forall b s, length a = length b ->
  fold_left (Embeddings.cosine_body a b) (seq 0 (length a)) s
  = Embeddings.Sums (sum_products (Embeddings.dot s) a b)
                    (sum_products (Embeddings.norma s) a a)
                    (sum_products (Embeddings.normb s) b b).
Proof.
  induction a as [|x a IH]; intros [|y b] s Hlen; try discriminate.
  - now destruct s.
  - cbn [length seq fold_left]. rewrite embeddings_loop_shift. cbn [tl].
    rewrite IH by (injection Hlen; auto). reflexivity.
Qed.

Lemma embeddings_cosine_value (a b : vec) :
  Embeddings.cosineSimilarity a b
  = cosine_guarded (firstn (Nat.min (length a) (length b)) a)
                   (firstn (Nat.min (length a) (length b)) b).
Proof.
  unfold Embeddings.cosineSimilarity. cbv zeta.
  assert (Ha : (if length a =? length b then a
                else firstn (Nat.min (length a) (length b)) a)
               = firstn (Nat.min (length a) (length b)) a).
  { destruct (Nat.eqb_spec (length a) (length b)) as [E|E]; auto.
    rewrite <- E, Nat.min_id. now rewrite firstn_all. }
  assert (Hb : (if length a =? length b then b
                else firstn (Nat.min (length a) (length b)) b)
               = firstn (Nat.min (length a) (length b)) b).
  { destruct (Nat.eqb_spec (length a) (length b)) as [E|E]; auto.
    rewrite E, Nat.min_id. now rewrite firstn_all. }
  rewrite Ha, Hb.
  rewrite embeddings_loop_sums by (rewrite !length_firstn; lia).
  reflexivity.
Qed.

Lemma read_to_all (b : vec) : read_to (length b) b = b.
Proof. induction b as [|y b IH]; simpl; [reflexivity | now rewrite IH]. Qed.










(** The sums, the square roots and the quotient are rounded: two vectors
    that point the same way can score below or above 1, and squares that
    underflow to 0 give the score 0 to a vector that is not zero. *)
Example cosine_is_rounded :
  Ask.cosineSimilarity [1%float; 1%float] [1%float; 1%float]
  = 0x1.ffffffffffffep-1%float
  /\ Ask.cosineSimilarity [1%float; 1%float; 1%float]
                          [1%float; 1%float; 1%float]
     = 0x1.0000000000001p+0%float
  /\ Embeddings.cosineSimilarity [1%float; 1%float; 1%float]
                                 [1%float; 1%float; 1%float]
     = 0x1.0000000000001p+0%float
  /\ Ask.cosineSimilarity [1%float; 1%float] [3%float; 3%float] = 1%float
  /\ Ask.cosineSimilarity [0x1p-600%float] [0x1p-600%float] = 0%float.
Proof. repeat split. Qed.

(** ** Ranking *)

Lemma insert_In (A : Type) (cmp : A -> A -> float) (x z : A) (l : list A) :
  In z (Ask.insert cmp x l) <-> z = x \/ In z l.
Proof.
  induction l as [|y l IH]; simpl.
  - intuition.
  - destruct (0 <? cmp x y)%float; simpl; rewrite ?IH; intuition.
Qed.

Lemma sort_In (A : Type) (cmp : A -> A -> float) (z : A) (l : list A) :
  In z (Ask.sort cmp l) <-> In z l.
Proof.
  induction l as [|x l IH]; simpl; [tauto|].
  rewrite insert_In, IH. intuition.
Qed.

Lemma firstn_sorted (A : Type) (R : A -> A -> Prop) (l : list A) :
  StronglySorted R l -> forall k, StronglySorted R (firstn k l).
Proof.
  induction 1 as [|x l Hs IH Hall]; intros [|k]; simpl; try constructor.
  - apply IH.
  - rewrite Forall_forall in *. intros z Hz. apply Hall.
    rewrite <- (firstn_skipn k l). apply in_or_app. now left.
Qed.



Lemma sorted_nth (A : Type) (R : A -> A -> Prop) (l : list A) :
  StronglySorted R l ->
  forall i j x y, i < j ->
    nth_error l i = Some x -> nth_error l j = Some y -> R x y.
Proof.
  induction 1 as [|z l Hs IH Hall]; intros i j x y Hij Hi Hj.
  - destruct i; discriminate.
  - destruct j as [|j]; [lia|]. simpl in Hj.
    destruct i as [|i]; simpl in Hi.
    + injection Hi as ->. rewrite Forall_forall in Hall.
      apply Hall. eapply nth_error_In; eauto.
    + apply (IH i j); auto. lia.
Qed.



Section Ranking.

(** The scored chunks: the comparator gives NaN for no two of them. *)
Variable all : list Ask.scored.
Hypothesis Hall : comparable all = true.

(** The comparator then puts [x] behind [y] exactly when the score of [x]
    is below the score of [y]. *)
Lemma comparable_pair (x y : Ask.scored) :
  In x all -> In y all ->
  (0 <? Ask.by_score_desc x y)%float = (Ask.score x <? Ask.score y)%float
  /\ is_nan (Ask.score x) = false
  /\ is_nan (Ask.score y) = false.
Proof.
  intros Hx Hy. unfold comparable in Hall.
  rewrite forallb_forall in Hall. specialize (Hall x Hx).
  rewrite forallb_forall in Hall. specialize (Hall y Hy).
  apply negb_true_iff in Hall. unfold Ask.by_score_desc in *.
  split; [now apply float_sub_positive|].
  destruct (@float_sub_not_nan _ _ Hall). auto.
Qed.

Lemma insert_sorted (x : Ask.scored) (l : list Ask.scored) :
  In x all -> incl l all ->
  StronglySorted (fun a b => (Ask.score a <? Ask.score b)%float = false) l ->
  StronglySorted (fun a b => (Ask.score a <? Ask.score b)%float = false)
                 (Ask.insert Ask.by_score_desc x l).
Proof.
  intros Hx Hl Hs. induction Hs as [|y l Hs IH Hfa]; simpl.
  - constructor; constructor.
  - assert (Hy : In y all) by (apply Hl; now left).
    assert (Hl' : incl l all) by (intros z Hz; apply Hl; now right).
    destruct (@comparable_pair x y Hx Hy) as (-> & Nx & Ny).
    destruct (Ask.score x <? Ask.score y)%float eqn:B.
    + constructor; [now apply IH|].
      apply Forall_forall. intros z Hz. apply insert_In in Hz.
      destruct Hz as [->|Hz].
      * now apply float_lt_asym.
      * rewrite Forall_forall in Hfa. now apply Hfa.
    + constructor.
      * constructor; auto.
      * constructor; [exact B|].
        rewrite Forall_forall in *. intros z Hz.
        apply float_not_lt_trans with (y := Ask.score y);
          [exact Ny | exact B | now apply Hfa].
Qed.

Lemma sort_sorted (l : list Ask.scored) :
  incl l all ->
  StronglySorted (fun a b => (Ask.score a <? Ask.score b)%float = false)
                 (Ask.sort Ask.by_score_desc l).
Proof.
  induction l as [|x l IH]; intro Hl; simpl; [constructor|].
  apply insert_sorted.
  - apply Hl. now left.
  - intros z Hz. apply sort_In in Hz. apply Hl. now right.
  - apply IH. intros z Hz. apply Hl. now right.
Qed.



End Ranking.

Lemma entry_of_rank (k : nat) (l : list Ask.scored) :
  map entry_of (Ask.rank k l) = firstn k (Ask.sort Ask.by_score_desc l).
Proof.
  unfold Ask.rank. rewrite map_map. unfold entry_of. simpl.
  induction (firstn k (Ask.sort Ask.by_score_desc l)) as [|[c s] t IH];
    simpl; [reflexivity|]. now rewrite IH.
Qed.


Lemma rank_sorted (k : nat) (l : list Ask.scored) :
  comparable l = true ->
  StronglySorted
    (fun x y => (Ask.r_score x <? Ask.r_score y)%float = false)
    (Ask.rank k l).
Proof.
  intro H.
  pose proof (@firstn_sorted _ _ _ (@sort_sorted l H l (incl_refl l)) k)
    as Hs.
  rewrite <- entry_of_rank in Hs.
  induction (Ask.rank k l) as [|x t IH]; [constructor|].
  cbn [map] in Hs. inversion Hs as [|? ? Hs' Hfa]; subst.
  constructor; [now apply IH|].
  rewrite Forall_forall in *. intros z Hz.
  apply (Hfa (entry_of z)). now apply in_map.
Qed.

Lemma rank_In (k : nat) (l : list Ask.scored) (x : Ask.retrieved) :
  In x (Ask.rank k l) -> In (entry_of x) l.
Proof.
  unfold Ask.rank. intro H. apply in_map_iff in H as (sc & <- & Hsc).
  unfold entry_of. simpl. destruct sc as [c s]. simpl.
  apply (sort_In Ask.by_score_desc).
  rewrite <- (firstn_skipn k (Ask.sort Ask.by_score_desc l)).
  apply in_or_app. now left.
Qed.




(** ** [retrieveTopK] *)

Section TopK.

Variable endpoint : nat -> list jsstring -> result (list (option vec)).
Variable sha1_12 : jsstring -> jsstring.

(** The value of [k] only enters the last step: a call throws whatever
    [k] is, or it ranks one list of scored chunks, in the order of the
    bundle, whatever [k] is. *)
Lemma retrieveTopK_shape (b : Ask.bundle) (question : jsstring)
  (w : Ask.world) :
  (exists e b1 w1,
     forall k,
       Ask.retrieveTopK endpoint sha1_12 b question k w = (Throw e, b1, w1))
  \/ (exists qEmb original b1 w1,
        Ask.map_result (Ask.score_chunk qEmb) (Ask.chunks b1) = Ok original
        /\ forall k,
             Ask.retrieveTopK endpoint sha1_12 b question k w
             = (Ok (qEmb, Ask.rank k original), b1, w1)).
Proof.
  unfold Ask.retrieveTopK.
  destruct (Ask.ensureBundleEmbeddings endpoint sha1_12 b w)
    as [[[u|e] b1] w1].
  - destruct (Ask.callOpenAIEmbeddings endpoint [question] w1)
      as [[qEmbArr|e] w2].
    + destruct (Ask.map_result (Ask.score_chunk (Ask.entry qEmbArr 0))
                               (Ask.chunks b1)) as [l|e] eqn:Hl.
      * right. exists (Ask.entry qEmbArr 0), l, b1, w2. auto.
      * left. exists e, b1, w2. auto.
    + left. exists e, b1, w2. auto.
  - left. exists e, b1, w1. auto.
Qed.

Lemma map_result_In (A B : Type) (f : A -> result B) (l : list A) :
  forall l' y, Ask.map_result f l = Ok l' -> In y l' ->
  exists x, In x l /\ f x = Ok y.
Proof.
  induction l as [|x l IH]; simpl; intros l' y H Hy.
  - injection H as <-. contradiction.
  - destruct (f x) as [y0|] eqn:Hx; [|discriminate].
    destruct (Ask.map_result f l) as [ys|]; [|discriminate].
    injection H as <-. destruct Hy as [<-|Hy].
    + exists x. auto.
    + destruct (IH ys y eq_refl Hy) as (x' & Hin & Hf). exists x'. auto.
Qed.

Lemma score_chunk_chunk (qEmb : option vec) (c : Ask.chunk)
  (sc : Ask.scored) :
  Ask.score_chunk qEmb c = Ok sc -> Ask.chunk_of sc = c.
Proof.
  unfold Ask.score_chunk. destruct (Ask.embedding c); [destruct qEmb|];
    intro H; try discriminate; now injection H as <-.
Qed.



Lemma score_chunk_unembedded (qEmb : option vec) (c : Ask.chunk) :
  Ask.embedding c = None ->
  Ask.score_chunk qEmb c = Ok (Ask.Scored c 0%float).
Proof. unfold Ask.score_chunk. now intros ->. Qed.

(** C5, as the code has it.  Scoring a chunk without embedding never
    throws and gives exactly 0, whatever the query vector.  In the list that
    [retrieveTopK] returns, an entry whose chunk has no embedding has score
    0; and when the comparator gives NaN for no two of the scored chunks,
    every entry with a score above 0 stands before it and every entry with
    a score below 0 stands after it. *)
Theorem unembedded_scored_zero (b : Ask.bundle) (question : jsstring)
  (k : nat) (w : Ask.world) :
  (forall qEmb c, Ask.embedding c = None ->
     Ask.score_chunk qEmb c = Ok (Ask.Scored c 0%float))
  /\ match Ask.retrieveTopK endpoint sha1_12 b question k w with
     | (Ok (qEmb, top), b1, _) =>
         exists original,
           Ask.map_result (Ask.score_chunk qEmb) (Ask.chunks b1)
           = Ok original
           /\ forall i x,
                nth_error top i = Some x ->
                Ask.embedding (Ask.r_chunk x) = None ->
                Ask.r_score x = 0%float
                /\ (comparable original = true ->
                    forall j y,
                      nth_error top j = Some y ->
                      ((0 <? Ask.r_score y)%float = true -> j < i)
                      /\ ((Ask.r_score y <? 0)%float = true -> i < j))
     | (Throw _, _, _) => True
     end.
Proof.
  split; [exact score_chunk_unembedded|].
  destruct (retrieveTopK_shape b question w)
    as [(e & b1 & w1 & H) | (qEmb & original & b1 & w1 & Hl & H)];
    rewrite H; [exact I|].
  exists original. split; [exact Hl|].
  intros i x Hi Hnone.
  assert (Hx : Ask.r_score x = 0%float).
  { pose proof (rank_In _ _ _ (nth_error_In _ _ Hi)) as Hin.
    edestruct map_result_In as (c & _ & Hc); [exact Hl | exact Hin |].
    pose proof (score_chunk_chunk _ _ Hc) as Hcc. simpl in Hcc. subst c.
    rewrite (score_chunk_unembedded qEmb _ Hnone) in Hc.
    now injection Hc. }
  split; [exact Hx|].
  intros Hc j y Hj.
  pose proof (@rank_sorted k original Hc) as Hs.
  split; intro Hy.
  - destruct (Nat.lt_trichotomy i j) as [Hlt|[Heq|Hgt]]; auto.
    + pose proof (@sorted_nth _ _ _ Hs i j x y Hlt Hi Hj) as B.
      cbv beta in B. rewrite Hx in B. congruence.
    + subst j. rewrite Hi in Hj. injection Hj as <-.
      rewrite Hx in Hy. discriminate.
  - destruct (Nat.lt_trichotomy i j) as [Hlt|[Heq|Hgt]]; auto.
    + subst j. rewrite Hi in Hj. injection Hj as <-.
      rewrite Hx in Hy. discriminate.
    + pose proof (@sorted_nth _ _ _ Hs j i y x Hgt Hj Hi) as B.
      cbv beta in B. rewrite Hx in B. congruence.
Qed.

End TopK.

(** The call of [retrieveTopK] on [bundle_ranked]: the chunk without
    embedding stays without vector, the scores are 0, 0, 1 and -1, and
    the first three of the ranking are returned. *)
Lemma retrieveTopK_ranked :
  Ask.retrieveTopK endpoint_query fingerprint bundle_ranked (lit "q") 3
                   (Ask.World [] [])
  = (Ok (Some [1%float; 0%float],
         [Ask.Retrieved chunk_along 1%float (lit "Along.");
          Ask.Retrieved chunk_across 0%float (lit "Across.");
          Ask.Retrieved chunk_pending' 0%float (lit "Pending.")]),
     Ask.Bundle (lit "bundle-r")
       [chunk_across; chunk_pending'; chunk_along; chunk_against],
     Ask.World [[lit "Pending."]; [lit "q"]]
       [Ask.Bundle (lit "bundle-r")
          [chunk_across; chunk_pending'; chunk_along; chunk_against]]).
Proof. vm_compute. reflexivity. Qed.


(** Rounding decides a rank: against the query [1; 1] the chunk with the
    embedding [3; 3] scores 1 and the chunk with the embedding [1; 1]
    scores less, so the second chunk of the bundle is returned first. *)
Example rounding_decides_rank :
  fst (fst (Ask.retrieveTopK endpoint_diagonal fingerprint bundle_diagonal
              (lit "q") 1 (Ask.World [] [])))
  = Ok (Some [1%float; 1%float],
        [Ask.Retrieved chunk_longer 1%float (lit "Three times as long.")]).
Proof. vm_compute. reflexivity. Qed.


(** C5 on [bundle_ranked]: the chunk without embedding is returned third,
    behind the chunk of score 1. *)
Lemma unembedded_scored_zero_witness :
  comparable [Ask.Scored chunk_across 0%float;
              Ask.Scored chunk_pending' 0%float;
              Ask.Scored chunk_along 1%float;
              Ask.Scored chunk_against (-1)%float] = true
  /\ 0 < 2.
Proof.
  split; [reflexivity|].
  destruct (unembedded_scored_zero endpoint_query fingerprint
              bundle_ranked (lit "q") 3 (Ask.World [] [])) as [_ H].
  rewrite retrieveTopK_ranked in H.
  destruct H as (original & Hl & Hs).
  vm_compute in Hl. injection Hl as <-.
  exact (proj1 (proj2 (Hs 2 (Ask.Retrieved chunk_pending' 0%float
                                           (lit "Pending."))
                          eq_refl eq_refl) eq_refl 0
                         (Ask.Retrieved chunk_along 1%float (lit "Along."))
                         eq_refl) eq_refl).
Defined.

(** C5 as stated fails: the chunk without embedding is scored 0 and the
    embedded chunk is scored -1, so the chunk without embedding is returned
    first, before a chunk that has an embedding. *)
Lemma unembedded_before_embedded :
  fst (fst (Ask.retrieveTopK endpoint_partial fingerprint bundle_mixed
              (lit "q") 2 (Ask.World [] [])))
  = Ok (Some [1%float],
        [Ask.Retrieved chunk_unembedded' 0%float (lit "No vector yet.");
         Ask.Retrieved chunk_opposite (-1)%float (lit "Opposite direction.")])
  /\ embedded chunk_unembedded' = false
  /\ embedded chunk_opposite = true.
Proof. split; [vm_compute; reflexivity | split; reflexivity]. Qed.

(** * Further properties *)

(** ** Strings *)

Lemma str_eqb_eq (s t : jsstring) : str_eqb s t = true <-> s = t.
Proof.
  revert t. induction s as [|a s IH]; intros [|b t]; simpl;
    try (split; [discriminate | discriminate]); try tauto.
  rewrite andb_true_iff, Ascii.eqb_eq, IH.
  split; [intros [-> ->]; reflexivity | intro H; now injection H].
Qed.

Lemma startsWith_iff (p s : jsstring) :
  startsWith p s = true <-> exists post, s = p ++ post.
Proof.
  revert s. induction p as [|a p IH]; intro s; simpl.
  - split; [intros _; now exists s | reflexivity].
  - destruct s as [|b s].
    + split; [discriminate | intros [post H]; discriminate].
    + rewrite andb_true_iff, Ascii.eqb_eq, IH. split.
      * intros [-> [post ->]]. now exists post.
      * intros [post H]. injection H as -> ->. split; [reflexivity|].
        now exists post.
Qed.

Lemma indexOf_go_sound (p : jsstring) (s : jsstring) :
  forall i j, indexOf_go p s i = Some j ->
  exists pre post, s = pre ++ p ++ post /\ j = i + length pre.
Proof.
  induction s as [|c s IH]; intros i j; simpl.
  - destruct (startsWith p []) eqn:Hp; [|discriminate].
    intro H. injection H as <-. apply startsWith_iff in Hp as [post Hp].
    exists [], post. simpl. split; [exact Hp | lia].
  - destruct (startsWith p (c :: s)) eqn:Hp.
    + intro H. injection H as <-. apply startsWith_iff in Hp as [post Hp].
      exists [], post. simpl. split; [exact Hp | lia].
    + intro H. apply IH in H as (pre & post & -> & ->).
      exists (c :: pre), post. simpl. split; [reflexivity | lia].
Qed.

Lemma indexOf_go_complete (p pre post : jsstring) :
  forall i, exists j, indexOf_go p (pre ++ p ++ post) i = Some j.
Proof.
  induction pre as [|c pre IH]; intro i.
  - assert (H : startsWith p ([] ++ p ++ post) = true)
      by (apply startsWith_iff; now exists post).
    destruct ([] ++ p ++ post) as [|c s] eqn:E; simpl; rewrite H; eauto.
  - cbn [app indexOf_go].
    destruct (startsWith p (c :: pre ++ p ++ post)); eauto.
Qed.

(** [s.includes(p)] holds exactly when [p] occurs in [s]. *)
Lemma includes_iff (s p : jsstring) :
  includes s p = true <-> exists pre post, s = pre ++ p ++ post.
Proof.
  unfold includes, indexOf. cbn [Nat.min skipn]. split.
  - destruct (indexOf_go p s 0) as [j|] eqn:H; [|discriminate].
    intros _. apply indexOf_go_sound in H as (pre & post & H & _). eauto.
  - intros (pre & post & ->).
    destruct (indexOf_go_complete p pre post 0) as [j ->]. reflexivity.
Qed.

Lemma includes_substring (s : jsstring) (i j : nat) :
  includes s (substring s i j) = true.
Proof.
  apply includes_iff. unfold substring.
  exists (firstn i s), (skipn (j - i) (skipn i s)).
  now rewrite firstn_skipn, firstn_skipn.
Qed.

Lemma trimStart_blank (s : jsstring) :
  forallb is_space s = true -> trimStart s = [].
Proof.
  induction s as [|c s IH]; simpl; [reflexivity|].
  intro H. apply andb_true_iff in H as [Hc Hs]. rewrite Hc. auto.
Qed.

Lemma trim_blank (s : jsstring) : forallb is_space s = true -> trim s = [].
Proof.
  intro H. unfold trim, trimEnd. now rewrite (trimStart_blank s H).
Qed.

Lemma trimStart_solid (s : jsstring) :
  trimStart s = [] \/ solid_start (trimStart s).
Proof.
  induction s as [|c s IH]; simpl; [now left|].
  destruct (is_space c) eqn:Hc; [exact IH | right; exact Hc].
Qed.

Lemma trimStart_id (s : jsstring) : solid_start s -> trimStart s = s.
Proof. destruct s as [|c s]; simpl; [tauto | now intros ->]. Qed.

Lemma trimStart_suffix (s : jsstring) :
  exists pre, s = pre ++ trimStart s /\ forallb is_space pre = true.
Proof.
  induction s as [|c s IH]; simpl.
  - now exists [].
  - destruct (is_space c) eqn:Hc.
    + destruct IH as (pre & Hs & Hp). exists (c :: pre). simpl.
      rewrite Hc, Hp. split; [now f_equal | reflexivity].
    + now exists [].
Qed.

(** [trimEnd] and [trim] keep the first character of a string that begins
    with a character that is no white space. *)
Lemma trimEnd_solid (s : jsstring) : solid_start s -> solid_start (trimEnd s).
Proof.
  intro H. unfold trimEnd.
  destruct s as [|c s]; [contradiction|]. simpl in H.
  destruct (trimStart_suffix (rev (c :: s))) as (pre & Hs & Hp).
  assert (Hr : c :: s = rev (trimStart (rev (c :: s))) ++ rev pre).
  { rewrite <- rev_app_distr, <- Hs. now rewrite rev_involutive. }
  destruct (rev (trimStart (rev (c :: s)))) as [|d t] eqn:E.
  - simpl in Hr.
    assert (Hin : In c (rev pre)) by (rewrite <- Hr; now left).
    apply in_rev in Hin. rewrite forallb_forall in Hp.
    rewrite (Hp c Hin) in H. discriminate.
  - simpl in Hr. injection Hr as <- _. exact H.
Qed.

Lemma trim_solid (s : jsstring) : solid_start s -> solid_start (trim s).
Proof.
  intro H. unfold trim. rewrite (trimStart_id s H). now apply trimEnd_solid.
Qed.

Lemma trim_nil_or_solid (s : jsstring) : trim s = [] \/ solid_start (trim s).
Proof.
  unfold trim. destruct (trimStart_solid s) as [E|H].
  - left. now rewrite E.
  - right. now apply trimEnd_solid.
Qed.

Lemma truthy_trim_solid (s : jsstring) :
  truthy (trim s) = true -> solid_start (trim s).
Proof.
  destruct (trim_nil_or_solid s) as [E|H]; [|auto].
  rewrite E. discriminate.
Qed.

(** ** The segmenter *)

(** X1: the estimate of the empty string is 0; for a string of [n >= 1]
    characters it is the least [t >= 1] with [n <= 4 * t]. *)
Theorem estimateTokens_bounds (c : ascii) (s : jsstring) :
  Mcp.estimateTokens [] = 0
  /\ 1 <= Mcp.estimateTokens (c :: s)
  /\ length (c :: s) <= 4 * Mcp.estimateTokens (c :: s)
  /\ 4 * Mcp.estimateTokens (c :: s) < length (c :: s) + 4.
Proof.
  unfold Mcp.estimateTokens. cbn [truthy length].
  pose proof (Nat.div_mod_eq (S (length s) + 3) 4) as E.
  pose proof (Nat.mod_upper_bound (S (length s) + 3) 4) as U.
  repeat split; lia.
Qed.

Lemma estimateTokens_mono (s t : jsstring) :
  s <> [] -> length s <= length t ->
  Mcp.estimateTokens s <= Mcp.estimateTokens t.
Proof.
  intros Hs Hl. unfold Mcp.estimateTokens.
  destruct s as [|a s]; [contradiction|].
  destruct t as [|b t]; [simpl in Hl; lia|]. cbn [truthy].
  apply Nat.max_le_compat_l, Nat.Div0.div_le_mono. lia.
Qed.

(** X2: a document that holds only white space yields no chunk, whatever
    the options. *)
Theorem chunkText_blank (doc : jsstring) (opts : Mcp.options) :
  forallb is_space doc = true -> Mcp.chunkText doc opts = [].
Proof.
  intro H. unfold Mcp.chunkText. rewrite (trim_blank doc H). simpl.
  now rewrite orb_true_r.
Qed.

(** X2 on two spaces, a line break and a tab. *)
Lemma chunkText_blank_witness :
  forallb is_space [SP; SP; LF; ascii_of_nat 9] = true
  /\ Mcp.chunkText [SP; SP; LF; ascii_of_nat 9]
       (Mcp.Options (Some 200) None) = [].
Proof.
  split; [reflexivity|].
  apply (chunkText_blank [SP; SP; LF; ascii_of_nat 9]
           (Mcp.Options (Some 200) None)).
  reflexivity.
Defined.

(** *** The invariant of the loops *)

Lemma join_solid (s : jsstring) (rest : list jsstring) :
  solid_start s -> solid_start (join [SP] (s :: rest)).
Proof.
  destruct s as [|c s]; [contradiction|]. intro H.
  destruct rest; simpl; exact H.
Qed.

Lemma keep_loop_solid (overlap : nat) (backwards : list jsstring) :
  forall keep keepTokens,
  Forall solid_start backwards -> Forall solid_start keep ->
  Forall solid_start
    (fst (Mcp.keep_loop overlap backwards keep keepTokens)).
Proof.
  induction backwards as [|s rest IH]; intros keep keepTokens Hb Hk; simpl;
    [exact Hk|].
  inversion Hb as [|? ? Hs Hrest]; subst.
  destruct ((overlap <? keepTokens + Mcp.estimateTokens s)
            && negb (Mcp.is_nil keep)); [exact Hk|].
  apply IH; auto.
Qed.

Lemma flushChunk_ok (overlap : nat) (finalizeOverlap : bool)
  (st : Mcp.state) :
  state_ok st -> state_ok (Mcp.flushChunk overlap finalizeOverlap st).
Proof.
  intros [Hc Hs]. unfold Mcp.flushChunk.
  destruct (Mcp.currentChunkSentences st) as [|s rest] eqn:E;
    [split; [exact Hc | now rewrite E]|].
  assert (Hnew : Forall well_formed
            (Mcp.chunks st
             ++ [Mcp.Chunk (trim (join [SP] (s :: rest)))
                   match Mcp.currentChunkStart st with
                   | Some n => n
                   | None => 0
                   end
                   (match Mcp.currentChunkStart st with
                    | Some n => n
                    | None => 0
                    end + length (trim (join [SP] (s :: rest))))])).
  { apply Forall_app. split; [exact Hc|]. constructor; [|constructor].
    split; [reflexivity|]. cbn [Mcp.text].
    apply trim_solid, join_solid. now inversion Hs. }
  destruct (finalizeOverlap && (0 <? overlap)).
  - destruct (Mcp.keep_loop overlap (rev (s :: rest)) [] 0)
      as [keep keepTokens] eqn:K.
    split; [exact Hnew|]. cbn [Mcp.currentChunkSentences].
    change keep with (fst (keep, keepTokens)). rewrite <- K.
    apply keep_loop_solid; [|constructor].
    apply Forall_rev. exact Hs.
  - split; [exact Hnew | constructor].
Qed.

Lemma with_globalCharIndex_ok (g : nat) (st : Mcp.state) :
  state_ok st -> state_ok (Mcp.with_globalCharIndex g st).
Proof. intros [Hc Hs]. split; assumption. Qed.

Lemma sentence_step_ok (doc : jsstring) (target overlap : nat)
  (st : Mcp.state) (sent : jsstring) :
  state_ok st -> solid_start sent ->
  state_ok (Mcp.sentence_step doc target overlap st sent).
Proof.
  intros [Hc Hs] Hsent. unfold Mcp.sentence_step. cbv zeta.
  match goal with
  | |- context [if ?c then _ else _] => destruct c
  end; apply with_globalCharIndex_ok; [apply flushChunk_ok|];
    (split; [exact Hc|]; cbn [Mcp.currentChunkSentences];
     apply Forall_app; split; [exact Hs | now constructor]).
Qed.

Lemma splitIntoSentences_solid (para : jsstring) :
  Forall solid_start (Mcp.splitIntoSentences para).
Proof.
  unfold Mcp.splitIntoSentences. cbv zeta.
  set (normalized := trim _).
  destruct (truthy normalized) eqn:T; simpl; [|constructor].
  destruct (split Mcp.sentence_pattern normalized) as [|r raw].
  - constructor; [|constructor]. now apply truthy_trim_solid.
  - apply Forall_forall. intros x Hx.
    apply filter_In in Hx as [Hin Ht].
    apply in_map_iff in Hin as (y & <- & _). now apply truthy_trim_solid.
Qed.

Lemma fold_sentences_ok (doc : jsstring) (target overlap : nat)
  (sents : list jsstring) :
  forall st, state_ok st -> Forall solid_start sents ->
  state_ok (fold_left (Mcp.sentence_step doc target overlap) sents st).
Proof.
  induction sents as [|s sents IH]; intros st Hst Hs; simpl; [exact Hst|].
  inversion Hs; subst. apply IH; auto. now apply sentence_step_ok.
Qed.

Lemma paragraph_step_ok (doc : jsstring) (target overlap : nat)
  (st : Mcp.state) (para : jsstring) :
  state_ok st -> state_ok (Mcp.paragraph_step doc target overlap st para).
Proof.
  intros [Hc Hs]. unfold Mcp.paragraph_step. cbv zeta.
  set (st1 := fold_left _ _ _).
  assert (H1 : state_ok st1).
  { apply fold_sentences_ok; [|apply splitIntoSentences_solid].
    split; [exact Hc | constructor]. }
  destruct (Mcp.currentChunkSentences st1); [exact H1|].
  now apply with_globalCharIndex_ok, flushChunk_ok.
Qed.

Lemma assembled_ok (doc : jsstring) (target overlap : nat) :
  Forall well_formed (Mcp.assembled doc target overlap).
Proof.
  unfold Mcp.assembled. cbv zeta.
  set (paragraphs := filter _ _).
  assert (H : forall ps st, state_ok st ->
            state_ok (fold_left (Mcp.paragraph_step doc target overlap) ps st)).
  { induction ps as [|p ps IH]; intros st Hst; simpl; [exact Hst|].
    apply IH. now apply paragraph_step_ok. }
  apply (H paragraphs). split; constructor.
Qed.

(** *** The final loop *)

Lemma snoc_cases (A : Type) (l : list A) :
  l = [] \/ exists front d, l = front ++ [d].
Proof.
  destruct (rev l) as [|d front] eqn:E.
  - left. apply (f_equal (@rev A)) in E. now rewrite rev_involutive in E.
  - right. exists (rev front), d.
    apply (f_equal (@rev A)) in E. now rewrite rev_involutive in E.
Qed.

Lemma merge_step_nil (c : Mcp.chunk) : Mcp.merge_step [] c = [c].
Proof.
  unfold Mcp.merge_step. cbn [Mcp.is_nil negb]. now rewrite andb_false_r.
Qed.

Lemma merge_step_solid (merged : list Mcp.chunk) (c : Mcp.chunk) :
  Forall (fun d => solid_start (Mcp.text d)) merged ->
  solid_start (Mcp.text c) ->
  Forall (fun d => solid_start (Mcp.text d)) (Mcp.merge_step merged c).
Proof.
  intros Hm Hc. destruct (snoc_cases merged) as [->|(front & d & ->)].
  - rewrite merge_step_nil. now constructor.
  - rewrite merge_step_threshold.
    apply Forall_app in Hm as [Hf Hd]. inversion Hd as [|? ? Hd' _]; subst.
    destruct (Mcp.estimateTokens (Mcp.text c) <? 100).
    + apply Forall_app. split; [exact Hf|]. constructor; [|constructor].
      cbn [Mcp.text]. destruct (Mcp.text d); [contradiction | exact Hd'].
    + apply Forall_app. split; [|now constructor].
      apply Forall_app. split; [exact Hf | now constructor].
Qed.

Lemma merge_step_big (merged : list Mcp.chunk) (c : Mcp.chunk) :
  Forall (fun d => 100 <= Mcp.estimateTokens (Mcp.text d)) (tl merged) ->
  Forall (fun d => 100 <= Mcp.estimateTokens (Mcp.text d))
         (tl (Mcp.merge_step merged c)).
Proof.
  intro Hm. destruct (snoc_cases merged) as [->|(front & d & ->)].
  - rewrite merge_step_nil. constructor.
  - rewrite merge_step_threshold.
    destruct (Nat.ltb_spec (Mcp.estimateTokens (Mcp.text c)) 100) as [Hlt|Hge].
    + destruct front as [|f front]; [constructor|].
      cbn [app tl] in *. apply Forall_app in Hm as [Hf Hd].
      inversion Hd as [|? ? Hd' _]; subst.
      apply Forall_app. split; [exact Hf|]. constructor; [|constructor].
      cbn [Mcp.text]. etransitivity; [exact Hd'|].
      apply estimateTokens_mono.
      * intro E. rewrite E in Hd'.
        change (Mcp.estimateTokens []) with 0 in Hd'. lia.
      * rewrite length_app. lia.
    + destruct front as [|f front]; cbn [app tl] in *.
      * now constructor.
      * apply Forall_app. split; [exact Hm | now constructor].
Qed.

Lemma fold_merge_inv (P : list Mcp.chunk -> Prop) (Q : Mcp.chunk -> Prop) :
  (forall merged c, P merged -> Q c -> P (Mcp.merge_step merged c)) ->
  forall cs merged, P merged -> Forall Q cs ->
  P (fold_left Mcp.merge_step cs merged).
Proof.
  intros Hstep. induction cs as [|c cs IH]; intros merged Hm Hcs; simpl;
    [exact Hm|].
  inversion Hcs; subst. apply IH; auto.
Qed.

Lemma join_merge (sep d c : jsstring) (rest : list jsstring) :
  forall front,
  join sep (front ++ (d ++ sep ++ c) :: rest)
  = join sep (front ++ d :: c :: rest).
Proof.
  assert (Hcons : forall x y l,
            join sep (x :: y :: l) = x ++ sep ++ join sep (y :: l))
    by reflexivity.
  induction front as [|f front IH].
  - cbn [app]. destruct rest as [|r rest].
    + reflexivity.
    + rewrite !Hcons. now rewrite <- !app_assoc.
  - destruct front as [|g front].
    + cbn [app] in *.
      change (f ++ sep ++ join sep ((d ++ sep ++ c) :: rest)
              = f ++ sep ++ join sep (d :: c :: rest)).
      now rewrite IH.
    + cbn [app] in *.
      change (f ++ sep ++ join sep (g :: front ++ (d ++ sep ++ c) :: rest)
              = f ++ sep ++ join sep (g :: front ++ d :: c :: rest)).
      now rewrite IH.
Qed.

Lemma merge_step_join (merged rest : list Mcp.chunk) (c : Mcp.chunk) :
  join [SP] (map Mcp.text (Mcp.merge_step merged c ++ rest))
  = join [SP] (map Mcp.text (merged ++ c :: rest)).
Proof.
  destruct (snoc_cases merged) as [->|(front & d & ->)].
  - now rewrite merge_step_nil.
  - rewrite merge_step_threshold.
    destruct (Mcp.estimateTokens (Mcp.text c) <? 100).
    + rewrite <- !app_assoc. cbn [app]. rewrite !map_app. cbn [map Mcp.text].
      exact (join_merge [SP] (Mcp.text d) (Mcp.text c) (map Mcp.text rest)
                        (map Mcp.text front)).
    + now rewrite <- !app_assoc.
Qed.

Lemma fold_merge_join (cs : list Mcp.chunk) :
  forall merged,
  join [SP] (map Mcp.text (fold_left Mcp.merge_step cs merged))
  = join [SP] (map Mcp.text (merged ++ cs)).
Proof.
  induction cs as [|c cs IH]; intro merged; simpl.
  - now rewrite app_nil_r.
  - rewrite IH. apply merge_step_join.
Qed.

Lemma last_end_char_snoc (l : list Mcp.chunk) (c : Mcp.chunk) :
  Mcp.last_end_char (l ++ [c]) = Mcp.end_char c.
Proof. unfold Mcp.last_end_char. now rewrite rev_app_distr. Qed.

Lemma last_end_char_app (l rest : list Mcp.chunk) :
  rest <> [] -> Mcp.last_end_char (l ++ rest) = Mcp.last_end_char rest.
Proof.
  intro H. destruct (snoc_cases rest) as [->|(front & d & ->)];
    [contradiction|].
  now rewrite app_assoc, !last_end_char_snoc.
Qed.

Lemma merge_step_last (merged rest : list Mcp.chunk) (c : Mcp.chunk) :
  Mcp.last_end_char (Mcp.merge_step merged c ++ rest)
  = Mcp.last_end_char (merged ++ c :: rest).
Proof.
  destruct rest as [|r rest].
  - rewrite app_nil_r, last_end_char_snoc.
    destruct (snoc_cases merged) as [->|(front & d & ->)].
    + now rewrite merge_step_nil.
    + rewrite merge_step_threshold.
      destruct (Mcp.estimateTokens (Mcp.text c) <? 100);
        now rewrite last_end_char_snoc.
  - rewrite last_end_char_app by discriminate.
    change (merged ++ c :: r :: rest) with (merged ++ [c] ++ r :: rest).
    rewrite app_assoc. now rewrite last_end_char_app by discriminate.
Qed.

Lemma merge_step_first (merged rest : list Mcp.chunk) (c : Mcp.chunk) :
  map Mcp.start_char (firstn 1 (Mcp.merge_step merged c ++ rest))
  = map Mcp.start_char (firstn 1 (merged ++ c :: rest)).
Proof.
  destruct (snoc_cases merged) as [->|(front & d & ->)].
  - now rewrite merge_step_nil.
  - rewrite merge_step_threshold.
    destruct (Mcp.estimateTokens (Mcp.text c) <? 100).
    + destruct front; reflexivity.
    + now rewrite <- !app_assoc.
Qed.

Lemma merge_step_length (merged : list Mcp.chunk) (c : Mcp.chunk) :
  length (Mcp.merge_step merged c) <= S (length merged).
Proof.
  destruct (snoc_cases merged) as [->|(front & d & ->)].
  - now rewrite merge_step_nil.
  - rewrite merge_step_threshold.
    destruct (Mcp.estimateTokens (Mcp.text c) <? 100);
      rewrite !length_app; simpl; lia.
Qed.

Lemma fold_merge_span (cs : list Mcp.chunk) :
  forall merged,
  length (fold_left Mcp.merge_step cs merged) <= length merged + length cs
  /\ map Mcp.start_char (firstn 1 (fold_left Mcp.merge_step cs merged))
     = map Mcp.start_char (firstn 1 (merged ++ cs))
  /\ Mcp.last_end_char (fold_left Mcp.merge_step cs merged)
     = Mcp.last_end_char (merged ++ cs).
Proof.
  induction cs as [|c cs IH]; intro merged; cbn [fold_left length].
  - rewrite app_nil_r. split; [lia | split; reflexivity].
  - destruct (IH (Mcp.merge_step merged c)) as (Hl & Hf & He).
    pose proof (merge_step_length merged c).
    split; [lia|]. split.
    + rewrite Hf. apply merge_step_first.
    + rewrite He. apply merge_step_last.
Qed.

(** X3: every chunk that [chunkText] returns has a text that is not empty
    and begins with a character that is no white space, and every chunk
    behind the first has an estimate of at least 100 tokens, whatever the
    options. *)
Theorem chunkText_chunks_solid_and_large (doc : jsstring)
  (opts : Mcp.options) :
  Forall (fun c => solid_start (Mcp.text c)) (Mcp.chunkText doc opts)
  /\ Forall (fun c => 100 <= Mcp.estimateTokens (Mcp.text c))
            (behind_first (Mcp.chunkText doc opts)).
Proof.
  unfold Mcp.chunkText, behind_first. cbv zeta.
  destruct (negb (truthy doc) || negb (truthy (trim doc)));
    [split; constructor|].
  set (cs := Mcp.assembled doc _ _).
  assert (Hcs : Forall (fun c => solid_start (Mcp.text c)) cs).
  { eapply Forall_impl; [|apply assembled_ok]. now intros c [_ H]. }
  split.
  - apply (@fold_merge_inv
             (fun l => Forall (fun c => solid_start (Mcp.text c)) l)
             (fun c => solid_start (Mcp.text c)));
      [apply merge_step_solid | constructor | exact Hcs].
  - apply (@fold_merge_inv
             (fun l => Forall (fun c => 100 <= Mcp.estimateTokens (Mcp.text c))
                              (tl l))
             (fun _ => True));
      [intros; now apply merge_step_big | constructor |].
    eapply Forall_impl; [|exact Hcs]. auto.
Qed.

(** X4: before the final loop merges the small chunks, every chunk ends
    at its start offset plus the length of its text. *)
Theorem assembled_end_is_start_plus_length (doc : jsstring)
  (target overlap : nat) :
  Forall (fun c => Mcp.end_char c = Mcp.start_char c + length (Mcp.text c))
         (Mcp.assembled doc target overlap).
Proof.
  eapply Forall_impl; [|apply assembled_ok]. now intros c [H _].
Qed.

(** X5: on a document that is not blank, the final loop loses nothing: the
    texts of the returned chunks joined by single spaces are the texts of
    the assembled chunks joined by single spaces, there are no more chunks
    than were assembled, the first start offset and the last end offset
    are those of the assembled chunks. *)
Theorem chunkText_merge_keeps_text_and_span (doc : jsstring)
  (opts : Mcp.options) :
  truthy (trim doc) = true ->
  let cs := Mcp.assembled doc
              (Mcp.or_default (Mcp.targetTokens opts)
                              Mcp.DEFAULT_CHUNK_TOKENS)
              (Mcp.or_default (Mcp.overlapTokens opts)
                              Mcp.DEFAULT_CHUNK_OVERLAP) in
  let out := Mcp.chunkText doc opts in
  join [SP] (map Mcp.text out) = join [SP] (map Mcp.text cs)
  /\ length out <= length cs
  /\ map Mcp.start_char (firstn 1 out) = map Mcp.start_char (firstn 1 cs)
  /\ Mcp.last_end_char out = Mcp.last_end_char cs.
Proof.
  intros Ht cs out. subst out. unfold Mcp.chunkText. cbv zeta. fold cs.
  assert (Hd : truthy doc = true).
  { destruct doc; [discriminate Ht | reflexivity]. }
  rewrite Ht, Hd. cbn [negb orb].
  destruct (fold_merge_span cs []) as (Hl & Hf & He).
  split; [apply (fold_merge_join cs [])|]. auto.
Qed.

(** X5 on the document of two paragraphs with [targetTokens = 100]. *)
Lemma chunkText_merge_keeps_text_witness :
  truthy (trim doc_two_paragraphs) = true
  /\ join [SP] (map Mcp.text
                   (Mcp.chunkText doc_two_paragraphs
                                  (Mcp.Options (Some 100) None)))
     = join [SP] (map Mcp.text
                     (Mcp.assembled doc_two_paragraphs 100
                                    Mcp.DEFAULT_CHUNK_OVERLAP)).
Proof.
  assert (H : truthy (trim doc_two_paragraphs) = true) by (vm_compute; reflexivity).
  split; [exact H|].
  exact (proj1 (chunkText_merge_keeps_text_and_span doc_two_paragraphs
                  (Mcp.Options (Some 100) None) H)).
Defined.

(** ** The verifier's map and matcher *)

Lemma str_eqb_refl (s : jsstring) : str_eqb s s = true.
Proof. now apply str_eqb_eq. Qed.

Lemma map_get_set (k k' : jsstring) (v : Ask.chunk) (m : Verifier.Map) :
  Verifier.map_get k (Verifier.map_set k' v m)
  = if str_eqb k k' then Some v else Verifier.map_get k m.
Proof.
  induction m as [|[k2 v2] m IH]; simpl.
  - reflexivity.
  - destruct (str_eqb k' k2) eqn:E22; simpl.
    + apply str_eqb_eq in E22. subst k2.
      now destruct (str_eqb k k').
    + rewrite IH. destruct (str_eqb k k') eqn:E; [|reflexivity].
      apply str_eqb_eq in E. subst k'. now rewrite E22.
Qed.

Lemma find_app (A : Type) (p : A -> bool) (l1 l2 : list A) :
  find p (l1 ++ l2)
  = match find p l1 with Some x => Some x | None => find p l2 end.
Proof.
  induction l1 as [|x l1 IH]; simpl; [reflexivity|].
  now destruct (p x).
Qed.

Lemma fold_map_set_get (id : jsstring) (cs : list Ask.chunk) :
  forall m,
  Verifier.map_get id
    (fold_left (fun m c => if truthy (Ask.chunk_id c)
                           then Verifier.map_set (Ask.chunk_id c) c m else m)
               cs m)
  = match find (fun c => truthy (Ask.chunk_id c)
                         && str_eqb id (Ask.chunk_id c)) (rev cs) with
    | Some c => Some c
    | None => Verifier.map_get id m
    end.
Proof.
  induction cs as [|c cs IH]; intro m; cbn [fold_left rev].
  - reflexivity.
  - rewrite IH, find_app. cbn [find].
    destruct (find _ (rev cs)); [reflexivity|].
    destruct (truthy (Ask.chunk_id c)); cbn [andb]; [|reflexivity].
    rewrite map_get_set. now destruct (str_eqb id (Ask.chunk_id c)).
Qed.

(** X6: the map built by [mapChunksById] answers a lookup with the last
    chunk of the bundle that carries the identifier, chunks with an empty
    identifier are left out, and without a chunks array nothing is found. *)
Theorem mapChunksById_lookup (b : Ask.bundle) (id : jsstring) :
  Verifier.map_get id (Verifier.mapChunksById (Some b))
  = find (fun c => truthy (Ask.chunk_id c) && str_eqb id (Ask.chunk_id c))
         (rev (Ask.chunks b))
  /\ Verifier.map_get id (Verifier.mapChunksById None) = None
  /\ Verifier.map_get [] (Verifier.mapChunksById (Some b)) = None.
Proof.
  unfold Verifier.mapChunksById. rewrite !fold_map_set_get. cbn [Verifier.map_get].
  split; [now destruct (find _ _)|]. split; [reflexivity|].
  destruct (find _ (rev (Ask.chunks b))) as [c|] eqn:F; [|reflexivity].
  apply find_some in F as [_ F]. apply andb_true_iff in F as [T E].
  apply str_eqb_eq in E. rewrite <- E in T. discriminate.
Qed.

Lemma includes_firstn (s p : jsstring) (n : nat) :
  includes s p = true -> includes s (firstn n p) = true.
Proof.
  rewrite !includes_iff. intros (pre & post & ->).
  exists pre, (skipn n p ++ post).
  now rewrite app_assoc, (app_assoc (firstn n p)), firstn_skipn, <- app_assoc.
Qed.

(** X7: [doesSnippetMatchChunk] reports no match exactly with the kind
    [none]; and a snippet that is not empty and occurs in the chunk text as
    it stands is matched with the kind [exact], whatever the options. *)
Theorem verbatim_snippet_matches_exact (snippet chunkText : jsstring)
  (opts : Verifier.options) (pre post : jsstring) :
  snippet <> [] -> chunkText = pre ++ snippet ++ post ->
  Verifier.doesSnippetMatchChunk snippet chunkText opts
  = (true, Verifier.exact)
  /\ forall s t o,
       fst (Verifier.doesSnippetMatchChunk s t o) = false
       <-> snd (Verifier.doesSnippetMatchChunk s t o) = Verifier.none.
Proof.
  intros Hs Hc. split.
  - unfold Verifier.doesSnippetMatchChunk.
    assert (Hi : includes chunkText snippet = true)
      by (apply includes_iff; eauto).
    destruct snippet as [|a s]; [contradiction|].
    destruct chunkText as [|b t].
    + destruct pre; discriminate.
    + cbn [truthy negb orb]. now rewrite Hi.
  - intros s t o. unfold Verifier.doesSnippetMatchChunk. cbv zeta.
    repeat match goal with
           | |- context [if ?c then _ else _] => destruct c
           end; cbn [fst snd]; split; intro H; try reflexivity;
      discriminate.
Qed.

(** X7 on a clause quoted from the chunk of [bundle_x]. *)
Lemma verbatim_snippet_witness :
  lit "two years" <> []
  /\ lit "The term is two years."
     = lit "The term is " ++ lit "two years" ++ lit "."
  /\ Verifier.doesSnippetMatchChunk (lit "two years")
       (lit "The term is two years.") Verifier.DEFAULT_OPTIONS
     = (true, Verifier.exact).
Proof.
  assert (H1 : lit "two years" <> []) by discriminate.
  assert (H2 : lit "The term is two years."
               = lit "The term is " ++ lit "two years" ++ lit ".")
    by reflexivity.
  split; [exact H1|]. split; [exact H2|].
  exact (proj1 (verbatim_snippet_matches_exact Verifier.DEFAULT_OPTIONS
                  (lit "The term is ") (lit ".") H1 H2)).
Defined.

(** X8: a snippet whose normalised form has at least 12 characters and
    occurs in the normalised chunk text is matched, with any option set:
    differences of case and of white space do not hide a quotation. *)
Theorem normalised_snippet_matches (snippet chunkText : jsstring)
  (opts : Verifier.options) :
  12 <= length (Verifier.normalizeText snippet) ->
  includes (Verifier.normalizeText chunkText)
           (Verifier.normalizeText snippet) = true ->
  chunkText <> [] ->
  fst (Verifier.doesSnippetMatchChunk snippet chunkText opts) = true.
Proof.
  intros Hlen Hinc Hc. unfold Verifier.doesSnippetMatchChunk. cbv zeta.
  destruct snippet as [|a s]; [simpl in Hlen; lia|].
  destruct chunkText as [|b t]; [contradiction|].
  cbn [truthy negb orb].
  destruct (includes (b :: t) (a :: s)); [reflexivity|].
  rewrite Hinc, andb_true_r.
  destruct (_ <=? length (Verifier.normalizeText (a :: s)));
    [reflexivity|].
  unfold slice0.
  rewrite (includes_firstn _ _ _ Hinc), andb_true_r.
  destruct (Nat.leb_spec 12
              (Nat.min 40 (length (Verifier.normalizeText (a :: s)))));
    [reflexivity | lia].
Qed.

(** X8 on a quotation in capitals with doubled spaces. *)
Lemma normalised_snippet_witness :
  fst (Verifier.doesSnippetMatchChunk (lit "THE  TERM  IS TWO")
         (lit "The term is two years.") Verifier.DEFAULT_OPTIONS) = true.
Proof.
  apply normalised_snippet_matches.
  - vm_compute. lia.
  - vm_compute. reflexivity.
  - discriminate.
Defined.

(** ** The verification report *)

Lemma existsb_str_eqb (x : jsstring) (l : list jsstring) :
  existsb (str_eqb x) l = true <-> In x l.
Proof.
  rewrite existsb_exists. split.
  - intros (y & Hy & E). apply str_eqb_eq in E. now subst.
  - intro H. exists x. split; [exact H | apply str_eqb_refl].
Qed.

Lemma distinct_spec (l : list jsstring) :
  forall seen,
  NoDup (Verifier.distinct seen l)
  /\ forall x, In x (Verifier.distinct seen l) <-> In x l /\ ~ In x seen.
Proof.
  induction l as [|y l IH]; intro seen; simpl.
  - split; [constructor | intro x; tauto].
  - destruct (existsb (str_eqb y) seen) eqn:E.
    + apply existsb_str_eqb in E.
      destruct (IH seen) as [Hn Hi]. split; [exact Hn|].
      intro x. rewrite Hi. split; [tauto|].
      intros [[<-|Hx] Hs]; [contradiction | tauto].
    + assert (Hy : ~ In y seen).
      { intro H. apply existsb_str_eqb in H. congruence. }
      destruct (IH (y :: seen)) as [Hn Hi]. split.
      * constructor; [|exact Hn]. rewrite Hi. simpl. tauto.
      * intro x. simpl. rewrite Hi. simpl. split.
        -- intros [<-|[Hx Hs]]; tauto.
        -- intros [[<-|Hx] Hs]; [now left|].
           destruct (list_eq_dec ascii_dec y x) as [->|Hne]; [now left|].
           right. split; [exact Hx|]. intros [H|H]; contradiction.
Qed.

Lemma extractChunkIds_in_text (text : jsstring) (lastIndex : nat) :
  Forall (fun id => includes text id = true)
         (fst (Verifier.extractChunkIds text lastIndex)).
Proof.
  unfold Verifier.extractChunkIds.
  destruct (negb (truthy text)); [constructor|]. cbn [fst].
  apply Forall_forall. intros id Hid.
  apply (proj2 (distinct_spec _ [])) in Hid as [Hid _].
  apply in_map_iff in Hid as ([i e] & <- & _). apply includes_substring.
Qed.

Lemma extractChunkIds_NoDup (text : jsstring) (lastIndex : nat) :
  NoDup (fst (Verifier.extractChunkIds text lastIndex)).
Proof.
  unfold Verifier.extractChunkIds.
  destruct (negb (truthy text)); [constructor|]. cbn [fst].
  apply distinct_spec.
Qed.

(** The parts of the report, read off the function: the identifiers, the
    entries and the flagged sentences. *)
Lemma verify_report_parts (b : Ask.bundle) (answer : jsstring)
  (opts : Verifier.options) (lastIndex : nat) :
  let r := fst (Verifier.verifyResponseAgainstBundle
                  (Some b) answer opts lastIndex) in
  let cited := fst (Verifier.extractChunkIds answer lastIndex) in
  let chunkMap := Verifier.mapChunksById (Some b) in
  Verifier.cited_chunks r = cited
  /\ Verifier.unknown_chunk_ids r
     = filter (fun id => negb (Verifier.map_has id chunkMap)) cited
  /\ Verifier.num_cited_chunks (Verifier.stats_of r) = length cited
  /\ Verifier.num_chunks_in_bundle (Verifier.stats_of r)
     = length (Ask.chunks b)
  /\ ((Verifier.matched_snippets r = []
       /\ Verifier.missing_snippet_matches r = []
       /\ Verifier.potential_hallucinations r = [])
      \/ (Verifier.matched_snippets r, Verifier.missing_snippet_matches r)
         = fold_left
             (Verifier.citation_step chunkMap
                (Verifier.extractQuotedSnippets answer) answer opts)
             cited ([], [])
         /\ Verifier.potential_hallucinations r
            = fst (fold_left (Verifier.sentence_step opts)
                     (Verifier.sentences_of answer opts)
                     ([], snd (Verifier.extractChunkIds answer lastIndex)))).
Proof.
  unfold Verifier.verifyResponseAgainstBundle. cbv zeta.
  destruct (Verifier.extractChunkIds answer lastIndex) as [cited l1].
  cbn [fst snd].
  destruct (Verifier.failOnUnknownChunkId opts && _).
  - cbn. repeat split; auto.
  - destruct (fold_left (Verifier.citation_step _ _ _ _) cited ([], []))
      as [matched_ missing].
    destruct (fold_left (Verifier.sentence_step opts) _ ([], l1))
      as [flagged l2].
    cbn. repeat split; auto.
Qed.

(** X9: in every report the cited identifiers are pairwise different and
    each occurs in the answer, the unknown identifiers are the cited ones
    that the bundle lacks, in the order of citation, and the two counts are
    the number of cited identifiers and the number of chunks. *)
Theorem report_citations (b : Ask.bundle) (answer : jsstring)
  (opts : Verifier.options) (lastIndex : nat) :
  let r := fst (Verifier.verifyResponseAgainstBundle
                  (Some b) answer opts lastIndex) in
  NoDup (Verifier.cited_chunks r)
  /\ Forall (fun id => includes answer id = true) (Verifier.cited_chunks r)
  /\ Verifier.unknown_chunk_ids r
     = filter (fun id =>
                 negb (Verifier.map_has id (Verifier.mapChunksById (Some b))))
              (Verifier.cited_chunks r)
  /\ Verifier.num_cited_chunks (Verifier.stats_of r)
     = length (Verifier.cited_chunks r)
  /\ Verifier.num_chunks_in_bundle (Verifier.stats_of r)
     = length (Ask.chunks b).
Proof.
  destruct (verify_report_parts b answer opts lastIndex)
    as (Hc & Hu & Hn & Hm & _).
  cbv zeta. rewrite Hc.
  split; [apply extractChunkIds_NoDup|].
  split; [apply extractChunkIds_in_text|]. auto.
Qed.

(** The entries that contribute an identifier to
    [missing_snippet_matches]. *)
Lemma citation_step_shape (chunkMap : Verifier.Map)
  (quotedSnippets : list jsstring) (responseText : jsstring)
  (opts : Verifier.options)
  (acc : list Verifier.snippet_match * list jsstring) (id : jsstring) :
  exists entry,
    Verifier.citation_step chunkMap quotedSnippets responseText opts acc id
    = (fst acc ++ [entry],
       snd acc ++ (if negb (Verifier.matched entry)
                      && Verifier.map_has id chunkMap
                   then [id] else []))
    /\ Verifier.sm_chunk_id entry = id
    /\ (Verifier.matched entry = true -> Verifier.map_has id chunkMap = true).
Proof.
  unfold Verifier.citation_step, Verifier.map_has.
  destruct (Verifier.map_get id chunkMap) as [chunk|];
    [destruct (Verifier.first_match _ _ _) as [[snippet mt]|];
     [|destruct (Verifier.probe_found _ _)]|];
    match goal with
    | |- exists entry, (_ ++ [?e], _) = _ /\ _ => exists e
    end; cbn; rewrite ?app_nil_r; repeat split; auto; discriminate.
Qed.

Lemma citation_fold (chunkMap : Verifier.Map)
  (quotedSnippets : list jsstring) (responseText : jsstring)
  (opts : Verifier.options) (ids : list jsstring) :
  forall acc,
  let unmatched_known := fun m =>
    negb (Verifier.matched m)
    && Verifier.map_has (Verifier.sm_chunk_id m) chunkMap in
  let out := fold_left
               (Verifier.citation_step chunkMap quotedSnippets responseText
                                       opts) ids acc in
  exists entries,
    fst out = fst acc ++ entries
    /\ map Verifier.sm_chunk_id entries = ids
    /\ snd out
       = snd acc ++ map Verifier.sm_chunk_id (filter unmatched_known entries)
    /\ Forall (fun m => Verifier.matched m = true ->
                 Verifier.map_has (Verifier.sm_chunk_id m) chunkMap = true)
              entries.
Proof.
  induction ids as [|id ids IH]; intro acc; cbv zeta; cbn [fold_left].
  - exists []. cbn. rewrite !app_nil_r. auto.
  - destruct (citation_step_shape chunkMap quotedSnippets responseText opts
                acc id) as (entry & Hstep & Hid & Hm).
    rewrite Hstep.
    destruct (IH (fst acc ++ [entry],
                  snd acc ++ (if negb (Verifier.matched entry)
                                 && Verifier.map_has id chunkMap
                              then [id] else [])))
      as (entries & H1 & H2 & H3 & H4).
    cbv zeta in *. cbn [fst snd] in *.
    exists (entry :: entries).
    rewrite H1, H3, <- !app_assoc. cbn [app map filter].
    rewrite Hid, H2. split; [reflexivity|]. split; [reflexivity|].
    split.
    + destruct (negb (Verifier.matched entry) && Verifier.map_has id chunkMap);
        cbn [map app]; now rewrite ?Hid.
    + constructor; [now rewrite Hid | exact H4].
Qed.

Lemma first_match_found (snippets : list jsstring) (text : jsstring)
  (opts : Verifier.options) :
  match Verifier.first_match snippets text opts with
  | Some (snippet, mt) =>
      In snippet snippets
      /\ Verifier.doesSnippetMatchChunk snippet text opts = (true, mt)
  | None => True
  end
  /\ existsb (fun snippet =>
                fst (Verifier.doesSnippetMatchChunk snippet text opts))
             snippets
     = match Verifier.first_match snippets text opts with
       | Some _ => true
       | None => false
       end.
Proof.
  induction snippets as [|sn rest IH]; cbn [Verifier.first_match existsb].
  - auto.
  - destruct (Verifier.doesSnippetMatchChunk sn text opts) as [[|] mt] eqn:E;
      cbn [fst snd orb].
    + split; [|reflexivity]. split; [now left | exact E].
    + destruct IH as [IH1 IH2]. split; [|exact IH2].
      destruct (Verifier.first_match rest text opts) as [[snippet mt']|];
        [|exact I].
      destruct IH1 as [Hin Hm]. split; [now right | exact Hm].
Qed.

(** The entry that step 4 pushes for an identifier is matched exactly when
    the answer supports the chunk. *)
Lemma citation_step_supported (chunkMap : Verifier.Map) (answer : jsstring)
  (opts : Verifier.options)
  (acc : list Verifier.snippet_match * list jsstring) (id : jsstring) :
  let P := fun m =>
    Verifier.matched m
    = supported chunkMap answer opts (Verifier.sm_chunk_id m) in
  Forall P (fst acc) ->
  Forall P (fst (Verifier.citation_step chunkMap
                   (Verifier.extractQuotedSnippets answer) answer opts
                   acc id)).
Proof.
  intros P Hacc. unfold Verifier.citation_step.
  assert (Hone : forall e, P e -> Forall P (fst acc ++ [e])).
  { intros e He. apply Forall_app. split; [exact Hacc|].
    constructor; [exact He | constructor]. }
  destruct (Verifier.map_get id chunkMap) as [chunk|] eqn:G.
  - pose proof (proj2 (first_match_found
                         (Verifier.extractQuotedSnippets answer)
                         (Ask.text chunk) opts)) as Hex.
    destruct (Verifier.first_match _ (Ask.text chunk) opts)
      as [[snippet mt]|].
    + cbn [fst]. apply Hone. unfold P, supported.
      cbn [Verifier.matched Verifier.sm_chunk_id]. now rewrite G, Hex.
    + destruct (Verifier.probe_found (Ask.text chunk) answer) eqn:Pr;
        cbn [fst]; apply Hone; unfold P, supported;
        cbn [Verifier.matched Verifier.sm_chunk_id];
        now rewrite G, Hex, Pr.
  - cbn [fst]. apply Hone. unfold P, supported.
    cbn [Verifier.matched Verifier.sm_chunk_id]. now rewrite G.
Qed.

Lemma citation_fold_supported (chunkMap : Verifier.Map) (answer : jsstring)
  (opts : Verifier.options) (ids : list jsstring) :
  forall acc,
  let P := fun m =>
    Verifier.matched m
    = supported chunkMap answer opts (Verifier.sm_chunk_id m) in
  Forall P (fst acc) ->
  Forall P (fst (fold_left
                   (Verifier.citation_step chunkMap
                      (Verifier.extractQuotedSnippets answer) answer opts)
                   ids acc)).
Proof.
  induction ids as [|id ids IH]; intros acc P Hacc; cbn [fold_left].
  - exact Hacc.
  - apply IH. now apply citation_step_supported.
Qed.

(** The two ways in which the report is built: it stops before step 3
    exactly when unknown identifiers are to fail it and there is one. *)
Lemma verify_report_steps (b : Ask.bundle) (answer : jsstring)
  (opts : Verifier.options) (lastIndex : nat) :
  let r := fst (Verifier.verifyResponseAgainstBundle
                  (Some b) answer opts lastIndex) in
  if Verifier.failOnUnknownChunkId opts
     && Verifier.nonempty (Verifier.unknown_chunk_ids r)
  then Verifier.matched_snippets r = []
       /\ Verifier.missing_snippet_matches r = []
       /\ Verifier.potential_hallucinations r = []
       /\ Verifier.ok r = false
  else (Verifier.matched_snippets r, Verifier.missing_snippet_matches r)
       = fold_left
           (Verifier.citation_step (Verifier.mapChunksById (Some b))
              (Verifier.extractQuotedSnippets answer) answer opts)
           (Verifier.cited_chunks r) ([], []).
Proof.
  unfold Verifier.verifyResponseAgainstBundle. cbv zeta.
  destruct (Verifier.extractChunkIds answer lastIndex) as [cited l1].
  destruct (Verifier.failOnUnknownChunkId opts
            && Verifier.nonempty (filter _ cited)) eqn:E.
  - cbn [fst Verifier.unknown_chunk_ids Verifier.matched_snippets
         Verifier.missing_snippet_matches Verifier.potential_hallucinations
         Verifier.ok].
    rewrite E. auto.
  - destruct (fold_left (Verifier.citation_step _ _ _ _) cited ([], []))
      as [matched_ missing] eqn:F.
    destruct (fold_left (Verifier.sentence_step opts) _ ([], l1))
      as [flagged l2].
    cbn [fst Verifier.unknown_chunk_ids Verifier.matched_snippets
         Verifier.missing_snippet_matches Verifier.cited_chunks].
    rewrite E. now rewrite F.
Qed.

(** X10: the report stops before step 3, with no entry of
    [matched_snippets] and [ok] false, exactly when unknown identifiers are
    to fail it and one is cited; otherwise it holds one entry of
    [matched_snippets] for each cited identifier, in the order of citation.
    An entry is matched exactly when its chunk exists and the answer quotes
    it or holds the beginning of its text;
    [missing_snippet_matches] lists, in the order of citation, the
    identifiers of the entries that are not matched although their chunk
    exists; and the chunk of a matched entry always exists in the bundle. *)
Theorem report_snippet_entries (b : Ask.bundle) (answer : jsstring)
  (opts : Verifier.options) (lastIndex : nat) :
  let r := fst (Verifier.verifyResponseAgainstBundle
                  (Some b) answer opts lastIndex) in
  let known := fun id =>
    Verifier.map_has id (Verifier.mapChunksById (Some b)) in
  (if Verifier.failOnUnknownChunkId opts
      && Verifier.nonempty (Verifier.unknown_chunk_ids r)
   then Verifier.matched_snippets r = [] /\ Verifier.ok r = false
   else map Verifier.sm_chunk_id (Verifier.matched_snippets r)
        = Verifier.cited_chunks r)
  /\ Forall (fun m =>
               Verifier.matched m
               = supported (Verifier.mapChunksById (Some b)) answer opts
                           (Verifier.sm_chunk_id m))
            (Verifier.matched_snippets r)
  /\ Verifier.missing_snippet_matches r
     = map Verifier.sm_chunk_id
         (filter (fun m => negb (Verifier.matched m)
                           && known (Verifier.sm_chunk_id m))
                 (Verifier.matched_snippets r))
  /\ Forall (fun m => Verifier.matched m = true ->
               known (Verifier.sm_chunk_id m) = true)
            (Verifier.matched_snippets r).
Proof.
  pose proof (verify_report_steps b answer opts lastIndex) as Hsteps.
  cbv zeta in *.
  destruct (Verifier.failOnUnknownChunkId opts && _).
  - destruct Hsteps as (Hm & Hs & _ & Hok). rewrite Hm, Hs.
    split; [auto|]. split; [constructor|].
    split; [reflexivity | constructor].
  - destruct (citation_fold (Verifier.mapChunksById (Some b))
                (Verifier.extractQuotedSnippets answer) answer opts
                (Verifier.cited_chunks
                   (fst (Verifier.verifyResponseAgainstBundle
                           (Some b) answer opts lastIndex))) ([], []))
      as (entries & H1 & H2 & H3 & H4).
    pose proof (@citation_fold_supported (Verifier.mapChunksById (Some b))
                  answer opts
                  (Verifier.cited_chunks
                     (fst (Verifier.verifyResponseAgainstBundle
                             (Some b) answer opts lastIndex)))
                  ([], []) (Forall_nil _)) as H5.
    cbv zeta in *. rewrite <- Hsteps in H1, H3, H5.
    cbn [fst snd app] in *.
    rewrite H1 in H5. rewrite H1, H3.
    split; [exact H2|]. split; [exact H5|].
    split; [reflexivity | exact H4].
Qed.

(** The sentences that step 5 flags. *)
Lemma sentence_fold (opts : Verifier.options) (all : list jsstring)
  (sents : list jsstring) :
  forall acc,
  incl sents all ->
  exists flagged,
    fst (fold_left (Verifier.sentence_step opts) sents acc)
    = fst acc ++ flagged
    /\ length flagged <= length sents
    /\ Forall (fun h =>
                 In (Verifier.sentence h) all
                 /\ exists kw,
                      In kw (Verifier.legalKeywords opts)
                      /\ includes (toLowerCase (Verifier.sentence h)) kw
                         = true
                      /\ Verifier.reason h = Verifier.reason_for kw)
              flagged.
Proof.
  induction sents as [|s sents IH]; intros acc Hin; cbn [fold_left].
  - exists []. rewrite app_nil_r. repeat split; auto.
  - assert (Hs : In s all) by (apply Hin; now left).
    assert (Hrest : incl sents all) by (intros x Hx; apply Hin; now right).
    destruct (IH (Verifier.sentence_step opts acc s) Hrest)
      as (flagged & H1 & H2 & H3).
    unfold Verifier.sentence_step in *.
    destruct (fst (test Verifier.CHUNK_ID_REGEX s (snd acc))).
    + exists flagged. cbn [fst] in H1. repeat split; auto. simpl. lia.
    + destruct (find _ (Verifier.legalKeywords opts)) as [kw|] eqn:F.
      * cbn [fst] in H1. rewrite <- app_assoc in H1.
        exists ([Verifier.Hallucination s (Verifier.reason_for kw)]
                ++ flagged).
        split; [exact H1|]. split; [simpl; lia|].
        constructor; [|exact H3]. cbn [Verifier.sentence Verifier.reason].
        split; [exact Hs|]. exists kw.
        apply find_some in F as [Hk Hi]. auto.
      * exists flagged. cbn [fst] in H1. repeat split; auto. simpl. lia.
Qed.

(** X11: every entry of [potential_hallucinations] is one of the trimmed
    sentences of the answer, contains one of the keywords when put in lower
    case, and names that keyword in its reason; there are no more entries
    than sentences. *)
Theorem report_flagged_sentences (b : Ask.bundle) (answer : jsstring)
  (opts : Verifier.options) (lastIndex : nat) :
  let r := fst (Verifier.verifyResponseAgainstBundle
                  (Some b) answer opts lastIndex) in
  length (Verifier.potential_hallucinations r)
  <= length (Verifier.sentences_of answer opts)
  /\ Forall (fun h =>
               In (Verifier.sentence h) (Verifier.sentences_of answer opts)
               /\ exists kw,
                    In kw (Verifier.legalKeywords opts)
                    /\ includes (toLowerCase (Verifier.sentence h)) kw = true
                    /\ Verifier.reason h = Verifier.reason_for kw)
            (Verifier.potential_hallucinations r).
Proof.
  destruct (verify_report_parts b answer opts lastIndex)
    as (_ & _ & _ & _ & [(_ & _ & Hh) | (_ & Hh)]); cbv zeta in *;
    rewrite Hh.
  - split; [simpl; lia | constructor].
  - destruct (@sentence_fold opts (Verifier.sentences_of answer opts)
                (Verifier.sentences_of answer opts)
                ([], snd (Verifier.extractChunkIds answer lastIndex))
                (incl_refl _))
      as (flagged & H1 & H2 & H3).
    rewrite H1. cbn [fst app]. auto.
Qed.

Lemma coverage_bounds (cited chunks : nat) :
  (0 <= Verifier.coverage cited chunks)%Q
  /\ (Verifier.coverage cited chunks <= 1)%Q.
Proof.
  unfold Verifier.coverage. destruct cited as [|c].
  - split; [apply Qle_refl | discriminate].
  - split; [|apply Q.le_min_l].
    apply Q.min_glb; [discriminate|].
    unfold Qle. simpl. lia.
Qed.

(** X12: the citation coverage of every report lies between 0 and 1, also
    when more identifiers are cited than the bundle has chunks. *)
Theorem report_coverage_bounds (bundle : option Ask.bundle)
  (answer : jsstring) (opts : Verifier.options) (lastIndex : nat) :
  let cov := Verifier.citation_coverage
               (Verifier.stats_of
                  (fst (Verifier.verifyResponseAgainstBundle
                          bundle answer opts lastIndex))) in
  (0 <= cov)%Q /\ (cov <= 1)%Q.
Proof.
  unfold Verifier.verifyResponseAgainstBundle.
  destruct bundle as [b|]; [|cbn; split; [apply Qle_refl | discriminate]].
  destruct (Verifier.extractChunkIds answer lastIndex) as [cited l1].
  destruct (Verifier.failOnUnknownChunkId opts && _);
    [cbn; split; [apply Qle_refl | discriminate]|].
  destruct (fold_left (Verifier.citation_step _ _ _ _) cited ([], []))
    as [matched_ missing].
  destruct (fold_left (Verifier.sentence_step opts) _ ([], l1))
    as [flagged l2].
  cbn. apply coverage_bounds.
Qed.

(** ** The report for a question *)

Lemma distinct_In (l : list jsstring) (x : jsstring) :
  In x (Verifier.distinct [] l) <-> In x l.
Proof. rewrite (proj2 (distinct_spec l [])). simpl. tauto. Qed.

(** The retrieved identifiers for which the loop pushes an entry are the
    ones whose chunk the answer supports. *)
Lemma retrieved_fold (chunkMap : Verifier.Map) (answer : jsstring)
  (opts : Verifier.options) (rids : list jsstring) :
  forall acc,
  let out := fold_left (Verifier.retrieved_step chunkMap answer opts)
                       rids acc in
  map Verifier.rm_chunk_id out
  = map Verifier.rm_chunk_id acc
    ++ filter (supported chunkMap answer opts) rids
  /\ (Forall (fun m => supported chunkMap answer opts
                                 (Verifier.rm_chunk_id m) = true) acc ->
      Forall (fun m => supported chunkMap answer opts
                                 (Verifier.rm_chunk_id m) = true) out).
Proof.
  induction rids as [|rid rids IH]; intro acc; cbv zeta; cbn [fold_left].
  - cbn [filter]. now rewrite app_nil_r.
  - destruct (IH (Verifier.retrieved_step chunkMap answer opts acc rid))
      as [IH1 IH2].
    cbv zeta in IH1, IH2.
    assert (Hstep :
      Verifier.retrieved_step chunkMap answer opts acc rid
      = acc ++ (if supported chunkMap answer opts rid
                then match Verifier.retrieved_step chunkMap answer opts
                             [] rid with
                     | m :: _ => [m]
                     | [] => []
                     end
                else [])
      /\ (supported chunkMap answer opts rid = true ->
          exists m, Verifier.retrieved_step chunkMap answer opts [] rid = [m]
                    /\ Verifier.rm_chunk_id m = rid)).
    { unfold Verifier.retrieved_step, supported.
      destruct (Verifier.map_get rid chunkMap) as [chunk|];
        [|split; [now rewrite app_nil_r | discriminate]].
      pose proof (proj2 (first_match_found
                           (Verifier.extractQuotedSnippets answer)
                           (Ask.text chunk) opts)) as Hex.
      rewrite Hex.
      destruct (Verifier.first_match _ (Ask.text chunk) opts)
        as [[snippet mt]|]; cbn [orb app].
      - split; [reflexivity|]. intros _. now eexists.
      - destruct (Verifier.probe_found (Ask.text chunk) answer);
          cbn [app].
        + split; [reflexivity|]. intros _. now eexists.
        + split; [now rewrite app_nil_r | discriminate]. }
    destruct Hstep as [Hstep Hentry].
    cbn [filter]. split.
    + rewrite IH1, Hstep, map_app, <- app_assoc. f_equal.
      destruct (supported chunkMap answer opts rid) eqn:S;
        [|reflexivity].
      destruct (Hentry eq_refl) as (m & -> & <-). reflexivity.
    + intro Hacc. apply IH2. rewrite Hstep. apply Forall_app.
      split; [exact Hacc|].
      destruct (supported chunkMap answer opts rid) eqn:S;
        [|constructor].
      destruct (Hentry eq_refl) as (m & -> & Hm).
      constructor; [now rewrite Hm | constructor].
Qed.

Lemma filter_nonempty (A : Type) (p : A -> bool) (l : list A) :
  filter p l <> [] <-> exists x, In x l /\ p x = true.
Proof.
  split.
  - intro H. destruct (filter p l) as [|x t] eqn:F; [contradiction|].
    exists x. apply filter_In. rewrite F. now left.
  - intros (x & Hx & Hp) F.
    assert (Hin : In x (filter p l)) by now apply filter_In.
    now rewrite F in Hin.
Qed.

(** X13: [verifyQAAnswer] changes nothing of the base report but [ok],
    and leaves the same [lastIndex]; its [ok] holds only if the base [ok]
    holds and [cites_retrieved] holds; [cites_retrieved] holds exactly when
    an identifier is both cited and retrieved, or the answer supports the
    chunk of a retrieved identifier: the chunk exists and the answer quotes
    it or holds the beginning of its text.  When an identifier is both cited
    and retrieved the retrieved chunks are not searched for; otherwise
    [matched_from_retrieved] holds one entry for each retrieved identifier
    whose chunk the answer supports, in the order of retrieval, and is
    absent when there is none. *)
Theorem qa_report_extends_base (bundle : option Ask.bundle)
  (answer : jsstring) (retrievedChunkIds : list jsstring)
  (opts : Verifier.options) (lastIndex : nat) :
  let r0 := Verifier.verifyResponseAgainstBundle
              bundle answer opts lastIndex in
  let q := Verifier.verifyQAAnswer bundle answer retrievedChunkIds opts
                                   lastIndex in
  let backed := supported (Verifier.mapChunksById bundle) answer opts in
  Verifier.base (fst q)
  = Verifier.with_ok (Verifier.ok (Verifier.base (fst q))) (fst r0)
  /\ snd q = snd r0
  /\ (Verifier.ok (Verifier.base (fst q)) = true <->
        Verifier.ok (fst r0) = true /\ Verifier.cites_retrieved (fst q) = true)
  /\ (forall id,
        In id (Verifier.cited_retrieved_intersection (fst q)) <->
        In id (Verifier.cited_chunks (fst r0)) /\ In id retrievedChunkIds)
  /\ (Verifier.cites_retrieved (fst q) = true <->
        Verifier.cited_retrieved_intersection (fst q) <> []
        \/ exists rid, In rid retrievedChunkIds /\ backed rid = true)
  /\ (Verifier.cited_retrieved_intersection (fst q) <> [] ->
        Verifier.matched_from_retrieved (fst q) = None)
  /\ (Verifier.cited_retrieved_intersection (fst q) = [] ->
        match Verifier.matched_from_retrieved (fst q) with
        | Some found =>
            found <> []
            /\ map Verifier.rm_chunk_id found
               = filter backed retrievedChunkIds
        | None => filter backed retrievedChunkIds = []
        end).
Proof.
  cbv zeta. unfold Verifier.verifyQAAnswer.
  destruct (Verifier.verifyResponseAgainstBundle bundle answer opts lastIndex)
    as [r0 l0].
  cbv zeta. cbn [fst snd Verifier.base Verifier.cites_retrieved
                 Verifier.cited_retrieved_intersection
                 Verifier.matched_from_retrieved].
  set (inter := filter _ (Verifier.distinct [] (Verifier.cited_chunks r0))).
  set (found := if negb (Verifier.nonempty inter) && _ then _ else []).
  set (backed := supported (Verifier.mapChunksById bundle) answer opts).
  split; [reflexivity|]. split; [reflexivity|].
  split; [unfold Verifier.with_ok; cbn [Verifier.ok];
          now rewrite andb_true_iff|].
  split.
  { intro id. subst inter. rewrite filter_In, distinct_In, existsb_str_eqb.
    now rewrite distinct_In. }
  assert (Hfound : Verifier.nonempty inter = true -> found = []).
  { intro H. subst found. now rewrite H. }
  assert (Hsearch : inter = [] ->
            map Verifier.rm_chunk_id found = filter backed retrievedChunkIds).
  { intro H. subst found. rewrite H. cbn [Verifier.nonempty negb andb].
    destruct retrievedChunkIds as [|rid rids]; [reflexivity|].
    cbn [length Nat.ltb Nat.leb].
    exact (proj1 (retrieved_fold (Verifier.mapChunksById bundle) answer opts
                    (rid :: rids) [])). }
  split; [|split].
  - destruct inter as [|i inter']; cbn [Verifier.nonempty] in *.
    + specialize (Hsearch eq_refl).
      rewrite <- (filter_nonempty backed retrievedChunkIds), <- Hsearch.
      destruct found; cbn [Verifier.nonempty map]; split; intro H;
        try discriminate; try reflexivity.
      * destruct H as [H|H]; now contradiction H.
      * right. discriminate.
    + rewrite (Hfound eq_refl). cbn [Verifier.nonempty].
      split; [intros _; left; discriminate | reflexivity].
  - intro H. destruct inter; [contradiction|].
    now rewrite (Hfound eq_refl).
  - intro H. specialize (Hsearch H).
    destruct found as [|m found']; cbn [Verifier.nonempty].
    + now rewrite <- Hsearch.
    + split; [discriminate | exact Hsearch].
Qed.

(** ** The post-check of the route *)

Lemma citation_loop_spec (answerText : jsstring) (ids rest : list jsstring) :
  Ask.citation_loop answerText ids rest
  = if existsb (includes answerText) rest
    then Ask.CitationCheck true (filter (includes answerText) ids)
    else Ask.CitationCheck false [].
Proof.
  induction rest as [|id rest IH]; simpl; [reflexivity|].
  destruct (includes answerText id); [reflexivity | exact IH].
Qed.

Lemma filter_nil_iff (A : Type) (p : A -> bool) (l : list A) :
  filter p l = [] <-> existsb p l = false.
Proof.
  induction l as [|x l IH]; simpl; [tauto|].
  destruct (p x); simpl; [split; discriminate | exact IH].
Qed.

(** X14: [checkForCitations] reports as [cited_ids] the retrieved
    identifiers that occur in the answer, in the order of retrieval, and
    [cited] holds exactly when there is one. *)
Theorem checkForCitations_spec (answerText : jsstring)
  (top : list Ask.retrieved) :
  let ids := map (fun r => Ask.chunk_id (Ask.r_chunk r)) top in
  let check := Ask.checkForCitations answerText top in
  Ask.cited_ids check = filter (includes answerText) ids
  /\ (Ask.cited check = true <-> Ask.cited_ids check <> [])
  /\ (Ask.cited check = true <->
        exists id, In id ids /\ includes answerText id = true).
Proof.
  cbv zeta. unfold Ask.checkForCitations. rewrite citation_loop_spec.
  set (ids := map _ top).
  destruct (existsb (includes answerText) ids) eqn:E;
    cbn [Ask.cited Ask.cited_ids].
  - split; [reflexivity|]. split.
    + split; [|reflexivity]. intros _ H.
      apply filter_nil_iff in H. congruence.
    + split; [|reflexivity]. intros _. now apply existsb_exists.
  - split; [symmetry; now apply filter_nil_iff|]. split.
    + split; [discriminate | intro H; now contradiction H].
    + split; [discriminate|]. intro H. apply existsb_exists in H. congruence.
Qed.

(** X15: whenever the verifier finds an identifier that is both cited in
    the answer and retrieved, the post-check of the route also reports the
    answer as cited and lists that identifier. *)
Theorem verifier_citation_implies_route_citation
  (bundle : option Ask.bundle) (answer : jsstring)
  (top : list Ask.retrieved) (opts : Verifier.options) (lastIndex : nat)
  (id : jsstring) :
  In id (Verifier.cited_retrieved_intersection
           (fst (Verifier.verifyQAAnswer bundle answer
                   (map (fun r => Ask.chunk_id (Ask.r_chunk r)) top)
                   opts lastIndex))) ->
  Ask.cited (Ask.checkForCitations answer top) = true
  /\ In id (Ask.cited_ids (Ask.checkForCitations answer top)).
Proof.
  unfold Verifier.verifyQAAnswer.
  destruct (Verifier.verifyResponseAgainstBundle bundle answer opts lastIndex)
    as [r0 l0] eqn:Hr.
  cbv zeta. cbn [fst Verifier.cited_retrieved_intersection].
  rewrite filter_In, distinct_In, existsb_str_eqb, distinct_In.
  intros [Hc Hre].
  assert (Hinc : includes answer id = true).
  { assert (Hall : Forall (fun x => includes answer x = true)
                          (Verifier.cited_chunks r0)).
    { replace r0 with (fst (Verifier.verifyResponseAgainstBundle
                              bundle answer opts lastIndex))
        by now rewrite Hr.
      unfold Verifier.verifyResponseAgainstBundle.
      destruct bundle as [b|]; [|constructor].
      pose proof (extractChunkIds_in_text answer lastIndex) as Hx.
      destruct (Verifier.extractChunkIds answer lastIndex) as [cited l1].
      destruct (Verifier.failOnUnknownChunkId opts && _); [exact Hx|].
      destruct (fold_left (Verifier.citation_step _ _ _ _) cited ([], []))
        as [matched_ missing].
      destruct (fold_left (Verifier.sentence_step opts) _ ([], l1))
        as [flagged l2].
      exact Hx. }
    rewrite Forall_forall in Hall. now apply Hall. }
  unfold Ask.checkForCitations. rewrite citation_loop_spec.
  assert (E : existsb (includes answer)
                (map (fun r => Ask.chunk_id (Ask.r_chunk r)) top) = true).
  { apply existsb_exists. now exists id. }
  rewrite E. cbn [Ask.cited Ask.cited_ids]. split; [reflexivity|].
  apply filter_In. auto.
Qed.

(** X15 on the answer that cites the chunk of [bundle_x], retrieved. *)
Lemma verifier_citation_witness :
  Ask.cited
    (Ask.checkForCitations (lit "See bundle-x-chunk-1.")
       [Ask.Retrieved (Ask.Chunk (lit "bundle-x-chunk-1")
                                 (lit "The term is two years.") None None)
                      0%float (lit "The term is two years.")]) = true.
Proof.
  apply (verifier_citation_implies_route_citation (Some bundle_x)
           (lit "See bundle-x-chunk-1.")
           [Ask.Retrieved (Ask.Chunk (lit "bundle-x-chunk-1")
                                     (lit "The term is two years.") None None)
                          0%float (lit "The term is two years.")]
           Verifier.DEFAULT_OPTIONS 0 (lit "bundle-x-chunk-1")).
  vm_compute. now left.
Defined.

(** ** What the patterns match *)

Lemma advance_nil (n : nat) (b : list ascii) :
  advance n (Cursor b []) = Cursor b [].
Proof. now destruct n. Qed.

Lemma advance_advance (n m : nat) :
  forall c, advance m (advance n c) = advance (n + m) c.
Proof.
  induction n as [|n IH]; intros [b a]; cbn [advance after before Nat.add].
  - reflexivity.
  - destruct a as [|x a]; [apply advance_nil | apply IH].
Qed.

Lemma advance_spec (n : nat) :
  forall c, n <= length (after c) ->
  pos (advance n c) = pos c + n
  /\ after (advance n c) = skipn n (after c)
  /\ rev (before (advance n c)) ++ after (advance n c)
     = rev (before c) ++ after c.
Proof.
  induction n as [|n IH]; intros [b a] H; cbn [advance after before] in *.
  - unfold pos. cbn. split; [lia | split; reflexivity].
  - destruct a as [|x a]; [simpl in H; lia|].
    destruct (IH (Cursor (x :: b) a)) as (H1 & H2 & H3);
      [simpl in *; lia|].
    split; [|split].
    + rewrite H1. unfold pos. simpl. lia.
    + rewrite H2. reflexivity.
    + rewrite H3. simpl. now rewrite <- app_assoc.
Qed.

Lemma startsWith_length (p s : jsstring) :
  startsWith p s = true -> length p <= length s.
Proof.
  intro H. apply startsWith_iff in H as [post ->].
  rewrite length_app. lia.
Qed.

Lemma run_length_le (p : ascii -> bool) (a : list ascii) :
  forall hi, run_length p hi a <= length a.
Proof.
  induction a as [|x a IH]; intro hi.
  - destruct hi as [[|h]|]; simpl; lia.
  - destruct hi as [[|h]|]; simpl; [lia | |];
      destruct (p x); simpl; try lia.
    + specialize (IH (Some h)). simpl in IH. lia.
    + specialize (IH None). simpl in IH. lia.
Qed.

Lemma run_length_bound (p : ascii -> bool) (a : list ascii) :
  forall h, run_length p (Some h) a <= h.
Proof.
  induction a as [|x a IH]; intros [|h]; simpl; try lia.
  destruct (p x); [|lia]. specialize (IH h). simpl. lia.
Qed.

Lemma run_length_all (p : ascii -> bool) (a : list ascii) :
  forall hi n, n <= run_length p hi a -> forallb p (firstn n a) = true.
Proof.
  induction a as [|x a IH]; intros hi n H.
  - now rewrite firstn_nil.
  - destruct n as [|n]; [reflexivity|].
    assert (Hx : p x = true /\ n <= run_length p (option_map Nat.pred hi) a).
    { destruct hi as [[|h]|]; simpl in H; try lia;
        destruct (p x); simpl in *; try lia; split; auto; lia. }
    destruct Hx as [Hx Hn]. cbn [firstn forallb]. rewrite Hx.
    now apply (IH (option_map Nat.pred hi)).
Qed.

Lemma try_down_some (A : Type) (lo : nat) (c : cursor)
  (k : cursor -> option A) (x : A) :
  forall n, try_down n lo c k = Some x ->
  exists n', lo <= n' /\ n' <= n /\ k (advance n' c) = Some x.
Proof.
  induction n as [|n IH]; cbn [try_down]; intro H.
  - destruct (Nat.ltb_spec 0 lo); [discriminate|].
    destruct (k (advance 0 c)) eqn:K; [|discriminate].
    exists 0. repeat split; try lia. now rewrite K.
  - destruct (Nat.ltb_spec (S n) lo); [discriminate|].
    destruct (k (advance (S n) c)) eqn:K.
    + exists (S n). repeat split; try lia. now rewrite K.
    + apply IH in H as (n' & H1 & H2 & H3). exists n'.
      repeat split; auto.
Qed.

(** A match spans at least [min_width] characters, all of them of the
    subject. *)
Lemma run_width (r : regex) :
  forall (A : Type) (c : cursor) (k : cursor -> option A) (x : A),
  run r c k = Some x ->
  exists n,
    min_width r <= n /\ n <= length (after c)
    /\ k (advance n c) = Some x.
Proof.
  induction r as [|p|s|r1 IH1 r2 IH2|r1 IH1 r2 IH2|p lo hi| |ps|r IH|];
    intros A c k x H; cbn [run min_width] in *.
  - exists 0. repeat split; auto; lia.
  - destruct c as [b [|y a]]; cbn [after before] in *; [discriminate|].
    destruct (p y); [|discriminate].
    exists 1. cbn. repeat split; auto; lia.
  - destruct (startsWith s (after c)) eqn:S; [|discriminate].
    exists (length s). repeat split; auto. now apply startsWith_length.
  - apply IH1 in H as (n1 & Hm1 & Hl1 & H).
    apply IH2 in H as (n2 & Hm2 & Hl2 & H).
    destruct (@advance_spec n1 c Hl1) as (_ & Ha & _).
    rewrite Ha, length_skipn in Hl2.
    exists (n1 + n2). rewrite <- advance_advance.
    repeat split; auto; lia.
  - destruct (run r1 c k) eqn:R1.
    + injection H as ->. apply IH1 in R1 as (n & Hm & Hl & Hk).
      exists n. repeat split; auto; lia.
    + apply IH2 in H as (n & Hm & Hl & Hk).
      exists n. repeat split; auto; lia.
  - apply try_down_some in H as (n & H1 & H2 & H3).
    exists n. pose proof (run_length_le p (after c) hi).
    repeat split; auto; lia.
  - destruct (xorb _ _); [|discriminate].
    exists 0. repeat split; auto; lia.
  - destruct (all_classes _ _); [|discriminate].
    exists 0. repeat split; auto; lia.
  - destruct (run r c (fun e => Some e)); [|discriminate].
    exists 0. repeat split; auto; lia.
  - destruct (after c); [|discriminate].
    exists 0. repeat split; auto; lia.
Qed.

(** Every match that the pass over the subject reports is a match of the
    pattern at its start position. *)
Lemma scan_hits (r : regex) (s : jsstring) (i e : nat) (a : list ascii) :
  forall b cur skip,
  rev b ++ a = s ->
  In (Hit i e) (scan r b a cur skip) ->
  exists b' a',
    rev b' ++ a' = s /\ length b' = i
    /\ match_at r (Cursor b' a') = Some e.
Proof.
  induction a as [|x a IH]; intros b cur skip Hs Hin; cbn [scan] in Hin.
  - destruct Hin as [H|[]]. discriminate.
  - assert (Hs' : rev (x :: b) ++ a = s)
      by (cbn [rev]; now rewrite <- app_assoc).
    destruct skip as [|skip]; [|now apply (IH _ _ _ Hs' Hin)].
    destruct (match_at r (Cursor b (x :: a))) as [e0|] eqn:M;
      [|now apply (IH _ _ _ Hs' Hin)].
    destruct (length b <? e0); [|now apply (IH _ _ _ Hs' Hin)].
    destruct Hin as [H|[H|Hin]]; [discriminate | |].
    + injection H as <- <-. exists b, (x :: a). auto.
    + now apply (IH _ _ _ Hs' Hin).
Qed.

Lemma execAll_hits (r : regex) (s : jsstring) (lastIndex i e : nat) :
  In (i, e) (execAll r s lastIndex) ->
  exists b' a',
    rev b' ++ a' = s /\ length b' = i
    /\ match_at r (Cursor b' a') = Some e.
Proof.
  unfold execAll. destruct (length s <? lastIndex); [contradiction|].
  unfold hits. rewrite in_flat_map. intros ([u|i0 e0] & Hin & Hx);
    [contradiction|].
  destruct Hx as [Hx|[]]. injection Hx as -> ->.
  eapply scan_hits; [|exact Hin].
  unfold start_of. cbn [before after].
  now rewrite rev_involutive, firstn_skipn.
Qed.

Lemma substring_at (b' a' : list ascii) (n : nat) :
  substring (rev b' ++ a') (length b') (length b' + n) = firstn n a'.
Proof.
  unfold substring.
  replace (length b' + n - length b') with n by lia.
  rewrite skipn_app, length_rev, Nat.sub_diag.
  rewrite skipn_all2 by (rewrite length_rev; lia). reflexivity.
Qed.

(** X16: every identifier that [extractChunkIds] returns begins with
    [bundle-], has at least 16 characters and occurs in the text; no
    identifier is returned twice; and a text that is not empty leaves the
    [lastIndex] of the global expression at 0. *)
Theorem extractChunkIds_shape (text : jsstring) (lastIndex : nat) :
  let ids := fst (Verifier.extractChunkIds text lastIndex) in
  NoDup ids
  /\ Forall (fun id =>
               startsWith (lit "bundle-") id = true
               /\ 16 <= length id
               /\ includes text id = true) ids
  /\ (text <> [] -> snd (Verifier.extractChunkIds text lastIndex) = 0).
Proof.
  cbv zeta. split; [apply extractChunkIds_NoDup|]. split.
  - pose proof (extractChunkIds_in_text text lastIndex) as Hinc.
    rewrite Forall_forall in *. intros id Hid.
    split; [|split; [|now apply Hinc]];
      unfold Verifier.extractChunkIds in Hid;
      destruct (negb (truthy text)); try contradiction; cbn [fst] in Hid;
      apply distinct_In, in_map_iff in Hid as ([i e] & <- & Hm);
      cbn [fst snd];
      apply execAll_hits in Hm as (b' & a' & <- & <- & Hm);
      unfold match_at in Hm;
      pose proof Hm as Hw;
      apply run_width in Hw as (n & Hmin & Hlen & He);
      injection He as <-;
      destruct (@advance_spec n (Cursor b' a') Hlen) as (Hp & _ & _);
      unfold pos in Hp at 2; cbn [before after] in Hp, Hlen;
      rewrite Hp, substring_at;
      change (min_width Verifier.CHUNK_ID_REGEX) with 16 in Hmin.
    + unfold Verifier.CHUNK_ID_REGEX in Hm. cbn [run before after] in Hm.
      destruct (xorb _ _); [|discriminate].
      destruct (startsWith (lit "bundle-") a') eqn:S; [|discriminate].
      apply startsWith_iff in S as [post ->].
      apply startsWith_iff. exists (firstn (n - 7) post).
      rewrite firstn_app. change (length (lit "bundle-")) with 7.
      rewrite firstn_all2 by (simpl; lia). reflexivity.
    + rewrite length_firstn. lia.
  - intro H. unfold Verifier.extractChunkIds.
    destruct text; [contradiction | reflexivity].
Qed.

Lemma quoted_match (q : ascii) (b' a' : list ascii) (e : nat) :
  match_at (Verifier.quoted q) (Cursor b' a') = Some e ->
  exists a1 a2 n,
    a' = q :: a1 /\ skipn n a1 = q :: a2
    /\ 5 <= n /\ n <= 500 /\ n <= length a1
    /\ forallb (fun c => negb (Ascii.eqb c q)) (firstn n a1) = true
    /\ e = length b' + n + 2.
Proof.
  unfold match_at, Verifier.quoted. cbn [run before after]. intro H.
  destruct (startsWith [q] a') eqn:S0; [|discriminate].
  apply startsWith_iff in S0 as [a1 ->].
  cbn [app length advance after before] in H.
  set (c1 := Cursor (q :: b') a1) in H.
  apply try_down_some in H as (n & Hlo & Hhi & H).
  pose proof (run_length_bound (fun c => negb (Ascii.eqb c q)) a1 500) as Hb.
  pose proof (run_length_le (fun c => negb (Ascii.eqb c q)) a1 (Some 500))
    as Hl.
  cbn [after c1] in Hhi.
  assert (Hn : n <= length (after c1)) by (cbn; lia).
  destruct (@advance_spec n c1 Hn) as (Hp & Ha & _).
  destruct (startsWith [q] (after (advance n c1))) eqn:S; [|discriminate].
  pose proof (startsWith_length _ _ S) as Hq. cbn [length] in Hq.
  destruct (@advance_spec 1 (advance n c1) Hq) as (Hp1 & _ & _).
  injection H as <-.
  apply startsWith_iff in S as [a2 S]. rewrite Ha in S. cbn [after c1] in S.
  exists a1, a2, n. split; [reflexivity|]. split; [exact S|].
  split; [exact Hlo|]. split; [lia|]. split; [cbn in Hn; exact Hn|].
  split; [now apply (run_length_all _ a1 (Some 500))|].
  change (pos (advance 1 (advance n c1)) = length b' + n + 2).
  rewrite Hp1, Hp. unfold pos, c1. cbn. lia.
Qed.

Lemma forallb_not_in (q : ascii) (s : list ascii) :
  forallb (fun c => negb (Ascii.eqb c q)) s = true -> ~ In q s.
Proof.
  intros H Hin. rewrite forallb_forall in H. specialize (H q Hin).
  now rewrite Ascii.eqb_refl in H.
Qed.

Lemma quoted_hits (q : ascii) (text : jsstring) (i e : nat) :
  In (i, e) (execAll (Verifier.quoted q) text 0) ->
  let sn := substring text (S i) (e - 1) in
  5 <= length sn /\ length sn <= 500
  /\ ~ In q sn
  /\ includes text ([q] ++ sn ++ [q]) = true.
Proof.
  intro H. apply execAll_hits in H as (b' & a' & <- & <- & Hm).
  apply quoted_match in Hm as (a1 & a2 & n & -> & Hs & H5 & H500 & Hl & Hall & ->).
  cbv zeta.
  assert (E : substring (rev b' ++ q :: a1) (S (length b'))
                        (length b' + n + 2 - 1) = firstn n a1).
  { change (rev b' ++ q :: a1) with (rev b' ++ [q] ++ a1).
    rewrite app_assoc. change (rev b' ++ [q]) with (rev (q :: b')).
    replace (length b' + n + 2 - 1) with (length (q :: b') + n)
      by (simpl; lia).
    change (S (length b')) with (length (q :: b')). apply substring_at. }
  rewrite E, length_firstn.
  split; [lia|]. split; [lia|]. split; [now apply forallb_not_in|].
  apply includes_iff. exists (rev b'), a2.
  rewrite <- (firstn_skipn n a1) at 1. rewrite Hs.
  now rewrite <- !app_assoc.
Qed.

(** X17: every snippet that [extractQuotedSnippets] returns has between 5
    and 500 characters, stands in the text between two double quotes or
    between two single quotes, and holds no quote of that kind itself. *)
Theorem extractQuotedSnippets_shape (text : jsstring) :
  Forall (fun sn =>
            5 <= length sn /\ length sn <= 500
            /\ exists q,
                 (q = quote_dbl \/ q = quote_sgl)
                 /\ ~ In q sn
                 /\ includes text ([q] ++ sn ++ [q]) = true)
         (Verifier.extractQuotedSnippets text).
Proof.
  unfold Verifier.extractQuotedSnippets.
  destruct (negb (truthy text)); [constructor|].
  apply Forall_app. split; apply Forall_forall; intros sn Hsn;
    apply in_map_iff in Hsn as ([i e] & <- & Hm); cbn [fst snd];
    apply quoted_hits in Hm as (H1 & H2 & H3 & H4);
    (split; [exact H1|]; split; [exact H2|]).
  - exists quote_dbl. auto.
  - exists quote_sgl. auto.
Qed.

(** ** Waiting and similarity *)

Lemma backoff_sum (n : nat) :
  forall from,
  list_sum (backoff from n) + Embeddings.RETRY_BACKOFF_MS * 2 ^ from
  = Embeddings.RETRY_BACKOFF_MS * 2 ^ (from + n).
Proof.
  unfold backoff. induction n as [|n IH]; intro from; cbn [seq map list_sum].
  - now rewrite Nat.add_0_r.
  - specialize (IH (S from)).
    replace (from + S n) with (S from + n) by lia.
    rewrite <- IH. rewrite Nat.pow_succ_r'.
    change (list_sum (?x :: ?l)) with (x + list_sum l).
    lia.
Qed.

(** X18: whatever its function does, [withRetry] waits at most [retries]
    times and less than [500 * 2 ^ retries] milliseconds in all, 3500 at
    most with the default; and when the first call succeeds it returns that
    result without waiting. *)
Theorem withRetry_waits_bounded (A : Type) (fn : nat -> result A)
  (retries : nat) :
  length (snd (Embeddings.withRetry fn retries)) <= retries
  /\ list_sum (snd (Embeddings.withRetry fn retries)) + 500
     <= 500 * 2 ^ retries
  /\ list_sum (snd (Embeddings.withRetry fn Embeddings.MAX_RETRIES)) <= 3500
  /\ forall a, fn 0 = Ok a -> Embeddings.withRetry fn retries = (Ok a, []).
Proof.
  assert (Hgen : forall r,
            length (snd (Embeddings.withRetry fn r)) <= r
            /\ list_sum (snd (Embeddings.withRetry fn r)) + 500
               <= 500 * 2 ^ r).
  { intro r. unfold Embeddings.withRetry.
    destruct (withRetry_from_outcome fn r 0 []) as (n & Hn & Hrun & _).
    rewrite Hrun. cbn [snd app].
    split; [unfold backoff; now rewrite length_map, length_seq|].
    pose proof (backoff_sum n 0) as Hs.
    change Embeddings.RETRY_BACKOFF_MS with 500 in Hs.
    cbn [Nat.add Nat.pow] in Hs.
    assert (2 ^ n <= 2 ^ r) by (apply Nat.pow_le_mono_r; lia).
    lia. }
  split; [apply Hgen|]. split; [apply Hgen|]. split.
  - destruct (Hgen Embeddings.MAX_RETRIES) as [_ H].
    change (2 ^ Embeddings.MAX_RETRIES) with 8 in H. lia.
  - intros a Ha. unfold Embeddings.withRetry.
    destruct retries; cbn [Embeddings.withRetry_from]; now rewrite Ha.
Qed.

Lemma float_mul_comm (x y : float) : (x * y)%float = (y * x)%float.
Proof.
  apply Prim2SF_inj. rewrite !mul_spec. unfold SF64mul, SFmul.
  destruct (Prim2SF x) as [sx|sx| |sx mx ex],
           (Prim2SF y) as [sy|sy| |sy my ey];
    try reflexivity; try (now rewrite xorb_comm).
  now rewrite xorb_comm, Pos.mul_comm, Z.add_comm.
Qed.

Lemma sum_products_comm (a : vec) :
  forall b acc, sum_products acc a b = sum_products acc b a.
Proof.
  induction a as [|x a IH]; intros [|y b] acc; try reflexivity.
  cbn [sum_products]. now rewrite IH, float_mul_comm.
Qed.

Lemma cosine_guarded_comm (a b : vec) :
  cosine_guarded a b = cosine_guarded b a.
Proof.
  unfold cosine_guarded, cosine_full, dot_product.
  rewrite orb_comm, (sum_products_comm a b).
  now rewrite (float_mul_comm (norm a) (norm b)).
Qed.

(** X20: in the arithmetic of doubles the function of [embeddings.js] is
    symmetric in its two vectors, and the function of [ask.js] is symmetric
    on vectors of one length. *)
Theorem cosineSimilarity_symmetric (a b : vec) :
  Embeddings.cosineSimilarity a b = Embeddings.cosineSimilarity b a
  /\ (length a = length b ->
        Ask.cosineSimilarity a b = Ask.cosineSimilarity b a).
Proof.
  split.
  - rewrite !embeddings_cosine_value, (Nat.min_comm (length b)).
    apply cosine_guarded_comm.
  - intro Hl. rewrite !ask_cosine_value.
    rewrite Hl at 1. rewrite read_to_all.
    rewrite <- Hl, read_to_all.
    apply cosine_guarded_comm.
Qed.

(** X20 on [3; 4] and [4; 3]. *)
Lemma cosineSimilarity_symmetric_witness :
  length [3%float; 4%float] = length [4%float; 3%float]
  /\ Ask.cosineSimilarity [3%float; 4%float] [4%float; 3%float]
     = Ask.cosineSimilarity [4%float; 3%float] [3%float; 4%float].
Proof.
  split; [reflexivity|].
  exact (proj2 (cosineSimilarity_symmetric [3%float; 4%float]
                                           [4%float; 3%float]) eq_refl).
Defined.

(** ** The retriever *)







(** ** Attaching the embeddings *)

Lemma update_nth (A : Type) (f : A -> A) (l : list A) :
  forall i j,
  nth_error (Ask.update i f l) j
  = if i =? j then option_map f (nth_error l j) else nth_error l j.
Proof.
  induction l as [|x l IH]; intros [|i] [|j]; simpl; auto.
  now destruct (i =? j).
Qed.

Lemma update_map (A B : Type) (g : A -> B) (f : A -> A) (l : list A) :
  (forall x, g (f x) = g x) ->
  forall i, map g (Ask.update i f l) = map g l.
Proof.
  intro Hf. induction l as [|x l IH]; intros [|i]; simpl; auto.
  - now rewrite Hf.
  - now rewrite IH.
Qed.

Lemma combine_seq_snd (A : Type) (l : list A) :
  forall s, map snd (combine (seq s (length l)) l) = l.
Proof.
  induction l as [|x l IH]; intro s; simpl; [reflexivity|].
  now rewrite IH.
Qed.

Lemma in_batch (A : Type) (x : A) (n s : nat) (l : list A) :
  In x (firstn n (skipn s l)) -> In x l.
Proof.
  intro H. rewrite <- (firstn_skipn s l). apply in_or_app. right.
  rewrite <- (firstn_skipn n (skipn s l)). apply in_or_app. now left.
Qed.

Lemma same_length_nth (A B : Type) (l : list A) (l' : list B) (i : nat)
  (x : A) :
  length l = length l' -> nth_error l i = Some x ->
  exists y, nth_error l' i = Some y.
Proof.
  intros Hlen Hx.
  assert (Hi : i < length l) by (apply nth_error_Some; congruence).
  destruct (nth_error l' i) as [y|] eqn:Hy; [now exists y|].
  apply nth_error_None in Hy. lia.
Qed.

Lemma without_embedding_In (cs : list Ask.chunk) (i : nat) :
  In i (Ask.without_embedding cs)
  <-> exists c, nth_error cs i = Some c /\ Ask.embedding c = None.
Proof.
  unfold Ask.without_embedding. rewrite filter_In, in_seq. split.
  - intros [_ H]. destruct (nth_error cs i) as [c|]; [|discriminate].
    exists c. split; [reflexivity|]. now destruct (Ask.embedding c).
  - intros (c & Hc & He). split.
    + assert (i < length cs) by (apply nth_error_Some; congruence). lia.
    + now rewrite Hc, He.
Qed.

Section Attach.

Variable endpoint : nat -> list jsstring -> result (list (option vec)).
Variable sha1_12 : jsstring -> jsstring.

Lemma attach_fold_map (B : Type) (g : Ask.chunk -> B)
  (embs : list (option vec)) (l : list (nat * nat)) :
  (forall j c, g (Ask.assign sha1_12 embs j c) = g c) ->
  forall cs,
  map g (fold_left (fun cs' ji =>
                      Ask.update (snd ji) (Ask.assign sha1_12 embs (fst ji))
                                 cs') l cs)
  = map g cs.
Proof.
  intro Hg. induction l as [|[j idx] l IH]; intro cs; simpl; auto.
  rewrite IH. now apply update_map.
Qed.

Lemma attach_fold_other (embs : list (option vec)) (l : list (nat * nat))
  (i : nat) :
  ~ In i (map snd l) ->
  forall cs,
  nth_error (fold_left (fun cs' ji =>
                          Ask.update (snd ji)
                                     (Ask.assign sha1_12 embs (fst ji)) cs')
                       l cs) i
  = nth_error cs i.
Proof.
  induction l as [|[j idx] l IH]; intros Hn cs; simpl; auto.
  simpl in Hn. rewrite IH by tauto. rewrite update_nth.
  destruct (idx =? i) eqn:E; [|reflexivity].
  apply Nat.eqb_eq in E. tauto.
Qed.

Lemma attach_fold_embeds (embs : list (option vec)) (l : list (nat * nat)) :
  (forall ji, In ji l -> Ask.entry embs (fst ji) <> None) ->
  forall cs i c',
  nth_error (fold_left (fun cs' ji =>
                          Ask.update (snd ji)
                                     (Ask.assign sha1_12 embs (fst ji)) cs')
                       l cs) i = Some c' ->
  In i (map snd l)
  \/ (exists c, nth_error cs i = Some c /\ embedded c = true) ->
  embedded c' = true.
Proof.
  induction l as [|[j idx] l IH]; intros Hl cs i c' Hn Hor.
  - simpl in Hn, Hor. destruct Hor as [[]|(c & Hc & He)]. congruence.
  - cbn [fold_left fst snd map] in Hn, Hor.
    assert (Hl' : forall ji, In ji l -> Ask.entry embs (fst ji) <> None)
      by (intros ji Hji; apply Hl; now right).
    apply (IH Hl' _ i c' Hn).
    destruct (in_dec Nat.eq_dec i (map snd l)) as [Hi|Hi]; [now left|right].
    rewrite (@attach_fold_other embs l i Hi) in Hn.
    exists c'. split; [exact Hn|].
    rewrite update_nth in Hn. destruct (idx =? i) eqn:E.
    + destruct (nth_error cs i) as [c0|]; [|discriminate].
      injection Hn as <-. unfold embedded. cbn [Ask.assign Ask.embedding].
      specialize (Hl (j, idx) (or_introl eq_refl)). cbn [fst] in Hl.
      now destruct (Ask.entry embs j).
    + apply Nat.eqb_neq in E.
      destruct Hor as [[->|Hi']|(c & Hc & He)]; [tauto | tauto |].
      congruence.
Qed.

Lemma attach_map (B : Type) (g : Ask.chunk -> B) (embs : list (option vec))
  (batch : list nat) (cs : list Ask.chunk) :
  (forall j c, g (Ask.assign sha1_12 embs j c) = g c) ->
  map g (Ask.attach sha1_12 embs batch cs) = map g cs.
Proof. intro Hg. unfold Ask.attach. now apply attach_fold_map. Qed.

Lemma attach_length (embs : list (option vec)) (batch : list nat)
  (cs : list Ask.chunk) :
  length (Ask.attach sha1_12 embs batch cs) = length cs.
Proof.
  rewrite <- (length_map Ask.text), attach_map by reflexivity.
  apply length_map.
Qed.

Lemma attach_other (embs : list (option vec)) (batch : list nat)
  (cs : list Ask.chunk) (i : nat) :
  ~ In i batch ->
  nth_error (Ask.attach sha1_12 embs batch cs) i = nth_error cs i.
Proof.
  intro H. unfold Ask.attach. apply attach_fold_other.
  now rewrite combine_seq_snd.
Qed.

Lemma attach_embeds (embs : list (option vec)) (batch : list nat)
  (cs : list Ask.chunk) :
  (forall j, j < length batch -> Ask.entry embs j <> None) ->
  forall i c',
  nth_error (Ask.attach sha1_12 embs batch cs) i = Some c' ->
  In i batch \/ (exists c, nth_error cs i = Some c /\ embedded c = true) ->
  embedded c' = true.
Proof.
  intros Hall i c' Hn Hor. unfold Ask.attach in Hn.
  apply (@attach_fold_embeds embs
           (combine (seq 0 (length batch)) batch)) with (cs := cs) (i := i);
    [|exact Hn|now rewrite combine_seq_snd].
  intros [j idx] Hji. apply in_combine_l in Hji. apply in_seq in Hji.
  cbn [fst]. apply Hall. lia.
Qed.

(** The loop over the batches, however it ends, leaves the identifier of
    the bundle, the identifiers and the texts of its chunks, and every chunk
    that is none of [without] as they were. *)
Lemma embed_batches_keeps (without starts : list nat) :
  forall b w r b' w',
  Ask.embed_batches endpoint sha1_12 starts without b w = (r, b', w') ->
  Ask.bundle_id b' = Ask.bundle_id b
  /\ map Ask.chunk_id (Ask.chunks b') = map Ask.chunk_id (Ask.chunks b)
  /\ map Ask.text (Ask.chunks b') = map Ask.text (Ask.chunks b)
  /\ forall i, ~ In i without ->
       nth_error (Ask.chunks b') i = nth_error (Ask.chunks b) i.
Proof.
  induction starts as [|s rest IH]; intros b w r b' w' H;
    cbn [Ask.embed_batches] in H.
  - injection H as <- <- <-. auto.
  - unfold Ask.callOpenAIEmbeddings in H.
    destruct (endpoint (length (Ask.requests w))
                (map (Ask.text_at (Ask.chunks b))
                     (firstn Ask.BATCH (skipn s without)))) as [embs|e].
    + apply IH in H as (H1 & H2 & H3 & H4).
      cbn [Ask.bundle_id Ask.chunks] in *.
      rewrite attach_map in H2 by reflexivity.
      rewrite attach_map in H3 by reflexivity.
      repeat split; auto.
      intros i Hi. rewrite (H4 i Hi). apply attach_other.
      intro Hin. apply Hi. eapply in_batch; eauto.
    + injection H as <- <- <-. auto.
Qed.

End Attach.

(** X22: however it ends, [ensureBundleEmbeddings] leaves the bundle with
    its identifier, with as many chunks, with the identifier and the text of
    every chunk as they were, and with every chunk that had an embedding
    unchanged, in its place. *)
Theorem ensure_keeps_chunks
  (endpoint : nat -> list jsstring -> result (list (option vec)))
  (sha1_12 : jsstring -> jsstring) (b : Ask.bundle) (w : Ask.world) :
  let '(_, b', _) := Ask.ensureBundleEmbeddings endpoint sha1_12 b w in
  Ask.bundle_id b' = Ask.bundle_id b
  /\ length (Ask.chunks b') = length (Ask.chunks b)
  /\ map Ask.chunk_id (Ask.chunks b') = map Ask.chunk_id (Ask.chunks b)
  /\ map Ask.text (Ask.chunks b') = map Ask.text (Ask.chunks b)
  /\ forall i c,
       nth_error (Ask.chunks b) i = Some c -> embedded c = true ->
       nth_error (Ask.chunks b') i = Some c.
Proof.
  assert (Hgen : forall r b' w',
            Ask.ensureBundleEmbeddings endpoint sha1_12 b w = (r, b', w') ->
            Ask.bundle_id b' = Ask.bundle_id b
            /\ map Ask.chunk_id (Ask.chunks b') = map Ask.chunk_id (Ask.chunks b)
            /\ map Ask.text (Ask.chunks b') = map Ask.text (Ask.chunks b)
            /\ forall i, ~ In i (Ask.without_embedding (Ask.chunks b)) ->
                 nth_error (Ask.chunks b') i = nth_error (Ask.chunks b) i).
  { intros r b' w' H. unfold Ask.ensureBundleEmbeddings in H.
    destruct (Ask.without_embedding (Ask.chunks b)) as [|i0 rest0] eqn:Hw.
    - injection H as <- <- <-. auto.
    - destruct (Ask.embed_batches endpoint sha1_12
                  (Ask.batch_starts (length (i0 :: rest0))) (i0 :: rest0) b w)
        as [[r1 b1] w1] eqn:He.
      apply embed_batches_keeps in He.
      destruct r1; injection H as <- <- <-; exact He. }
  destruct (Ask.ensureBundleEmbeddings endpoint sha1_12 b w)
    as [[r b'] w'] eqn:E.
  destruct (Hgen r b' w' eq_refl) as (H1 & H2 & H3 & H4).
  split; [exact H1|]. split.
  { rewrite <- (length_map Ask.text (Ask.chunks b')), H3. apply length_map. }
  split; [exact H2|]. split; [exact H3|].
  intros i c Hc He. rewrite H4; [exact Hc|].
  intro Hin. apply without_embedding_In in Hin as (c0 & Hc0 & Hnone).
  rewrite Hc in Hc0. injection Hc0 as <-.
  unfold embedded in He. now rewrite Hnone in He.
Qed.

(** ** The batches *)

Lemma batch_concat (A : Type) (m : nat) :
  forall l : list A,
  length l <= m * Ask.BATCH ->
  concat (map (fun s => firstn Ask.BATCH (skipn s l))
              (map (fun q => q * Ask.BATCH) (seq 0 m))) = l.
Proof.
  induction m as [|m IH]; intros l Hl.
  - destruct l; [reflexivity | simpl in Hl; lia].
  - cbn [seq map concat]. change (0 * Ask.BATCH) with 0. cbn [skipn].
    rewrite <- seq_shift, !map_map.
    transitivity (firstn Ask.BATCH l ++ skipn Ask.BATCH l);
      [|apply firstn_skipn].
    f_equal.
    transitivity
      (concat (map (fun s => firstn Ask.BATCH (skipn s (skipn Ask.BATCH l)))
                   (map (fun q => q * Ask.BATCH) (seq 0 m)))).
    + rewrite map_map. f_equal. apply map_ext. intro q.
      rewrite skipn_skipn. f_equal. f_equal. unfold Ask.BATCH. lia.
    + apply IH. rewrite length_skipn. unfold Ask.BATCH in *. lia.
Qed.

Lemma batch_starts_cover (n : nat) :
  n <= ((n + (Ask.BATCH - 1)) / Ask.BATCH) * Ask.BATCH.
Proof.
  unfold Ask.BATCH. cbn [Nat.sub].
  pose proof (Nat.div_mod_eq (n + 15) 16) as H.
  pose proof (Nat.mod_upper_bound (n + 15) 16) as Hm. lia.
Qed.

Lemma batch_starts_below (n s : nat) :
  In s (Ask.batch_starts n) -> s < n.
Proof.
  unfold Ask.batch_starts. intro H.
  apply in_map_iff in H as (q & <- & Hq). apply in_seq in Hq.
  unfold Ask.BATCH in *. cbn [Nat.sub] in *.
  pose proof (Nat.div_mod_eq (n + 15) 16) as H.
  pose proof (Nat.mod_upper_bound (n + 15) 16) as Hm. lia.
Qed.

Lemma filter_map_comm (A B : Type) (f : B -> bool) (g : A -> B)
  (l : list A) :
  filter f (map g l) = map g (filter (fun x => f (g x)) l).
Proof.
  induction l as [|x l IH]; simpl; [reflexivity|].
  destruct (f (g x)); simpl; now rewrite IH.
Qed.

Lemma without_embedding_cons (c : Ask.chunk) (cs : list Ask.chunk) :
  Ask.without_embedding (c :: cs)
  = (if unembedded c then [0] else []) ++ map S (Ask.without_embedding cs).
Proof.
  unfold Ask.without_embedding. cbn [length seq filter nth_error].
  rewrite <- seq_shift, filter_map_comm. cbn [nth_error].
  unfold unembedded, embedded. now destruct (Ask.embedding c).
Qed.

Lemma without_embedding_texts (cs : list Ask.chunk) :
  map (Ask.text_at cs) (Ask.without_embedding cs)
  = map Ask.text (filter unembedded cs).
Proof.
  induction cs as [|c cs IH]; [reflexivity|].
  rewrite without_embedding_cons, map_app, map_map. cbn [filter].
  change (fun x => Ask.text_at (c :: cs) (S x)) with (Ask.text_at cs).
  rewrite IH. now destruct (unembedded c).
Qed.

(** The batches hold the texts of the chunks without embedding, each one
    once, in the order of the bundle. *)
Lemma batches_concat (b : Ask.bundle) :
  concat (batches b) = map Ask.text (filter unembedded (Ask.chunks b)).
Proof.
  unfold batches, batch_texts, Ask.batch_starts.
  rewrite <- without_embedding_texts.
  set (without := Ask.without_embedding (Ask.chunks b)).
  set (starts := map (fun q => q * Ask.BATCH) (seq 0 _)).
  transitivity
    (map (Ask.text_at (Ask.chunks b))
         (concat (map (fun s => firstn Ask.BATCH (skipn s without)) starts))).
  - now rewrite concat_map, map_map.
  - f_equal. apply batch_concat, batch_starts_cover.
Qed.

Lemma batches_sizes (b : Ask.bundle) :
  Forall (fun t => 1 <= length t <= 16) (batches b).
Proof.
  apply Forall_forall. intros t Ht. unfold batches in Ht.
  apply in_map_iff in Ht as (s & <- & Hs).
  apply batch_starts_below in Hs.
  unfold batch_texts. rewrite length_map, length_firstn, length_skipn.
  unfold Ask.BATCH. lia.
Qed.

Lemma concat_firstn_prefix (A : Type) (n : nat) (l : list (list A)) :
  is_prefix (concat (firstn n l)) (concat l).
Proof.
  exists (concat (skipn n l)).
  now rewrite <- concat_app, firstn_skipn.
Qed.

(** X23: the requests that [ensureBundleEmbeddings] issues carry between 1
    and 16 texts each; read one after the other, their texts are the texts
    of the chunks that had no embedding, in the order of the bundle and
    each chunk once: all of them when the call returns, the first ones when
    it throws.  No text of a chunk that had an embedding is sent. *)
Theorem ensure_requests_unembedded_texts
  (endpoint : nat -> list jsstring -> result (list (option vec)))
  (sha1_12 : jsstring -> jsstring) (b : Ask.bundle) (w : Ask.world) :
  let '(r, _, w') := Ask.ensureBundleEmbeddings endpoint sha1_12 b w in
  exists reqs,
    Ask.requests w' = Ask.requests w ++ reqs
    /\ Forall (fun t => 1 <= length t <= 16) reqs
    /\ is_prefix (concat reqs)
                 (map Ask.text (filter unembedded (Ask.chunks b)))
    /\ (forall u, r = Ok u ->
          concat reqs = map Ask.text (filter unembedded (Ask.chunks b))).
Proof.
  destruct (Ask.ensureBundleEmbeddings endpoint sha1_12 b w)
    as [[r b'] w'] eqn:E.
  apply ensure_trace in E as (n & Hn & Hreq & Hr & _).
  exists (firstn n (batches b)). split; [exact Hreq|]. split; [|split].
  - apply Forall_forall. intros t Ht.
    pose proof (batches_sizes b) as Hs. rewrite Forall_forall in Hs.
    apply Hs. rewrite <- (firstn_skipn n (batches b)).
    apply in_or_app. now left.
  - rewrite <- batches_concat. apply concat_firstn_prefix.
  - intros u ->. destruct Hr as [-> _].
    now rewrite firstn_all, batches_concat.
Qed.

(** ** A service that answers *)

Lemma entry_answered (embs : list (option vec)) (j : nat) :
  Forall (fun e => e <> None) embs -> j < length embs ->
  Ask.entry embs j <> None.
Proof.
  intros Hall Hj. unfold Ask.entry.
  destruct (nth_error embs j) as [e|] eqn:He.
  - rewrite Forall_forall in Hall. apply nth_error_In in He.
    specialize (Hall e He). destruct e; [discriminate | contradiction].
  - apply nth_error_None in He. lia.
Qed.

Lemma embed_batches_complete
  (endpoint : nat -> list jsstring -> result (list (option vec)))
  (sha1_12 : jsstring -> jsstring) (without : list nat) :
  answers_fully endpoint ->
  forall starts b w,
  exists b' w',
    Ask.embed_batches endpoint sha1_12 starts without b w = (Ok tt, b', w')
    /\ forall i c',
         nth_error (Ask.chunks b') i = Some c' ->
         (exists s, In s starts
                    /\ In i (firstn Ask.BATCH (skipn s without)))
         \/ (exists c, nth_error (Ask.chunks b) i = Some c
                       /\ embedded c = true) ->
         embedded c' = true.
Proof.
  intro Hfull. induction starts as [|s rest IH]; intros b w.
  - exists b, w. split; [reflexivity|].
    intros i c' Hn [(s & [] & _)|(c & Hc & He)]. congruence.
  - cbn [Ask.embed_batches]. unfold Ask.callOpenAIEmbeddings.
    set (batch := firstn Ask.BATCH (skipn s without)).
    destruct (Hfull (length (Ask.requests w))
                (map (Ask.text_at (Ask.chunks b)) batch))
      as (embs & He & Hlen & Hall).
    rewrite He. rewrite length_map in Hlen.
    set (b1 := Ask.Bundle (Ask.bundle_id b)
                 (Ask.attach sha1_12 embs batch (Ask.chunks b))).
    set (w1 := Ask.World _ _).
    destruct (IH b1 w1) as (b' & w' & Hrun & Hprop).
    exists b', w'. split; [exact Hrun|].
    intros i c' Hn Hor. apply (Hprop i c' Hn).
    destruct (embed_batches_keeps _ _ _ _ _ _ Hrun) as (_ & _ & Htexts & _).
    assert (Hsame : length (Ask.chunks b') = length (Ask.chunks b1)).
    { rewrite <- (length_map Ask.text (Ask.chunks b')), Htexts.
      apply length_map. }
    destruct (@same_length_nth _ _ _ _ _ _ Hsame Hn) as (c1 & Hc1).
    assert (Hans : forall j, j < length batch -> Ask.entry embs j <> None).
    { intros j Hj. apply entry_answered; [exact Hall | lia]. }
    destruct Hor as [(s' & [<-|Hs'] & Hi)|(c & Hc & Hemb)].
    + right. exists c1. split; [exact Hc1|].
      apply (@attach_embeds endpoint sha1_12 embs batch (Ask.chunks b) Hans
               i c1 Hc1).
      now left.
    + left. exists s'. auto.
    + right. exists c1. split; [exact Hc1|].
      apply (@attach_embeds endpoint sha1_12 embs batch (Ask.chunks b) Hans
               i c1 Hc1).
      right. exists c. auto.
Qed.

Lemma batch_starts_reach (without : list nat) (i : nat) :
  In i without ->
  exists s, In s (Ask.batch_starts (length without))
            /\ In i (firstn Ask.BATCH (skipn s without)).
Proof.
  intro Hi.
  pose proof (@batch_concat _ _ without
                (batch_starts_cover (length without))) as Hc.
  fold (Ask.batch_starts (length without)) in Hc.
  rewrite <- Hc in Hi.
  apply in_concat in Hi as (batch & Hb & Hi).
  apply in_map_iff in Hb as (s & <- & Hs). exists s. auto.
Qed.

(** X24: with a service that answers every request with one vector for
    each text, [ensureBundleEmbeddings] returns, every chunk of the bundle
    has an embedding afterwards, the requests issued are those of the
    batches, and a second call changes and requests nothing. *)
Theorem ensure_embeds_every_chunk
  (endpoint : nat -> list jsstring -> result (list (option vec)))
  (sha1_12 : jsstring -> jsstring) (b : Ask.bundle) (w : Ask.world) :
  answers_fully endpoint ->
  exists b' w',
    Ask.ensureBundleEmbeddings endpoint sha1_12 b w = (Ok tt, b', w')
    /\ forallb embedded (Ask.chunks b') = true
    /\ Ask.requests w' = Ask.requests w ++ batches b
    /\ Ask.ensureBundleEmbeddings endpoint sha1_12 b' w' = (Ok tt, b', w').
Proof.
  intro Hfull.
  assert (Hrun : exists b' w',
            Ask.ensureBundleEmbeddings endpoint sha1_12 b w = (Ok tt, b', w')
            /\ forallb embedded (Ask.chunks b') = true).
  { unfold Ask.ensureBundleEmbeddings.
    destruct (Ask.without_embedding (Ask.chunks b)) as [|i0 rest0] eqn:Hw.
    - exists b, w. split; [reflexivity|].
      apply forallb_forall. intros c Hc.
      apply In_nth_error in Hc as (i & Hi).
      unfold embedded. destruct (Ask.embedding c) eqn:Hemb; [reflexivity|].
      assert (Hin : In i (Ask.without_embedding (Ask.chunks b)))
        by (apply without_embedding_In; eauto).
      rewrite Hw in Hin. contradiction.
    - rewrite <- Hw.
      destruct (embed_batches_complete sha1_12
                  (Ask.without_embedding (Ask.chunks b)) Hfull
                  (Ask.batch_starts
                     (length (Ask.without_embedding (Ask.chunks b)))) b w)
        as (b' & w' & Hrun & Hprop).
      rewrite Hrun. exists b', (Ask.saveBundle b' w').
      split; [reflexivity|].
      apply forallb_forall. intros c' Hc'.
      apply In_nth_error in Hc' as (i & Hi).
      apply (Hprop i c' Hi).
      destruct (embed_batches_keeps _ _ _ _ _ _ Hrun) as (_ & _ & Htexts & _).
      assert (Hsame : length (Ask.chunks b') = length (Ask.chunks b)).
      { rewrite <- (length_map Ask.text (Ask.chunks b')), Htexts.
        apply length_map. }
      destruct (@same_length_nth _ _ _ _ _ _ Hsame Hi) as (c & Hc).
      destruct (Ask.embedding c) eqn:Hemb.
      + right. exists c. split; [exact Hc|]. unfold embedded.
        now rewrite Hemb.
      + left. apply batch_starts_reach. apply without_embedding_In. eauto. }
  destruct Hrun as (b' & w' & Hrun & Hall).
  exists b', w'. split; [exact Hrun|]. split; [exact Hall|]. split.
  - pose proof Hrun as Ht.
    apply ensure_trace in Ht as (n & _ & Hreq & (-> & _) & _).
    now rewrite Hreq, firstn_all.
  - unfold Ask.ensureBundleEmbeddings.
    now rewrite (without_embedding_none _ Hall).
Qed.

Lemma endpoint_ones_answers : answers_fully endpoint_ones.
Proof.
  intros n texts. exists (map (fun _ => Some [1%float]) texts).
  split; [reflexivity|]. split; [apply length_map|].
  apply Forall_forall. intros e He.
  apply in_map_iff in He as (t & <- & _). discriminate.
Qed.

(** X24 on [bundle_mixed], with the service [endpoint_ones]. *)
Lemma ensure_embeds_every_chunk_witness :
  answers_fully endpoint_ones
  /\ exists b' w',
       Ask.ensureBundleEmbeddings endpoint_ones fingerprint bundle_mixed
         (Ask.World [] []) = (Ok tt, b', w')
       /\ forallb embedded (Ask.chunks b') = true
       /\ Ask.requests w' = Ask.requests (Ask.World [] [])
                            ++ batches bundle_mixed
       /\ Ask.ensureBundleEmbeddings endpoint_ones fingerprint b' w'
          = (Ok tt, b', w').
Proof.
  split; [exact endpoint_ones_answers|].
  exact (ensure_embeds_every_chunk fingerprint bundle_mixed (Ask.World [] [])
           endpoint_ones_answers).
Defined.

(** ** Bundles *)

Lemma string_of_uint_digits (d : Decimal.uint) :
  forallb is_digit (lit (NilEmpty.string_of_uint d)) = true.
Proof.
  induction d; cbn [NilEmpty.string_of_uint lit list_ascii_of_string forallb];
    [reflexivity | ..]; fold (lit (NilEmpty.string_of_uint d));
    rewrite IHd; reflexivity.
Qed.

Lemma decimal_digits (n : nat) : forallb is_digit (Bundles.decimal n) = true.
Proof.
  unfold Bundles.decimal, NilZero.string_of_uint.
  pose proof (string_of_uint_digits (Nat.to_uint n)) as H.
  destruct (Nat.to_uint n); [reflexivity | exact H ..].
Qed.

Lemma decimal_nonempty (n : nat) : Bundles.decimal n <> [].
Proof.
  unfold Bundles.decimal, NilZero.string_of_uint.
  destruct (Nat.to_uint n); discriminate.
Qed.

Lemma string_of_uint_value (d : Decimal.uint) :
  forall acc,
  fold_left (fun acc c => 10 * acc + (code c - 48))
            (lit (NilEmpty.string_of_uint d)) acc
  = Nat.of_uint_acc d acc.
Proof.
  induction d; intro acc;
    cbn [NilEmpty.string_of_uint lit list_ascii_of_string fold_left
         Nat.of_uint_acc];
    [reflexivity | ..]; fold (lit (NilEmpty.string_of_uint d));
    rewrite IHd, Nat.tail_mul_spec; f_equal;
    match goal with
    | |- context [code ?c - 48] =>
        let v := eval vm_compute in (code c - 48) in
        change (code c - 48) with v
    end; lia.
Qed.

Lemma decimal_value (n : nat) : digits_value (Bundles.decimal n) = n.
Proof.
  unfold digits_value, Bundles.decimal, NilZero.string_of_uint.
  pose proof (Unsigned.of_to n) as H. unfold Nat.of_uint in H.
  pose proof (string_of_uint_value (Nat.to_uint n) 0) as Hv.
  destruct (Nat.to_uint n); try (now rewrite Hv).
  simpl in H. now subst n.
Qed.

Lemma padStart0_value (s : jsstring) (n : nat) :
  digits_value (Bundles.padStart0 s n) = digits_value s.
Proof.
  unfold digits_value, Bundles.padStart0. rewrite fold_left_app. f_equal.
  induction (n - length s) as [|k IH]; [reflexivity|].
  cbn [repeat fold_left].
  change (10 * 0 + (code (ascii_of_nat 48) - 48)) with 0. exact IH.
Qed.

Lemma padStart0_digits (s : jsstring) (n : nat) :
  forallb is_digit s = true ->
  forallb is_digit (Bundles.padStart0 s n) = true.
Proof.
  intro H. unfold Bundles.padStart0. rewrite forallb_app, H, andb_true_r.
  induction (n - length s) as [|k IH]; [reflexivity|]. exact IH.
Qed.

Lemma chunk_number_inj (i j : nat) :
  Bundles.padStart0 (Bundles.decimal (i + 1)) 3
  = Bundles.padStart0 (Bundles.decimal (j + 1)) 3 ->
  i = j.
Proof.
  intro H. apply (f_equal digits_value) in H.
  rewrite !padStart0_value, !decimal_value in H. lia.
Qed.

Lemma NoDup_map_inj (A B : Type) (f : A -> B) (l : list A) :
  (forall x y, f x = f y -> x = y) -> NoDup l -> NoDup (map f l).
Proof.
  intros Hf. induction 1 as [|x l Hx Hl IH]; simpl; constructor; auto.
  intro Hin. apply in_map_iff in Hin as (y & Hy & Hin).
  apply Hf in Hy. now subst y.
Qed.

Lemma NoDup_map_same (A B : Type) (f : A -> B) (l : list A) (x y : A) :
  NoDup (map f l) -> In x l -> In y l -> f x = f y -> x = y.
Proof.
  induction l as [|z l IH]; simpl; intros Hn Hx Hy E; [contradiction|].
  inversion Hn as [|? ? Hz Hl]; subst.
  destruct Hx as [->|Hx], Hy as [->|Hy]; auto.
  - exfalso. apply Hz. rewrite E. now apply in_map.
  - exfalso. apply Hz. rewrite <- E. now apply in_map.
Qed.

Lemma find_unique (A : Type) (p : A -> bool) (l : list A) (c : A) :
  In c l -> p c = true ->
  (forall x, In x l -> p x = true -> x = c) ->
  find p l = Some c.
Proof.
  induction l as [|z l IH]; simpl; intros Hc Hp Hu; [contradiction|].
  destruct (p z) eqn:Pz.
  - f_equal. apply Hu; auto.
  - destruct Hc as [->|Hc]; [congruence|]. apply IH; auto.
Qed.

Lemma map_combine_fst (A B : Type) (f : nat -> B) (l : list A) :
  forall s,
  map (fun ic => f (fst ic)) (combine (seq s (length l)) l)
  = map f (seq s (length l)).
Proof.
  induction l as [|x l IH]; intro s; [reflexivity|].
  cbn [length seq combine map fst]. now rewrite IH.
Qed.

Lemma map_combine_snd (A B : Type) (f : A -> B) (l : list A) :
  forall s,
  map (fun ic => f (snd ic)) (combine (seq s (length l)) l) = map f l.
Proof.
  induction l as [|x l IH]; intro s; [reflexivity|].
  cbn [length seq combine map snd]. now rewrite IH.
Qed.

Lemma chunk_objects_ids (bundleId : jsstring) (raw : list Mcp.chunk) :
  map Bundles.chunk_id (Bundles.chunk_objects bundleId raw)
  = map (fun i => bundleId ++ lit "-chunk-"
                  ++ Bundles.padStart0 (Bundles.decimal (i + 1)) 3)
        (seq 0 (length raw)).
Proof.
  unfold Bundles.chunk_objects. rewrite map_map. cbn [Bundles.chunk_id
    Bundles.chunk_object].
  exact (map_combine_fst
           (fun i => bundleId ++ lit "-chunk-"
                     ++ Bundles.padStart0 (Bundles.decimal (i + 1)) 3)
           raw 0).
Qed.

Lemma chunk_objects_raw (bundleId : jsstring) (raw : list Mcp.chunk) :
  map (fun c => Mcp.Chunk (Bundles.text c) (Bundles.start_char c)
                          (Bundles.end_char c))
      (Bundles.chunk_objects bundleId raw) = raw.
Proof.
  unfold Bundles.chunk_objects. rewrite map_map.
  cbn [Bundles.text Bundles.start_char Bundles.end_char Bundles.chunk_object].
  rewrite (map_combine_snd (fun r => Mcp.Chunk (Mcp.text r) (Mcp.start_char r)
                                              (Mcp.end_char r)) raw 0).
  rewrite <- (map_id raw) at 2. apply map_ext. now intros [t a e].
Qed.

Lemma chunk_objects_NoDup (bundleId : jsstring) (raw : list Mcp.chunk) :
  NoDup (map Bundles.chunk_id (Bundles.chunk_objects bundleId raw)).
Proof.
  rewrite chunk_objects_ids. apply NoDup_map_inj; [|apply seq_NoDup].
  intros i j H. apply app_inv_head, app_inv_head in H.
  now apply chunk_number_inj.
Qed.

Lemma chunkText_solid (doc : jsstring) (opts : Mcp.options) :
  Forall (fun c => solid_start (Mcp.text c)) (Mcp.chunkText doc opts).
Proof.
  unfold Mcp.chunkText. cbv zeta.
  destruct (negb (truthy doc) || negb (truthy (trim doc))); [constructor|].
  apply (@fold_merge_inv
           (fun l => Forall (fun c => solid_start (Mcp.text c)) l)
           (fun c => solid_start (Mcp.text c)));
    [apply merge_step_solid | constructor |].
  eapply Forall_impl; [|apply assembled_ok]. now intros c [_ H].
Qed.

Lemma trimStart_nil_blank (s : jsstring) :
  trimStart s = [] -> forallb is_space s = true.
Proof.
  intro H. destruct (trimStart_suffix s) as (pre & E & Hpre).
  rewrite H, app_nil_r in E. now subst.
Qed.

Lemma forallb_rev (A : Type) (p : A -> bool) (l : list A) :
  forallb p (rev l) = forallb p l.
Proof.
  induction l as [|x l IH]; [reflexivity|].
  cbn [rev]. rewrite forallb_app, IH. cbn [forallb].
  rewrite andb_true_r. apply andb_comm.
Qed.

Lemma trim_nil_blank (s : jsstring) :
  trim s = [] -> forallb is_space s = true.
Proof.
  unfold trim, trimEnd. intro H.
  destruct (trimStart_suffix s) as (pre & E & Hpre).
  assert (Ht : trimStart (rev (trimStart s)) = []).
  { destruct (trimStart (rev (trimStart s))); [reflexivity|].
    apply (f_equal (@length ascii)) in H. rewrite length_rev in H.
    discriminate. }
  apply trimStart_nil_blank in Ht. rewrite forallb_rev in Ht.
  rewrite E, forallb_app, Hpre. exact Ht.
Qed.

Lemma blank_iff (s : jsstring) :
  negb (truthy s) || negb (truthy (trim s)) = forallb is_space s.
Proof.
  destruct (forallb is_space s) eqn:B.
  - rewrite (trim_blank _ B). apply orb_true_r.
  - destruct s as [|c s]; [discriminate|].
    destruct (trim (c :: s)) eqn:T; [|reflexivity].
    apply trim_nil_blank in T. congruence.
Qed.

(** X25: [createBundleForText] throws its error, and writes nothing,
    exactly on a text that is empty or all white space.  On any other text
    it returns a bundle named by [makeBundleId] and writes it under that
    name; the chunks of the bundle are those of [chunkText] in their order,
    no two of them share an identifier, every identifier begins with the
    name of the bundle followed by [-chunk-], and every chunk has a text
    that is not empty, with an estimate of at least one token. *)
Theorem createBundleForText_outcome (join : jsstring -> jsstring)
  (timestamp : nat) (short createdAt text : jsstring) (o : Bundles.opts)
  (disk : Bundles.store) :
  let id := Bundles.makeBundleId timestamp short in
  let raw := Mcp.chunkText text
               (match Bundles.chunkOptions o with
                | Some c => c
                | None => Mcp.Options None None
                end) in
  match Bundles.createBundleForText join timestamp short createdAt text o
                                    disk with
  | (Throw e, disk') =>
      forallb is_space text = true
      /\ e = Error "Text must be provided to create a bundle."
      /\ disk' = disk
  | (Ok b, disk') =>
      forallb is_space text = false
      /\ disk' = Bundles.writeFile (Bundles.file_of join id) b disk
      /\ Bundles.bundle_id b = id
      /\ Bundles.original_text_length b = length text
      /\ map (fun c => Mcp.Chunk (Bundles.text c) (Bundles.start_char c)
                                 (Bundles.end_char c)) (Bundles.chunks b)
         = raw
      /\ NoDup (map Bundles.chunk_id (Bundles.chunks b))
      /\ Forall (fun c =>
                   startsWith (id ++ lit "-chunk-") (Bundles.chunk_id c)
                   = true
                   /\ Bundles.text c <> []
                   /\ 1 <= Bundles.tokens c
                   /\ Bundles.tokens c
                      = Mcp.estimateTokens (Bundles.text c))
                (Bundles.chunks b)
  end.
Proof.
  cbv zeta. unfold Bundles.createBundleForText. rewrite blank_iff.
  destruct (forallb is_space text) eqn:B; [auto|].
  cbn [Bundles.bundle_id Bundles.original_text_length Bundles.chunks].
  split; [reflexivity|]. split; [reflexivity|]. split; [reflexivity|].
  split; [reflexivity|]. split; [apply chunk_objects_raw|].
  split; [apply chunk_objects_NoDup|].
  set (raw := Mcp.chunkText text _).
  pose proof (chunkText_solid text
                (match Bundles.chunkOptions o with
                 | Some c => c
                 | None => Mcp.Options None None
                 end)) as Hs.
  fold raw in Hs. rewrite Forall_forall in Hs.
  apply Forall_forall. intros c Hc. unfold Bundles.chunk_objects in Hc.
  apply in_map_iff in Hc as ([i r] & <- & Hir).
  apply in_combine_r in Hir. specialize (Hs r Hir).
  cbn [fst snd Bundles.chunk_object Bundles.chunk_id Bundles.text
       Bundles.tokens].
  split; [|split; [|split]].
  - apply startsWith_iff. eexists. now rewrite <- app_assoc.
  - destruct (Mcp.text r); [contradiction | discriminate].
  - unfold Mcp.estimateTokens.
    destruct (Mcp.text r) as [|x t]; [contradiction|]. cbn [truthy]. lia.
  - reflexivity.
Qed.

Lemma readFile_writeFile (name name' : jsstring) (b : Bundles.bundle)
  (disk : Bundles.store) :
  Bundles.readFile name (Bundles.writeFile name' b disk)
  = if str_eqb name name' then Some b else Bundles.readFile name disk.
Proof.
  induction disk as [|[n0 b0] disk IH]; cbn [Bundles.writeFile Bundles.readFile].
  - now destruct (str_eqb name name').
  - destruct (str_eqb name' n0) eqn:E; cbn [Bundles.readFile].
    + apply str_eqb_eq in E. subst n0. now destruct (str_eqb name name').
    + rewrite IH. destruct (str_eqb name n0) eqn:E0; [|reflexivity].
      destruct (str_eqb name name') eqn:E1; [|reflexivity].
      apply str_eqb_eq in E0, E1. subst. rewrite str_eqb_refl in E.
      discriminate.
Qed.

Lemma readFile_unlink (name : jsstring) (disk : Bundles.store) :
  Bundles.readFile name (Bundles.unlink name disk) = None.
Proof.
  unfold Bundles.unlink.
  induction disk as [|[n0 b0] disk IH]; cbn [filter fst]; [reflexivity|].
  destruct (str_eqb name n0) eqn:E; cbn [negb Bundles.readFile]; [exact IH|].
  now rewrite E.
Qed.

Lemma str_eqb_neq (s t : jsstring) : s <> t -> str_eqb s t = false.
Proof.
  intro H. destruct (str_eqb s t) eqn:E; [|reflexivity].
  apply str_eqb_eq in E. contradiction.
Qed.

(** X26: whatever path [path.join] gives for a name, a bundle that
    [createBundleForText] has returned is what [loadBundle] reads under its
    name, [getChunkById] finds each of its chunks under the identifier of
    that chunk, a name whose file has another path is read as before, and
    after [deleteBundle], which answers [true], [loadBundle] finds nothing
    under the name. *)
Theorem created_bundle_is_stored (join : jsstring -> jsstring)
  (timestamp : nat) (short createdAt text : jsstring) (o : Bundles.opts)
  (disk : Bundles.store) :
  match Bundles.createBundleForText join timestamp short createdAt text o
                                    disk with
  | (Ok b, disk') =>
      Bundles.loadBundle join (Bundles.bundle_id b) disk' = Ok (Some b)
      /\ (forall c, In c (Bundles.chunks b) ->
            Bundles.getChunkById join (Bundles.bundle_id b) (Bundles.chunk_id c)
                                 disk'
            = Ok (Some c))
      /\ (forall other,
            Bundles.file_of join other
            <> Bundles.file_of join (Bundles.bundle_id b) ->
            Bundles.loadBundle join other disk'
            = Bundles.loadBundle join other disk)
      /\ fst (Bundles.deleteBundle join (Bundles.bundle_id b) disk') = true
      /\ Bundles.loadBundle join (Bundles.bundle_id b)
           (snd (Bundles.deleteBundle join (Bundles.bundle_id b) disk'))
         = Ok None
  | (Throw _, disk') => disk' = disk
  end.
Proof.
  unfold Bundles.createBundleForText.
  destruct (negb (truthy text) || negb (truthy (trim text))); [reflexivity|].
  cbv zeta. set (id := Bundles.makeBundleId timestamp short).
  set (b := Bundles.Bundle id _ _ _ _ _).
  cbn [Bundles.bundle_id Bundles.chunks b].
  assert (Hid : truthy id = true) by reflexivity.
  assert (Hload : Bundles.loadBundle join id
                    (Bundles.writeFile (Bundles.file_of join id) b disk)
                  = Ok (Some b)).
  { unfold Bundles.loadBundle. rewrite Hid. cbn [negb].
    now rewrite readFile_writeFile, str_eqb_refl. }
  split; [exact Hload|]. split; [|split; [|split]].
  - intros c Hc. unfold Bundles.getChunkById. rewrite Hload.
    f_equal. cbn [Bundles.chunks b]. apply find_unique.
    + exact Hc.
    + apply str_eqb_refl.
    + intros x Hx E. apply str_eqb_eq in E.
      eapply NoDup_map_same; [apply chunk_objects_NoDup | exact Hx | exact Hc
                              | exact E].
  - intros other Hother. unfold Bundles.loadBundle.
    destruct (negb (truthy other)); [reflexivity|].
    rewrite readFile_writeFile, str_eqb_neq; [reflexivity | exact Hother].
  - unfold Bundles.deleteBundle.
    now rewrite readFile_writeFile, str_eqb_refl.
  - unfold Bundles.deleteBundle.
    rewrite readFile_writeFile, str_eqb_refl. cbn [snd].
    unfold Bundles.loadBundle. rewrite Hid. cbn [negb].
    now rewrite readFile_unlink.
Qed.

(** X27: in the map that [mapChunksById] builds from a bundle returned by
    [createBundleForText], every chunk of the bundle is found under its
    identifier: no chunk hides another and none is left out. *)
Theorem created_chunks_are_mapped (join : jsstring -> jsstring)
  (timestamp : nat) (short createdAt text : jsstring) (o : Bundles.opts)
  (disk : Bundles.store) :
  match Bundles.createBundleForText join timestamp short createdAt text o
                                    disk with
  | (Ok b, _) =>
      forall c, In c (Bundles.chunks b) ->
        Verifier.map_get (Bundles.chunk_id c)
                         (Verifier.mapChunksById (Some (as_read b)))
        = Some (Ask.Chunk (Bundles.chunk_id c) (Bundles.text c) None None)
  | (Throw _, _) => True
  end.
Proof.
  unfold Bundles.createBundleForText.
  destruct (negb (truthy text) || negb (truthy (trim text))); [exact I|].
  cbv zeta. set (id := Bundles.makeBundleId timestamp short).
  set (raw := Mcp.chunkText text _).
  cbn [Bundles.chunks]. intros c Hc.
  unfold Verifier.mapChunksById, as_read. cbn [Ask.chunks Bundles.chunks].
  rewrite fold_map_set_get. cbn [Verifier.map_get].
  set (view := fun c0 : Bundles.chunk =>
                 Ask.Chunk (Bundles.chunk_id c0) (Bundles.text c0) None
                           (Bundles.embedding_id c0)).
  assert (Hnone : forall x, In x (Bundles.chunk_objects id raw) ->
                            Bundles.embedding_id x = None).
  { intros x Hx. unfold Bundles.chunk_objects in Hx.
    now apply in_map_iff in Hx as (ic & <- & _). }
  assert (Hv : view c
               = Ask.Chunk (Bundles.chunk_id c) (Bundles.text c) None None)
    by (unfold view; now rewrite (Hnone c Hc)).
  rewrite <- Hv.
  rewrite (@find_unique _ _ (rev (map view (Bundles.chunk_objects id raw)))
             (view c)); [reflexivity | | |].
  - rewrite <- in_rev. now apply in_map.
  - cbn [view Ask.chunk_id]. rewrite str_eqb_refl, andb_true_r.
    unfold Bundles.chunk_objects in Hc.
    apply in_map_iff in Hc as (ic & <- & _). reflexivity.
  - intros x Hx E. rewrite <- in_rev in Hx.
    apply in_map_iff in Hx as (c0 & <- & Hc0).
    apply andb_true_iff in E as [_ E]. apply str_eqb_eq in E.
    cbn [view Ask.chunk_id] in E. f_equal.
    eapply NoDup_map_same; [apply chunk_objects_NoDup | exact Hc0 | exact Hc
                            | now symmetry].
Qed.

(** ** The identifiers of a bundle under the pattern of the verifier *)

Lemma advance_app (s : list ascii) :
  forall b a, advance (length s) (Cursor b (s ++ a)) = Cursor (rev s ++ b) a.
Proof.
  induction s as [|x s IH]; intros b a; [reflexivity|].
  cbn [length advance after before app]. rewrite IH. cbn [rev].
  now rewrite <- app_assoc.
Qed.

Lemma run_Lit_app (A : Type) (s b a : list ascii) (k : cursor -> option A) :
  run (Lit s) (Cursor b (s ++ a)) k = k (Cursor (rev s ++ b) a).
Proof.
  cbn [run after].
  replace (startsWith s (s ++ a)) with true
    by (symmetry; apply startsWith_iff; eauto).
  now rewrite advance_app.
Qed.

Lemma run_Lit_fail (A : Type) (s : list ascii) (c : cursor)
  (k : cursor -> option A) :
  startsWith s (after c) = false -> run (Lit s) c k = None.
Proof. cbn [run]. now intros ->. Qed.

Lemma run_Seq (A : Type) (r1 r2 : regex) (c : cursor)
  (k : cursor -> option A) :
  run (Seq r1 r2) c k = run r1 c (fun c' => run r2 c' k).
Proof. reflexivity. Qed.

Lemma run_Rep (A : Type) (p : ascii -> bool) (lo : nat) (hi : option nat)
  (c : cursor) (k : cursor -> option A) :
  run (Rep p lo hi) c k = try_down (run_length p hi (after c)) lo c k.
Proof. reflexivity. Qed.

Lemma run_WordB (A : Type) (c : cursor) (k : cursor -> option A) :
  xorb (is_word_opt (hd_error (before c))) (is_word_opt (hd_error (after c)))
  = true ->
  run WordB c k = k c.
Proof. cbn [run]. now intros ->. Qed.

Lemma try_down_first (A : Type) (lo : nat) (c : cursor)
  (k : cursor -> option A) (x : A) (first : nat) :
  lo <= first -> k (advance first c) = Some x ->
  forall n, first <= n ->
  (forall m, first < m -> m <= n -> k (advance m c) = None) ->
  try_down n lo c k = Some x.
Proof.
  intros Hlo Hk. induction n as [|n IH]; intros Hn Hnone.
  - assert (first = 0) by lia. subst first. cbn [try_down].
    replace (0 <? lo) with false by (symmetry; apply Nat.ltb_ge; lia).
    now rewrite Hk.
  - cbn [try_down].
    replace (S n <? lo) with false by (symmetry; apply Nat.ltb_ge; lia).
    destruct (Nat.eq_dec first (S n)) as [E|E].
    + subst first. now rewrite Hk.
    + rewrite Hnone by lia. apply IH; [lia|].
      intros m H1 H2. apply Hnone; lia.
Qed.

Lemma run_length_prefix (p : ascii -> bool) (s a : list ascii) :
  forallb p s = true ->
  run_length p None (s ++ a) = length s + run_length p None a.
Proof.
  induction s as [|x s IH]; intro H; [reflexivity|].
  cbn [forallb] in H. apply andb_true_iff in H as [Hx Hs].
  cbn [app run_length option_map length]. rewrite Hx, (IH Hs). reflexivity.
Qed.

Lemma run_length_stop (p : ascii -> bool) (a : list ascii) :
  match a with [] => True | x :: _ => p x = false end ->
  run_length p None a = 0.
Proof. destruct a as [|x a]; [reflexivity|]. cbn [run_length]. now intros ->. Qed.

Lemma digit_is_word (c : ascii) : is_digit c = true -> is_word c = true.
Proof.
  intro H. unfold is_word. rewrite H.
  now rewrite orb_true_r.
Qed.

Lemma digit_is_id_char (c : ascii) :
  is_digit c = true -> Verifier.id_char c = true.
Proof.
  intro H. unfold Verifier.id_char. rewrite H.
  now rewrite orb_true_r.
Qed.

Lemma hd_rev_forall (p : ascii -> bool) (l rest : list ascii) :
  forallb p l = true -> l <> [] ->
  exists x, hd_error (rev l ++ rest) = Some x /\ p x = true.
Proof.
  intros H Hne. destruct (rev l) as [|x t] eqn:E.
  - apply (f_equal (@rev ascii)) in E. rewrite rev_involutive in E.
    contradiction.
  - exists x. split; [reflexivity|].
    rewrite forallb_forall in H. apply H, in_rev. rewrite E. now left.
Qed.

Lemma nonword_head (pre : list ascii) :
  forallb (fun c => negb (is_word c)) pre = true ->
  is_word_opt (hd_error (rev pre ++ [])) = false.
Proof.
  intro H. destruct pre as [|x pre]; [reflexivity|].
  destruct (@hd_rev_forall _ (x :: pre) [] H) as (y & -> & Hy);
    [discriminate|].
  cbn [is_word_opt]. now destruct (is_word y).
Qed.

Lemma nonword_first (post : list ascii) :
  forallb (fun c => negb (is_word c)) post = true ->
  is_word_opt (hd_error post) = false.
Proof.
  destruct post as [|x post]; [reflexivity|]. cbn [forallb hd_error is_word_opt].
  intro H. apply andb_true_iff in H as [H _]. now destruct (is_word x).
Qed.

Lemma In_skipn (A : Type) (x : A) (n : nat) (l : list A) :
  In x (skipn n l) -> In x l.
Proof.
  intro H. rewrite <- (firstn_skipn n l). apply in_or_app. now right.
Qed.

(** No proper suffix of [-chunk-], digits, characters that are no word
    characters begins with [-chunk-]. *)
Lemma no_chunk_inside (num post : jsstring) (j : nat) :
  1 <= j -> num <> [] -> forallb is_digit num = true ->
  forallb (fun c => negb (is_word c)) post = true ->
  startsWith (lit "-chunk-") (skipn j (lit "-chunk-" ++ num ++ post)) = false.
Proof.
  intros Hj Hne Hnum Hpost.
  do 7 (destruct j as [|j]; [try lia; try reflexivity|]).
  - destruct num as [|d num]; [contradiction|].
    cbn [forallb] in Hnum. apply andb_true_iff in Hnum as [Hd _].
    cbn [lit list_ascii_of_string app skipn startsWith].
    destruct (Ascii.eqb "c" d) eqn:E; [|reflexivity].
    apply Ascii.eqb_eq in E. subst d. discriminate.
  - change (skipn (S (S (S (S (S (S (S j)))))))
                  (lit "-chunk-" ++ num ++ post))
      with (skipn j (num ++ post)).
    destruct (startsWith (lit "-chunk-") (skipn j (num ++ post))) eqn:S;
      [|reflexivity].
    apply startsWith_iff in S as (rest & S).
    assert (Hin : In "c"%char (num ++ post)).
    { apply (@In_skipn _ _ j). rewrite S. cbn. auto. }
    apply in_app_or in Hin as [Hin|Hin].
    + rewrite forallb_forall in Hnum. specialize (Hnum _ Hin). discriminate.
    + rewrite forallb_forall in Hpost. specialize (Hpost _ Hin).
      discriminate.
Qed.

(** Where an identifier of the shape that [createBundleForText] gives
    stands between characters that are no word characters, the pattern
    matches the identifier, all of it. *)
Lemma chunk_id_match (b : list ascii) (mid num post : jsstring) :
  is_word_opt (hd_error b) = false ->
  mid <> [] -> forallb Verifier.id_char mid = true ->
  num <> [] -> forallb is_digit num = true ->
  forallb (fun c => negb (is_word c)) post = true ->
  match_at Verifier.CHUNK_ID_REGEX
    (Cursor b (lit "bundle-" ++ mid ++ lit "-chunk-" ++ num ++ post))
  = Some (length b
          + length (lit "bundle-" ++ mid ++ lit "-chunk-" ++ num)).
Proof.
  intros Hb Hmid Hidc Hnum Hdig Hpost.
  unfold match_at, Verifier.CHUNK_ID_REGEX.
  set (k0 := fun e : cursor => Some (pos e)).
  rewrite run_Seq, run_WordB, run_Seq, run_Lit_app, run_Seq, run_Rep.
  2:{ cbn [before after]. rewrite Hb. reflexivity. }
  cbn [after].
  set (b1 := rev (lit "bundle-") ++ b).
  set (c1 := Cursor b1 (mid ++ lit "-chunk-" ++ num ++ post)).
  set (k1 := fun c' : cursor => _).
  apply try_down_first with (first := length mid).
  - destruct mid; [contradiction | simpl; lia].
  - unfold c1, k1. rewrite advance_app.
    rewrite run_Seq, run_Lit_app, run_Seq, run_Rep. cbn [after].
    rewrite (run_length_prefix _ num post Hdig).
    rewrite (run_length_stop is_digit post), Nat.add_0_r.
    2:{ destruct post as [|x post]; [exact I|].
        cbn [forallb] in Hpost. apply andb_true_iff in Hpost as [Hx _].
        destruct (is_digit x) eqn:D; [|reflexivity].
        apply digit_is_word in D. rewrite D in Hx. discriminate. }
    apply try_down_first with (first := length num); try lia.
    + destruct num; [contradiction | simpl; lia].
    + rewrite advance_app, run_WordB.
      * unfold k0, pos. cbn [before]. f_equal. unfold b1.
        rewrite !length_app, !length_rev. lia.
      * cbn [before after].
        destruct (@hd_rev_forall is_digit num
                    (rev (lit "-chunk-") ++ rev mid ++ b1) Hdig Hnum)
          as (x & -> & Hx).
        cbn [is_word_opt]. rewrite (digit_is_word _ Hx).
        now rewrite (nonword_first _ Hpost).
  - rewrite (run_length_prefix _ mid _ Hidc). lia.
  - intros m H1 H2.
    assert (Hm : m <= length (after c1)).
    { etransitivity; [exact H2|]. apply run_length_le. }
    destruct (@advance_spec m c1 Hm) as (_ & Ha & _).
    unfold k1. rewrite run_Seq. apply run_Lit_fail.
    rewrite Ha. unfold c1. cbn [after].
    rewrite skipn_app, (skipn_all2 mid) by lia. cbn [app].
    apply no_chunk_inside; auto. lia.
Qed.

Lemma nonword_no_match (b : list ascii) (x : ascii) (a : list ascii) :
  is_word x = false ->
  match_at Verifier.CHUNK_ID_REGEX (Cursor b (x :: a)) = None.
Proof.
  intro H.
  assert (S : startsWith (lit "bundle-") (x :: a) = false).
  { cbn [lit list_ascii_of_string startsWith].
    destruct (Ascii.eqb "b" x) eqn:E; [|reflexivity].
    apply Ascii.eqb_eq in E. subst x. discriminate. }
  unfold match_at, Verifier.CHUNK_ID_REGEX. cbn [run before after].
  rewrite S. now destruct (xorb _ _).
Qed.

Lemma scan_nonword (pre : list ascii) :
  forall b a cur,
  forallb (fun c => negb (is_word c)) pre = true ->
  scan Verifier.CHUNK_ID_REGEX b (pre ++ a) cur 0
  = match a with
    | [] => [Text (rev (rev pre ++ cur))]
    | _ :: _ =>
        scan Verifier.CHUNK_ID_REGEX (rev pre ++ b) a (rev pre ++ cur) 0
    end.
Proof.
  induction pre as [|x pre IH]; intros b a cur H.
  - cbn [app rev]. now destruct a.
  - cbn [forallb] in H. apply andb_true_iff in H as [Hx H].
    cbn [app scan]. rewrite nonword_no_match by now destruct (is_word x).
    rewrite (IH _ _ _ H). cbn [rev]. rewrite <- !app_assoc. reflexivity.
Qed.

Lemma scan_skip (r : regex) (s : list ascii) :
  forall b a cur,
  scan r b (s ++ a) cur (length s)
  = match a with
    | [] => [Text (rev cur)]
    | _ :: _ => scan r (rev s ++ b) a cur 0
    end.
Proof.
  induction s as [|x s IH]; intros b a cur.
  - cbn [app rev length]. now destruct a.
  - cbn [app length scan]. rewrite IH. cbn [rev].
    now rewrite <- app_assoc.
Qed.

(** The scan of a text in which one identifier stands between characters
    that are no word characters finds that identifier and nothing else. *)
Lemma scan_one_id (pre mid num post : jsstring) :
  forallb (fun c => negb (is_word c)) pre = true ->
  mid <> [] -> forallb Verifier.id_char mid = true ->
  num <> [] -> forallb is_digit num = true ->
  forallb (fun c => negb (is_word c)) post = true ->
  let id := lit "bundle-" ++ mid ++ lit "-chunk-" ++ num in
  hits (scan Verifier.CHUNK_ID_REGEX [] (pre ++ id ++ post) [] 0)
  = [(length pre, length pre + length id)].
Proof.
  intros Hpre Hmid Hidc Hnum Hdig Hpost id.
  assert (Hm : match_at Verifier.CHUNK_ID_REGEX
                 (Cursor (rev pre ++ []) (id ++ post))
               = Some (length pre + length id)).
  { unfold id. rewrite <- !app_assoc.
    rewrite (@chunk_id_match (rev pre ++ []) mid num post
               (nonword_head _ Hpre) Hmid Hidc Hnum Hdig Hpost).
    now rewrite app_nil_r, length_rev. }
  rewrite (scan_nonword pre [] (id ++ post) [] Hpre).
  assert (Hid : id ++ post
                = "b"%char :: (tl id ++ post)) by reflexivity.
  assert (Hlen : length id = S (length (tl id))) by reflexivity.
  rewrite Hid in *. cbn [scan]. rewrite Hm.
  replace (length (rev pre ++ []) <? length pre + length id) with true
    by (symmetry; apply Nat.ltb_lt; rewrite app_nil_r, length_rev; lia).
  replace (length pre + length id - length (rev pre ++ []) - 1)
    with (length (tl id))
    by (rewrite app_nil_r, length_rev; lia).
  rewrite scan_skip.
  assert (Hl : length (rev pre ++ []) = length pre)
    by now rewrite app_nil_r, length_rev.
  destruct post as [|y post]; [cbn; now rewrite Hl|].
  rewrite <- (app_nil_r (y :: post)).
  rewrite (scan_nonword (y :: post) _ [] [] Hpost). cbn. now rewrite Hl.
Qed.

(** X28: an identifier that [createBundleForText] has given to a chunk is
    what [extractChunkIds] finds, whole and alone, in a text where it
    stands between characters that are no word characters, such as
    brackets, spaces or nothing, given that the pattern starts from
    [lastIndex] 0 and that the UUID group is made of characters the pattern
    allows, as hexadecimal digits are. *)
Theorem created_id_is_extracted (timestamp idx : nat)
  (short pre post : jsstring) (raw : Mcp.chunk) :
  forallb Verifier.id_char short = true ->
  forallb (fun c => negb (is_word c)) pre = true ->
  forallb (fun c => negb (is_word c)) post = true ->
  let id := Bundles.chunk_id
              (Bundles.chunk_object (Bundles.makeBundleId timestamp short)
                                    idx raw) in
  Verifier.extractChunkIds (pre ++ id ++ post) 0 = ([id], 0).
Proof.
  intros Hshort Hpre Hpost. cbv zeta.
  cbn [Bundles.chunk_object Bundles.chunk_id]. unfold Bundles.makeBundleId.
  set (mid := Bundles.decimal timestamp ++ lit "-" ++ short).
  set (num := Bundles.padStart0 (Bundles.decimal (idx + 1)) 3).
  rewrite <- (app_assoc (lit "bundle-") mid).
  set (id := lit "bundle-" ++ mid ++ lit "-chunk-" ++ num).
  assert (Hmid : mid <> []).
  { unfold mid. pose proof (decimal_nonempty timestamp).
    destruct (Bundles.decimal timestamp); [contradiction | discriminate]. }
  assert (Hidc : forallb Verifier.id_char mid = true).
  { unfold mid. rewrite !forallb_app, Hshort, !andb_true_r.
    pose proof (decimal_digits timestamp) as Hd.
    rewrite forallb_forall in *. intros x Hx.
    now apply digit_is_id_char, Hd. }
  assert (Hnum : num <> []).
  { unfold num, Bundles.padStart0. pose proof (decimal_nonempty (idx + 1)).
    destruct (Bundles.decimal (idx + 1)); [contradiction|].
    intro E. apply app_eq_nil in E as [_ E]. discriminate. }
  assert (Hdig : forallb is_digit num = true)
    by apply padStart0_digits, decimal_digits.
  unfold Verifier.extractChunkIds.
  replace (truthy (pre ++ id ++ post)) with true
    by (destruct pre; reflexivity).
  cbn [negb]. f_equal. unfold execAll.
  cbn [Nat.ltb Nat.leb start_of firstn skipn rev before after].
  pose proof (@scan_one_id pre mid num post Hpre Hmid Hidc Hnum Hdig Hpost)
    as Hs.
  cbv zeta in Hs. fold id in Hs. rewrite Hs. cbn [map fst snd].
  replace (substring (pre ++ id ++ post) (length pre)
                     (length pre + length id)) with id; [reflexivity|].
  unfold substring.
  replace (length pre + length id - length pre) with (length id) by lia.
  rewrite skipn_app, skipn_all, Nat.sub_diag. cbn [app skipn].
  now rewrite firstn_app, firstn_all, Nat.sub_diag, app_nil_r.
Qed.

(** X28 on a citation in brackets. *)
Lemma created_id_is_extracted_witness :
  forallb Verifier.id_char sample_short = true
  /\ Verifier.extractChunkIds
       (lit "[" ++ Bundles.chunk_id
                  (Bundles.chunk_object
                     (Bundles.makeBundleId sample_timestamp sample_short) 0
                     (Mcp.Chunk (lit "Rent is due monthly.") 0 20))
        ++ lit "].") 0
     = ([Bundles.chunk_id
           (Bundles.chunk_object
              (Bundles.makeBundleId sample_timestamp sample_short) 0
              (Mcp.Chunk (lit "Rent is due monthly.") 0 20))], 0).
Proof.
  split; [reflexivity|].
  apply (created_id_is_extracted sample_timestamp 0 sample_short
           (lit "[") (lit "].")
           (Mcp.Chunk (lit "Rent is due monthly.") 0 20));
    reflexivity.
Defined.

(** ** Embeddings in batches *)

Lemma withRetry_first_ok (A : Type) (fn : nat -> result A) (retries : nat)
  (a : A) :
  fn 0 = Ok a -> Embeddings.withRetry fn retries = (Ok a, []).
Proof.
  intro H. unfold Embeddings.withRetry.
  destruct retries; cbn [Embeddings.withRetry_from]; now rewrite H.
Qed.

Lemma withRetry_calls (A : Type) (fn : nat -> result A) (retries : nat) :
  length (snd (Embeddings.withRetry fn retries)) <= retries.
Proof.
  unfold Embeddings.withRetry.
  destruct (withRetry_from_outcome fn retries 0 []) as (n & Hn & Hrun & _).
  rewrite Hrun. cbn [snd app]. unfold backoff.
  now rewrite length_map, length_seq.
Qed.

Lemma batch_count_0 (bs : nat) : 1 <= bs -> batch_count 0 bs = 0.
Proof. intro H. unfold batch_count. apply Nat.div_small. lia. Qed.

Lemma batch_count_step (len i bs : nat) :
  1 <= bs -> i < len ->
  batch_count (len - i) bs = S (batch_count (len - (i + bs)) bs).
Proof.
  intros Hbs Hi. unfold batch_count.
  destruct (Nat.le_gt_cases bs (len - i)) as [Hge|Hlt].
  - replace (len - i + (bs - 1)) with (len - (i + bs) + (bs - 1) + 1 * bs)
      by lia.
    rewrite Nat.div_add by lia. lia.
  - replace (len - (i + bs)) with 0 by lia.
    rewrite (Nat.div_small (0 + (bs - 1))) by lia.
    replace (len - i + (bs - 1)) with ((len - i - 1) + 1 * bs) by lia.
    rewrite Nat.div_add by lia. rewrite Nat.div_small by lia. reflexivity.
Qed.

Lemma batch_from_pointwise
  (service : nat -> list jsstring -> result Embeddings.body)
  (f : jsstring -> option vec) (texts : list jsstring) (bs : nat) :
  (forall n batch, service n batch = Ok (Embeddings.Data (map f batch))) ->
  1 <= bs ->
  forall fuel i acc w,
  length texts - i <= fuel * bs ->
  Embeddings.batch_from service fuel texts bs i acc w
  = Some (Ok (acc ++ map f (skipn i texts)),
          Embeddings.World
            (Embeddings.issued w + batch_count (length texts - i) bs)
            (Embeddings.waited w
             ++ repeat 100 (batch_count (length texts - i) bs))).
Proof.
  intros Hs Hbs.
  assert (Hexit : forall fuel i acc w, length texts <= i ->
            Embeddings.batch_from service fuel texts bs i acc w
            = Some (Ok (acc ++ map f (skipn i texts)),
                    Embeddings.World
                      (Embeddings.issued w
                       + batch_count (length texts - i) bs)
                      (Embeddings.waited w
                       ++ repeat 100 (batch_count (length texts - i) bs)))).
  { intros fuel i acc [n ws] Hi.
    replace (length texts - i) with 0 by lia.
    rewrite batch_count_0 by exact Hbs.
    rewrite skipn_all2 by exact Hi. cbn [map repeat Embeddings.issued
      Embeddings.waited]. rewrite !app_nil_r, Nat.add_0_r.
    destruct fuel; cbn [Embeddings.batch_from];
      now replace (length texts <=? i) with true
        by (symmetry; apply Nat.leb_le; exact Hi). }
  induction fuel as [|fuel IH]; intros i acc w Hfuel.
  - apply Hexit. lia.
  - destruct (Nat.le_gt_cases (length texts) i) as [Hi|Hi];
      [now apply Hexit|].
    cbn [Embeddings.batch_from].
    replace (length texts <=? i) with false
      by (symmetry; apply Nat.leb_gt; exact Hi).
    rewrite (@withRetry_first_ok _ _ Embeddings.MAX_RETRIES
               (Embeddings.Data (map f (firstn bs (skipn i texts)))))
      by (rewrite Nat.add_0_r; apply Hs).
    cbn [fst snd length Embeddings.issued Embeddings.waited].
    rewrite IH by (cbn [Nat.mul] in Hfuel; lia).
    cbn [Embeddings.issued Embeddings.waited].
    rewrite (@batch_count_step (length texts) i bs Hbs Hi).
    f_equal. f_equal.
    + rewrite <- app_assoc, <- map_app.
      rewrite (Nat.add_comm i bs), <- skipn_skipn.
      now rewrite firstn_skipn.
    + f_equal; [lia|]. rewrite app_nil_r, <- app_assoc. reflexivity.
Qed.

(** X29: when the service gives every text its vector, whatever the batch
    it comes in, [batchGetEmbeddings] returns the vectors of the texts in
    the order of the texts, whatever the batch size from 1 on; it issues
    one request for each batch and waits 100 milliseconds after each. *)
Theorem batchGetEmbeddings_in_order
  (service : nat -> list jsstring -> result Embeddings.body)
  (f : jsstring -> option vec) (texts : list jsstring) (batchSize : nat)
  (w : Embeddings.world) :
  (forall n batch, service n batch = Ok (Embeddings.Data (map f batch))) ->
  1 <= batchSize ->
  Embeddings.batchGetEmbeddings service (length texts) texts batchSize w
  = Some (Ok (map f texts),
          Embeddings.World
            (Embeddings.issued w + batch_count (length texts) batchSize)
            (Embeddings.waited w
             ++ repeat 100 (batch_count (length texts) batchSize))).
Proof.
  intros Hs Hbs. unfold Embeddings.batchGetEmbeddings.
  rewrite (@batch_from_pointwise service f texts batchSize Hs Hbs)
    by nia.
  cbn [skipn app]. now rewrite Nat.sub_0_r.
Qed.

(** X29 on three texts in batches of two. *)
Lemma batchGetEmbeddings_in_order_witness :
  Embeddings.batchGetEmbeddings service_ones 3
    [lit "a"; lit "b"; lit "c"] 2 (Embeddings.World 0 [])
  = Some (Ok [Some [1%float]; Some [1%float]; Some [1%float]],
          Embeddings.World 2 [100; 100]).
Proof.
  exact (@batchGetEmbeddings_in_order service_ones embed_one
           [lit "a"; lit "b"; lit "c"] 2 (Embeddings.World 0 [])
           (fun _ _ => eq_refl) (le_S _ _ (le_n 1))).
Defined.

Lemma batch_from_bounded
  (service : nat -> list jsstring -> result Embeddings.body)
  (texts : list jsstring) (bs : nat) :
  1 <= bs ->
  forall fuel i acc w,
  length texts - i <= fuel * bs ->
  exists out w',
    Embeddings.batch_from service fuel texts bs i acc w = Some (out, w')
    /\ Embeddings.issued w <= Embeddings.issued w'
    /\ Embeddings.issued w'
       <= Embeddings.issued w + 4 * batch_count (length texts - i) bs
    /\ (forall embs, out = Ok embs ->
          Embeddings.issued w + batch_count (length texts - i) bs
          <= Embeddings.issued w').
Proof.
  intro Hbs.
  assert (Hexit : forall fuel i acc w, length texts <= i ->
            Embeddings.batch_from service fuel texts bs i acc w
            = Some (Ok acc, w)).
  { intros fuel i acc w Hi.
    destruct fuel; cbn [Embeddings.batch_from];
      now replace (length texts <=? i) with true
        by (symmetry; apply Nat.leb_le; exact Hi). }
  induction fuel as [|fuel IH]; intros i acc w Hfuel.
  - exists (Ok acc), w. rewrite Hexit by lia.
    replace (length texts - i) with 0 by lia.
    rewrite batch_count_0 by exact Hbs.
    repeat split; try lia.
  - destruct (Nat.le_gt_cases (length texts) i) as [Hi|Hi].
    + exists (Ok acc), w. rewrite Hexit by exact Hi.
      replace (length texts - i) with 0 by lia.
      rewrite batch_count_0 by exact Hbs.
      repeat split; try lia.
    + cbn [Embeddings.batch_from].
      replace (length texts <=? i) with false
        by (symmetry; apply Nat.leb_gt; exact Hi).
      rewrite (@batch_count_step (length texts) i bs Hbs Hi).
      set (tried := Embeddings.withRetry _ _).
      assert (Hcalls : length (snd tried) <= 3)
        by apply withRetry_calls.
      destruct (fst tried) as [[items|printed]|e].
      * set (w2 := Embeddings.World _ _).
        destruct (IH (i + bs) (acc ++ items) w2) as (out & w' & Hrun & H1 & H2 & H3);
          [cbn [Nat.mul] in Hfuel; lia|].
        exists out, w'. split; [exact Hrun|].
        cbn [w2 Embeddings.issued] in H1, H2, H3.
        split; [lia|]. split; [lia|].
        intros embs He. specialize (H3 embs He). lia.
      * eexists. eexists. split; [reflexivity|].
        cbn [Embeddings.issued]. split; [lia|]. split; [lia|].
        intros embs He. discriminate.
      * eexists. eexists. split; [reflexivity|].
        cbn [Embeddings.issued]. split; [lia|]. split; [lia|].
        intros embs He. discriminate.
Qed.

Lemma batch_from_endless
  (service : nat -> list jsstring -> result Embeddings.body)
  (texts : list jsstring) (i : nat) :
  i < length texts ->
  forall fuel acc w,
  match Embeddings.batch_from service fuel texts 0 i acc w with
  | Some (Ok _, _) => False
  | _ => True
  end.
Proof.
  intro Hi. induction fuel as [|fuel IH]; intros acc w;
    cbn [Embeddings.batch_from];
    replace (length texts <=? i) with false
      by (symmetry; apply Nat.leb_gt; exact Hi); [exact I|].
  destruct (fst (Embeddings.withRetry _ _)) as [[items|printed]|e];
    [|exact I|exact I].
  rewrite Nat.add_0_r. apply IH.
Qed.

(** X30: whatever the service does, with a batch size from 1 on
    [batchGetEmbeddings] ends within as many turns as there are texts, it
    issues at most four requests for each batch, and when it returns it has
    issued at least one for each batch; with the batch size 0 and at least
    one text it never returns: it throws or asks without end. *)
Theorem batchGetEmbeddings_requests
  (service : nat -> list jsstring -> result Embeddings.body)
  (texts : list jsstring) (batchSize : nat) (w : Embeddings.world) :
  (1 <= batchSize ->
   exists out w',
     Embeddings.batchGetEmbeddings service (length texts) texts batchSize w
     = Some (out, w')
     /\ Embeddings.issued w' - Embeddings.issued w
        <= 4 * batch_count (length texts) batchSize
     /\ (forall embs, out = Ok embs ->
           batch_count (length texts) batchSize
           <= Embeddings.issued w' - Embeddings.issued w))
  /\ (batchSize = 0 -> texts <> [] ->
      forall fuel,
        match Embeddings.batchGetEmbeddings service fuel texts batchSize w with
        | Some (Ok _, _) => False
        | _ => True
        end).
Proof.
  split.
  - intro Hbs. unfold Embeddings.batchGetEmbeddings.
    destruct (@batch_from_bounded service texts batchSize Hbs
                (length texts) 0 [] w) as (out & w' & Hrun & H1 & H2 & H3);
      [nia|].
    rewrite Nat.sub_0_r in H2, H3.
    exists out, w'. split; [exact Hrun|]. split; [lia|].
    intros embs He. specialize (H3 embs He). lia.
  - intros -> Hne fuel. unfold Embeddings.batchGetEmbeddings.
    apply batch_from_endless. destruct texts; [contradiction | simpl; lia].
Qed.

(** X30 on three texts in batches of two, with a service that fails
    twice, and on one text with the batch size 0. *)
Lemma batchGetEmbeddings_requests_witness :
  (exists out w',
     Embeddings.batchGetEmbeddings service_slow 3
       [lit "a"; lit "b"; lit "c"] 2 (Embeddings.World 0 [])
     = Some (out, w')
     /\ Embeddings.issued w' - 0 <= 4 * batch_count 3 2
     /\ (forall embs, out = Ok embs ->
           batch_count 3 2 <= Embeddings.issued w' - 0))
  /\ match Embeddings.batchGetEmbeddings service_ones 5 [lit "a"] 0
             (Embeddings.World 0 []) with
     | Some (Ok _, _) => False
     | _ => True
     end.
Proof.
  split.
  - exact (proj1 (batchGetEmbeddings_requests service_slow
                    [lit "a"; lit "b"; lit "c"] 2 (Embeddings.World 0 []))
             (le_S _ _ (le_n 1))).
  - refine (proj2 (batchGetEmbeddings_requests service_ones
                     [lit "a"] 0 (Embeddings.World 0 []))
              eq_refl _ 5).
    discriminate.
Defined.
